(** * GeoQuery: a shallow embedding of [src/geoQuery.js]

    The query engine of geofire-js keeps, for one circular query (a center
    and a radius), the table of the keys it has seen, the registry of the
    geohash ranges it listens to, and four lists of client callbacks.  This
    file embeds the engine as state-passing functions over an explicit
    record of its private variables and proves properties of the events it
    fires.

    Conventions of the embedding:
    - a JavaScript number is a binary64 float ([PrimFloat.float]);
    - a plain object used as a dictionary is the list of its own
      properties in the order [for ... in] enumerates them: the keys that
      are array indices first, in ascending numeric order, then the other
      keys in the order they were created.  The object [_locations] is
      keyed by the names of the children Firebase delivers, which can be
      any string, so the embedding also keeps what JavaScript does for the
      names that are special on a plain object: an assignment to
      ["__proto__"] stores no property and makes the row the prototype of
      the object, and a row stored under ["hasOwnProperty"] shadows the
      method the engine calls on the object, so that the call throws a
      [TypeError];
    - a function that may [throw] runs in a small state-and-exception monad;
      the state reached when the exception is raised is kept, as it is in
      JavaScript;
    - what the engine does to the outside world (client callbacks invoked,
      Firebase listeners attached and detached, timers set and cleared) is
      recorded as a list of effects, in order;
    - functions of the library that live in other files (distance, geohash
      encoding, coverage computation, decoding and validation) are the
      fields of a record [Collaborators]; distance and geohash encoding are
      taken to return;
    - a client callback is known by its identity and does not call back
      into the instance while it runs;
    - Firebase and the timers are the environment: what they deliver, and
      what the client calls, is a list of inputs handled one after the
      other, in any order and with any content. *)

From Stdlib Require Import List String Ascii Bool Arith NArith Lia Floats Sorted.
Import ListNotations.

Set Implicit Arguments.
Local Open Scope string_scope.
Local Open Scope list_scope.

(** * Property keys that are array indices

    A key is an array index when it is the canonical decimal writing of an
    integer from 0 to 2^32 - 2: ["0"], or digits that do not start with
    ["0"]. *)

Definition digit (c : ascii) : option N :=
  let n := N_of_ascii c in
  if (N.leb 48 n && N.leb n 57)%bool then Some (n - 48)%N else None.

Fixpoint digits_value (acc : N) (s : string) : option N :=
  match s with
  | EmptyString => Some acc
  | String c s' =>
      match digit c with
      | Some d => digits_value (10 * acc + d)%N s'
      | None => None
      end
  end.

Definition array_index (k : string) : option N :=
  match k with
  | EmptyString => None
  | String c rest =>
      if Ascii.eqb c "0"
      then match rest with EmptyString => Some 0%N | _ => None end
      else match digits_value 0 k with
           | Some n => if N.ltb n 4294967295 then Some n else None
           | None => None
           end
  end.

(** Where a new key goes among the keys an object has: an array index goes
    before the first key that is a greater array index or no array index;
    any other key goes last. *)
Definition comes_before (k k' : string) : bool :=
  match array_index k with
  | Some n =>
      match array_index k' with
      | Some n' => N.ltb n n'
      | None => true
      end
  | None => false
  end.

(** The order [for ... in] gives two own keys: array indices ascending,
    and before the other keys. *)
Definition enumerated_before (k k' : string) : Prop :=
  match array_index k, array_index k' with
  | Some n, Some n' => (n <= n')%N
  | Some _, None => True
  | None, Some _ => False
  | None, None => True
  end.

(** * JavaScript objects used as dictionaries *)

Module JsObject.

Definition t (V : Type) : Type := list (string * V).

Section Ops.
Variable V : Type.

Definition empty : t V := [].

(** [o[k]], [None] standing for [undefined]. *)
Fixpoint get (k : string) (o : t V) : option V :=
  match o with
  | [] => None
  | (k', v) :: o' => if String.eqb k' k then Some v else get k o'
  end.

(** [o[k] = v], for a key that is an own property or is not
    ["__proto__"]: an existing property keeps its place; a new one goes
    where [for ... in] will enumerate it, an array index among the array
    indices in numeric order, any other key last. *)
Fixpoint overwrite (k : string) (v : V) (o : t V) : t V :=
  match o with
  | [] => []
  | (k', v') :: o' =>
      if String.eqb k' k then (k', v) :: o' else (k', v') :: overwrite k v o'
  end.

Fixpoint insert (k : string) (v : V) (o : t V) : t V :=
  match o with
  | [] => [(k, v)]
  | (k', v') :: o' =>
      if comes_before k k' then (k, v) :: o else (k', v') :: insert k v o'
  end.

Definition set (k : string) (v : V) (o : t V) : t V :=
  match get k o with
  | Some _ => overwrite k v o
  | None => insert k v o
  end.

(** [delete o[k]]. *)
Fixpoint delete (k : string) (o : t V) : t V :=
  match o with
  | [] => []
  | (k', v') :: o' =>
      if String.eqb k' k then delete k o' else (k', v') :: delete k o'
  end.

(** [Object.prototype.hasOwnProperty.call(o, k)]: what [o.hasOwnProperty(k)]
    answers when [o] has no own property named ["hasOwnProperty"]. *)
Definition hasOwnProperty (k : string) (o : t V) : bool :=
  match get k o with Some _ => true | None => false end.

(** [Object.keys(o)]: the own properties, in the order [for (k in o)]
    enumerates them (before it goes on to the prototype). *)
Definition keys (o : t V) : list string := map fst o.

End Ops.

Arguments empty {V}.

End JsObject.

(** * Strings: [split], [indexOf], comparison *)

(** [s.split(sep)] for a one-character separator. *)
Fixpoint split (sep : ascii) (s : string) : list string :=
  match s with
  | EmptyString => [EmptyString]
  | String c s' =>
      if Ascii.eqb c sep then EmptyString :: split sep s'
      else match split sep s' with
           | [] => [String c EmptyString]
           | piece :: pieces => String c piece :: pieces
           end
  end.

(** [l.indexOf(x)], [None] standing for [-1]. *)
Fixpoint index_of (A : Type) (eqb : A -> A -> bool) (x : A) (l : list A) : option nat :=
  match l with
  | [] => None
  | y :: l' => if eqb y x then Some 0 else option_map S (index_of eqb x l')
  end.

Definition indexOf : string -> list string -> option nat := index_of String.eqb.

(** [l.splice(i, 1)], for an index inside the array. *)
Fixpoint splice1 (A : Type) (i : nat) (l : list A) : list A :=
  match l, i with
  | [], _ => []
  | _ :: l', 0 => l'
  | x :: l', S i' => x :: splice1 i' l'
  end.

(** [l.filter(function (g, i) { return l.indexOf(g) === i; })]. *)
Definition filter_first_occurrences (l : list string) : list string :=
  map snd
    (filter (fun ig => match indexOf (snd ig) l with
                       | Some j => Nat.eqb j (fst ig)
                       | None => false
                       end)
            (combine (seq 0 (List.length l)) l)).

(** * Data of the engine *)

(** A location is the array [[latitude, longitude]]. *)
Definition Location : Type := (float * float)%type.

(** One entry of [_locations]. *)
Record LocationDict : Type := mkLocationDict {
  location : Location;
  distanceFromCenter : float;
  isInQuery : bool;
  geohash : string
}.

(** The argument of the constructor and of [updateCriteria]: either field
    may be missing ([undefined]). *)
Record Criteria : Type := mkCriteria {
  center : option Location;
  radius : option float
}.

Inductive EventType : Type := ready | key_entered | key_exited | key_moved.

(** A client callback is known by its identity only. *)
Definition Callback : Type := nat.

(** [_callbacks]: one list per event type, in registration order. *)
Record Callbacks : Type := mkCallbacks {
  cb_ready : list Callback;
  cb_key_entered : list Callback;
  cb_key_exited : list Callback;
  cb_key_moved : list Callback
}.

Definition no_callbacks : Callbacks := mkCallbacks [] [] [] [].

Definition callbacks_of (t : EventType) (c : Callbacks) : list Callback :=
  match t with
  | ready => cb_ready c
  | key_entered => cb_key_entered c
  | key_exited => cb_key_exited c
  | key_moved => cb_key_moved c
  end.

Definition set_callbacks_of (t : EventType) (l : list Callback) (c : Callbacks) : Callbacks :=
  match t with
  | ready => mkCallbacks l (cb_key_entered c) (cb_key_exited c) (cb_key_moved c)
  | key_entered => mkCallbacks (cb_ready c) l (cb_key_exited c) (cb_key_moved c)
  | key_exited => mkCallbacks (cb_ready c) (cb_key_entered c) l (cb_key_moved c)
  | key_moved => mkCallbacks (cb_ready c) (cb_key_entered c) (cb_key_exited c) l
  end.

Definition EventType_eqb (a b : EventType) : bool :=
  match a, b with
  | ready, ready | key_entered, key_entered
  | key_exited, key_exited | key_moved, key_moved => true
  | _, _ => false
  end.

(** The event names [on] accepts. *)
Definition EventType_of_string (s : string) : option EventType :=
  if String.eqb s "ready" then Some ready
  else if String.eqb s "key_entered" then Some key_entered
  else if String.eqb s "key_exited" then Some key_exited
  else if String.eqb s "key_moved" then Some key_moved
  else None.

(** The three child events a range listener is attached for. *)
Inductive ChildEvent : Type := child_added | child_removed | child_changed.

(** What the engine does to its environment, in the order it does it.
    [Fire] and [FireReady] mark an entry into [_fireCallbacksForKey] and
    [_fireReadyEventCallbacks]; [Call] and [CallReady] are the invocations
    of client callbacks with their arguments ([None] is [null]). *)
Inductive Effect : Type :=
| Fire (t : EventType) (key : string) (loc : option Location) (dist : option float)
| FireReady
| Call (cb : Callback) (key : string) (loc : option Location) (dist : option float)
| CallReady (cb : Callback)
| FirebaseOn (startAt endAt : string) (ev : ChildEvent)
| FirebaseOff (startAt endAt : string) (ev : ChildEvent)
| FirebaseOnceValue (startAt endAt : string)
| FirebaseChildOnceValue (key : string)
| SetTimeout (handle : nat) (delay : N)
| ClearTimeout (handle : nat)
| SetInterval (handle : nat) (delay : N)
| ClearInterval (handle : nat).

(** The functions the engine takes from the rest of the library and from
    the JavaScript runtime.  [raw] is what [snapshot.val()] returns;
    [validateLocation] and [validateCriteria] answer [false] where the
    JavaScript functions throw; [StringToNumber] is the conversion the
    relational operators apply to a string compared with [null]. *)
Record Collaborators : Type := mkCollaborators {
  raw : Type;
  decodeGeofireObject : raw -> option Location;
  validateLocation : Location -> bool;
  validateCriteria : Criteria -> bool -> bool;
  distance : Location -> Location -> float;
  encodeGeohash : Location -> option nat -> string;
  g_GEOHASH_PRECISION : nat;
  geohashQueries : Location -> float -> list (string * string);
  StringToNumber : string -> float
}.

(** The private variables of one [GeoQuery] instance, and the counter the
    runtime draws timer handles from.  The object [_locations] is held as
    its own properties ([_locations]) and its prototype
    ([_locations_prototype]): [None] for [Object.prototype], the prototype
    of [{}], and [Some row] once [row] was assigned to
    [_locations["__proto__"]].  The keys of [_currentGeohashesQueried] are
    encoded ranges: they hold [":"], so none is an array index,
    ["__proto__"] or the name of a method of [Object.prototype], and its
    prototype never changes (its values are booleans). *)
Record State : Type := mkState {
  _callbacks : Callbacks;
  _valueEventFired : bool;
  _geohashesToQuery : list string;
  _numGeohashesToQueryProcessed : nat;
  _locations : JsObject.t LocationDict;
  _locations_prototype : option LocationDict;
  _currentGeohashesQueried : JsObject.t bool;
  _geohashCleanupScheduled : bool;
  _cleanUpCurrentGeohashesQueriedTimeout : option nat;
  _cleanUpCurrentGeohashesQueriedInterval : nat;
  _center : Location;
  _radius : float;
  next_timer_handle : nat
}.

Definition set_callbacks (v : Callbacks) (s : State) : State :=
  mkState v (_valueEventFired s) (_geohashesToQuery s) (_numGeohashesToQueryProcessed s)
    (_locations s) (_locations_prototype s) (_currentGeohashesQueried s)
    (_geohashCleanupScheduled s)
    (_cleanUpCurrentGeohashesQueriedTimeout s) (_cleanUpCurrentGeohashesQueriedInterval s)
    (_center s) (_radius s) (next_timer_handle s).

Definition set_valueEventFired (v : bool) (s : State) : State :=
  mkState (_callbacks s) v (_geohashesToQuery s) (_numGeohashesToQueryProcessed s)
    (_locations s) (_locations_prototype s) (_currentGeohashesQueried s)
    (_geohashCleanupScheduled s)
    (_cleanUpCurrentGeohashesQueriedTimeout s) (_cleanUpCurrentGeohashesQueriedInterval s)
    (_center s) (_radius s) (next_timer_handle s).

Definition set_geohashesToQuery (v : list string) (s : State) : State :=
  mkState (_callbacks s) (_valueEventFired s) v (_numGeohashesToQueryProcessed s)
    (_locations s) (_locations_prototype s) (_currentGeohashesQueried s)
    (_geohashCleanupScheduled s)
    (_cleanUpCurrentGeohashesQueriedTimeout s) (_cleanUpCurrentGeohashesQueriedInterval s)
    (_center s) (_radius s) (next_timer_handle s).

Definition set_numGeohashesToQueryProcessed (v : nat) (s : State) : State :=
  mkState (_callbacks s) (_valueEventFired s) (_geohashesToQuery s) v
    (_locations s) (_locations_prototype s) (_currentGeohashesQueried s)
    (_geohashCleanupScheduled s)
    (_cleanUpCurrentGeohashesQueriedTimeout s) (_cleanUpCurrentGeohashesQueriedInterval s)
    (_center s) (_radius s) (next_timer_handle s).

Definition set_locations (v : JsObject.t LocationDict) (s : State) : State :=
  mkState (_callbacks s) (_valueEventFired s) (_geohashesToQuery s)
    (_numGeohashesToQueryProcessed s) v (_locations_prototype s)
    (_currentGeohashesQueried s)
    (_geohashCleanupScheduled s) (_cleanUpCurrentGeohashesQueriedTimeout s)
    (_cleanUpCurrentGeohashesQueriedInterval s) (_center s) (_radius s) (next_timer_handle s).

Definition set_locations_prototype (v : option LocationDict) (s : State) : State :=
  mkState (_callbacks s) (_valueEventFired s) (_geohashesToQuery s)
    (_numGeohashesToQueryProcessed s) (_locations s) v (_currentGeohashesQueried s)
    (_geohashCleanupScheduled s) (_cleanUpCurrentGeohashesQueriedTimeout s)
    (_cleanUpCurrentGeohashesQueriedInterval s) (_center s) (_radius s) (next_timer_handle s).

Definition set_currentGeohashesQueried (v : JsObject.t bool) (s : State) : State :=
  mkState (_callbacks s) (_valueEventFired s) (_geohashesToQuery s)
    (_numGeohashesToQueryProcessed s) (_locations s) (_locations_prototype s) v
    (_geohashCleanupScheduled s) (_cleanUpCurrentGeohashesQueriedTimeout s)
    (_cleanUpCurrentGeohashesQueriedInterval s) (_center s) (_radius s) (next_timer_handle s).

Definition set_geohashCleanupScheduled (v : bool) (s : State) : State :=
  mkState (_callbacks s) (_valueEventFired s) (_geohashesToQuery s)
    (_numGeohashesToQueryProcessed s) (_locations s) (_locations_prototype s)
    (_currentGeohashesQueried s)
    v (_cleanUpCurrentGeohashesQueriedTimeout s)
    (_cleanUpCurrentGeohashesQueriedInterval s) (_center s) (_radius s) (next_timer_handle s).

Definition set_cleanUpTimeout (v : option nat) (s : State) : State :=
  mkState (_callbacks s) (_valueEventFired s) (_geohashesToQuery s)
    (_numGeohashesToQueryProcessed s) (_locations s) (_locations_prototype s)
    (_currentGeohashesQueried s)
    (_geohashCleanupScheduled s) v
    (_cleanUpCurrentGeohashesQueriedInterval s) (_center s) (_radius s) (next_timer_handle s).

Definition set_cleanUpInterval (v : nat) (s : State) : State :=
  mkState (_callbacks s) (_valueEventFired s) (_geohashesToQuery s)
    (_numGeohashesToQueryProcessed s) (_locations s) (_locations_prototype s)
    (_currentGeohashesQueried s)
    (_geohashCleanupScheduled s) (_cleanUpCurrentGeohashesQueriedTimeout s)
    v (_center s) (_radius s) (next_timer_handle s).

Definition set_center_radius (c : Location) (r : float) (s : State) : State :=
  mkState (_callbacks s) (_valueEventFired s) (_geohashesToQuery s)
    (_numGeohashesToQueryProcessed s) (_locations s) (_locations_prototype s)
    (_currentGeohashesQueried s)
    (_geohashCleanupScheduled s) (_cleanUpCurrentGeohashesQueriedTimeout s)
    (_cleanUpCurrentGeohashesQueriedInterval s) c r (next_timer_handle s).

Definition set_next_timer_handle (v : nat) (s : State) : State :=
  mkState (_callbacks s) (_valueEventFired s) (_geohashesToQuery s)
    (_numGeohashesToQueryProcessed s) (_locations s) (_locations_prototype s)
    (_currentGeohashesQueried s)
    (_geohashCleanupScheduled s) (_cleanUpCurrentGeohashesQueriedTimeout s)
    (_cleanUpCurrentGeohashesQueriedInterval s) (_center s) (_radius s) v.

(** * The monad: state, exceptions, and the effects performed *)

Inductive Completion (A : Type) : Type :=
| Normal (a : A)
| Throw (message : string).

Arguments Throw {A} message.

Definition M (A : Type) : Type := State -> Completion A * State * list Effect.

Definition ret (A : Type) (a : A) : M A := fun s => (Normal a, s, []).

Definition bind (A B : Type) (m : M A) (k : A -> M B) : M B :=
  fun s =>
    match m s with
    | (Normal a, s1, o1) =>
        match k a s1 with (r, s2, o2) => (r, s2, o1 ++ o2) end
    | (Throw e, s1, o1) => (Throw e, s1, o1)
    end.

Definition throw (A : Type) (message : string) : M A := fun s => (Throw message, s, []).
Arguments throw {A} message.
Definition gets (A : Type) (f : State -> A) : M A := fun s => (Normal (f s), s, []).
Definition modify (f : State -> State) : M unit := fun s => (Normal tt, f s, []).
Definition perform (e : Effect) : M unit := fun s => (Normal tt, s, [e]).

Declare Scope js_scope.
Delimit Scope js_scope with js.
Notation "x <- m ;; k" := (bind m (fun x => k))
  (at level 61, m at next level, right associativity) : js_scope.
Notation "m ;; k" := (bind m (fun _ => k))
  (at level 61, right associativity) : js_scope.
Local Open Scope js_scope.

(** [l.forEach(body)], and [for (k in o)] over the keys enumerated. *)
Fixpoint for_each (A : Type) (l : list A) (body : A -> M unit) : M unit :=
  match l with
  | [] => ret tt
  | x :: l' => body x ;; for_each l' body
  end.

Definition state_of (A : Type) (r : Completion A * State * list Effect) : State := snd (fst r).
Definition effects_of (A : Type) (r : Completion A * State * list Effect) : list Effect := snd r.
Definition completion_of (A : Type) (r : Completion A * State * list Effect) : Completion A :=
  fst (fst r).

(** * Specifications of computations *)

(** ** Invariants over the state and the history of effects

    [keeps J m]: when [J] holds of a state and of the effects performed so
    far, it holds again after [m], whether [m] returns or throws. *)
Definition keeps (J : State -> list Effect -> Prop) (A : Type) (m : M A) : Prop :=
  forall s h, J s h -> J (state_of (m s)) (h ++ effects_of (m s)).

(** ** Invariants of the state alone *)

Definition stable (I : State -> Prop) (A : Type) (m : M A) : Prop :=
  keeps (fun s _ => I s) m.

(** ** Weakest preconditions

    [wp m Q E s h]: run from state [s] after the effects [h], [m] either
    returns [a] in a state and with a history that satisfy [Q a], or throws
    in a state and with a history that satisfy [E]. *)
Definition wp (A : Type) (m : M A) (Q : A -> State -> list Effect -> Prop)
    (E : State -> list Effect -> Prop) (s : State) (h : list Effect) : Prop :=
  match m s with
  | (Normal a, s', o) => Q a s' (h ++ o)
  | (Throw _, s', o) => E s' (h ++ o)
  end.

(** * The engine *)

Section Engine.

Variable X : Collaborators.

(** A Firebase data snapshot: [snapshot.name()] and [snapshot.val()]. *)
Record DataSnapshot : Type := mkDataSnapshot {
  name : string;
  val : raw X
}.

(** ** Relational operators on a geohash that may be [null]

    Two strings are compared by code units.  [null] against a string is a
    numeric comparison of [+0] with the string converted to a number
    (false as soon as that number is [NaN]). *)
Definition js_ge (g : option string) (bound : string) : bool :=
  match g with
  | Some g' => String.leb bound g'
  | None => PrimFloat.leb (StringToNumber X bound) PrimFloat.zero
  end.

Definition js_le (g : option string) (bound : string) : bool :=
  match g with
  | Some g' => String.leb g' bound
  | None => PrimFloat.leb PrimFloat.zero (StringToNumber X bound)
  end.

(** A number used as a condition: [0], [-0] and [NaN] are falsy. *)
Definition js_truthy (x : float) : bool :=
  negb (PrimFloat.is_zero x || PrimFloat.is_nan x).

(** ** The object [_locations]

    [_locations.hasOwnProperty(key)].  The method is looked up on the
    object itself: a row stored under ["hasOwnProperty"] is found in its
    place, and calling a row throws.  (A prototype set through
    ["__proto__"] is a row; it has no property of that name, and the
    lookup goes on to [Object.prototype].)  When the method is the one of
    [Object.prototype], it says whether [key] is an own property. *)
Definition type_error : string :=
  "TypeError: _locations.hasOwnProperty is not a function".

Definition _locations_hasOwnProperty (key : string) : M bool :=
  shadowed <- gets (fun s => JsObject.hasOwnProperty "hasOwnProperty" (_locations s)) ;;
  if shadowed then throw type_error
  else gets (fun s => JsObject.hasOwnProperty key (_locations s)).

(** [_locations[key] = row].  For the key ["__proto__"], when the object
    has no own property of that name (and assignments create none), the
    setter of [Object.prototype] runs: the row becomes the prototype of
    [_locations] and no property is stored. *)
Definition _locations_assign (key : string) (row : LocationDict) : M unit :=
  own <- gets (fun s => JsObject.hasOwnProperty key (_locations s)) ;;
  if String.eqb key "__proto__" && negb own
  then modify (set_locations_prototype (Some row))
  else modify (fun s => set_locations (JsObject.set key row (_locations s)) s).

(** [_locations[key]], where the engine reads it without asking
    [hasOwnProperty] first and looks at [isInQuery] if the value is truthy:
    an own row, or the prototype for ["__proto__"].  What else the lookup
    can find is a field of a prototype row or a method of
    [Object.prototype], which has no [isInQuery]; it reads here as
    [undefined] does. *)
Definition _locations_get (key : string) (s : State) : option LocationDict :=
  match JsObject.get key (_locations s) with
  | Some locationDict => Some locationDict
  | None => if String.eqb key "__proto__" then _locations_prototype s else None
  end.

(** The keys [for (key in _locations)] enumerates: the own properties,
    then the enumerable properties of the prototype that no own property
    hides.  The properties of [Object.prototype] are not enumerable; those
    of a row are its four fields. *)
Definition inherited_keys (s : State) : list string :=
  match _locations_prototype s with
  | Some _ =>
      filter (fun k => negb (JsObject.hasOwnProperty k (_locations s)))
             ["location"; "distanceFromCenter"; "isInQuery"; "geohash"]
  | None => []
  end.

Definition enumerable_keys (s : State) : list string :=
  JsObject.keys (_locations s) ++ inherited_keys s.

(** [if (_locations.hasOwnProperty(key)) { ... _locations[key] ... }], the
    body of the three loops over [_locations].  Where the guard answers
    [true] the row is there. *)
Definition with_own_row (key : string) (body : LocationDict -> M unit) : M unit :=
  tracked <- _locations_hasOwnProperty key ;;
  if tracked then
    entry <- gets (fun s => JsObject.get key (_locations s)) ;;
    match entry with
    | Some locationDict => body locationDict
    | None => throw "TypeError: cannot read a property of undefined"
    end
  else ret tt.

(** ** Private methods *)

Definition _fireCallbacksForKey (eventType : EventType) (key : string)
    (loc : option Location) (dist : option float) : M unit :=
  perform (Fire eventType key loc dist) ;;
  callbacks <- gets (fun s => callbacks_of eventType (_callbacks s)) ;;
  for_each callbacks (fun callback =>
    match loc with
    | None => perform (Call callback key None None)
    | Some l => perform (Call callback key (Some l) dist)
    end).

Definition _fireReadyEventCallbacks : M unit :=
  perform FireReady ;;
  callbacks <- gets (fun s => cb_ready (_callbacks s)) ;;
  for_each callbacks (fun callback => perform (CallReady callback)).

Definition _stringToQuery (str : string) : M (string * string) :=
  match split ":" str with
  | [a; b] => ret (a, b)
  | _ => throw ("Invalid internal state! Not a valid geohash query: " ++ str)%string
  end.

(** The argument is a pair here, so the length check of the source cannot
    fail. *)
Definition _queryToString (query : string * string) : string :=
  (fst query ++ ":" ++ snd query)%string.

Definition _geoQueryOff (query : string * string) : M unit :=
  perform (FirebaseOff (fst query) (snd query) child_added) ;;
  perform (FirebaseOff (fst query) (snd query) child_removed) ;;
  perform (FirebaseOff (fst query) (snd query) child_changed).

(** The loop of [_geohashInSomeQuery] over the keys still to visit. *)
Fixpoint geohash_in_queries (g : option string) (queryStrs : list string) : M bool :=
  match queryStrs with
  | [] => ret false
  | queryStr :: rest =>
      query <- _stringToQuery queryStr ;;
      if js_ge g (fst query) && js_le g (snd query) then ret true
      else geohash_in_queries g rest
  end.

Definition _geohashInSomeQuery (g : option string) : M bool :=
  queryStrs <- gets (fun s => JsObject.keys (_currentGeohashesQueried s)) ;;
  geohash_in_queries g queryStrs.

Definition clearTimeout (handle : nat) : M unit := perform (ClearTimeout handle).

Definition setTimeout (delay : N) : M nat :=
  handle <- gets next_timer_handle ;;
  modify (set_next_timer_handle (S handle)) ;;
  perform (SetTimeout handle delay) ;;
  ret handle.

Definition _cleanUpCurrentGeohashesQueried : M unit :=
  queryStrs <- gets (fun s => JsObject.keys (_currentGeohashesQueried s)) ;;
  for_each queryStrs (fun geohashQueryStr =>
    flag <- gets (fun s => JsObject.get geohashQueryStr (_currentGeohashesQueried s)) ;;
    match flag with
    | Some false =>
        query <- _stringToQuery geohashQueryStr ;;
        _geoQueryOff query ;;
        modify (fun s => set_currentGeohashesQueried
                           (JsObject.delete geohashQueryStr (_currentGeohashesQueried s)) s)
    | _ => ret tt
    end) ;;
  keys <- gets enumerable_keys ;;
  for_each keys (fun key =>
    with_own_row key (fun locationDict =>
      covered <- _geohashInSomeQuery (Some (geohash locationDict)) ;;
      if covered then ret tt
      else modify (fun s => set_locations (JsObject.delete key (_locations s)) s))) ;;
  modify (set_geohashCleanupScheduled false) ;;
  timeout <- gets _cleanUpCurrentGeohashesQueriedTimeout ;;
  match timeout with
  | Some handle => clearTimeout handle ;; modify (set_cleanUpTimeout None)
  | None => ret tt
  end.

Definition _updateLocation (key : string) (loc : Location) : M unit :=
  if validateLocation X loc then
    tracked <- _locations_hasOwnProperty key ;;
    entry <- gets (fun s => JsObject.get key (_locations s)) ;;
    let wasInQuery :=
      if tracked then match entry with Some d => isInQuery d | None => false end
      else false in
    tracked' <- _locations_hasOwnProperty key ;;
    let oldLocation :=
      if tracked' then match entry with Some d => Some (location d) | None => None end
      else None in
    c <- gets _center ;;
    r <- gets _radius ;;
    let distanceFromCenter := distance X loc c in
    let isInQuery := PrimFloat.leb distanceFromCenter r in
    _locations_assign key
      (mkLocationDict loc distanceFromCenter isInQuery
         (encodeGeohash X loc (Some (g_GEOHASH_PRECISION X)))) ;;
    if isInQuery && negb wasInQuery then
      _fireCallbacksForKey key_entered key (Some loc) (Some distanceFromCenter)
    else if isInQuery &&
            match oldLocation with
            | Some old => negb (PrimFloat.eqb (fst loc) (fst old))
                          || negb (PrimFloat.eqb (snd loc) (snd old))
            | None => false
            end
    then _fireCallbacksForKey key_moved key (Some loc) (Some distanceFromCenter)
    else if negb isInQuery && wasInQuery then
      _fireCallbacksForKey key_exited key (Some loc) (Some distanceFromCenter)
    else ret tt
  else throw "validateLocation".

Definition _childAddedCallback (locationDataSnapshot : DataSnapshot) : M unit :=
  match decodeGeofireObject X (val locationDataSnapshot) with
  | Some loc => _updateLocation (name locationDataSnapshot) loc
  | None => ret tt
  end.

Definition _childChangedCallback (locationDataSnapshot : DataSnapshot) : M unit :=
  match decodeGeofireObject X (val locationDataSnapshot) with
  | Some loc => _updateLocation (name locationDataSnapshot) loc
  | None => ret tt
  end.

(** The function [_childRemovedCallback] hands to [once("value", ...)]: it
    runs when the point read of [key] completes, with the snapshot read. *)
Definition _childRemovedCallback_value (key : string) (snapshot : DataSnapshot) : M unit :=
  let loc := decodeGeofireObject X (val snapshot) in
  let geohash := match loc with
                 | Some l => Some (encodeGeohash X l None)
                 | None => None
                 end in
  covered <- _geohashInSomeQuery geohash ;;
  if covered then ret tt
  else
    locationDict <- gets (_locations_get key) ;;
    modify (fun s => set_locations (JsObject.delete key (_locations s)) s) ;;
    match locationDict with
    | Some d =>
        if isInQuery d then
          c <- gets _center ;;
          let distanceFromCenter :=
            match loc with Some l => Some (distance X l c) | None => None end in
          _fireCallbacksForKey key_exited key loc distanceFromCenter
        else ret tt
    | None => ret tt
    end.

Definition _childRemovedCallback (locationDataSnapshot : DataSnapshot) : M unit :=
  let key := name locationDataSnapshot in
  tracked <- _locations_hasOwnProperty key ;;
  if tracked then perform (FirebaseChildOnceValue key) else ret tt.

Definition _checkIfShouldFireReadyEvent : M unit :=
  modify (fun s => set_numGeohashesToQueryProcessed (S (_numGeohashesToQueryProcessed s)) s) ;;
  modify (fun s => set_valueEventFired
                     (Nat.eqb (_numGeohashesToQueryProcessed s)
                              (List.length (_geohashesToQuery s))) s) ;;
  fired <- gets _valueEventFired ;;
  if fired then _fireReadyEventCallbacks else ret tt.

Definition _listenForNewGeohashes : M unit :=
  modify (fun s => set_geohashesToQuery
    (map _queryToString
       (geohashQueries X (_center s) (PrimFloat.mul (_radius s) 1000%float))) s) ;;
  modify (fun s => set_geohashesToQuery (filter_first_occurrences (_geohashesToQuery s)) s) ;;
  queryStrs <- gets (fun s => JsObject.keys (_currentGeohashesQueried s)) ;;
  for_each queryStrs (fun geohashQueryStr =>
    index <- gets (fun s => indexOf geohashQueryStr (_geohashesToQuery s)) ;;
    match index with
    | None =>
        modify (fun s => set_currentGeohashesQueried
                 (JsObject.set geohashQueryStr false (_currentGeohashesQueried s)) s)
    | Some i =>
        modify (fun s => set_currentGeohashesQueried
                 (JsObject.set geohashQueryStr true (_currentGeohashesQueried s)) s) ;;
        modify (fun s => set_geohashesToQuery (splice1 i (_geohashesToQuery s)) s)
    end) ;;
  scheduled <- gets _geohashCleanupScheduled ;;
  count <- gets (fun s => List.length (JsObject.keys (_currentGeohashesQueried s))) ;;
  (if negb scheduled && Nat.ltb 25 count then
     modify (set_geohashCleanupScheduled true) ;;
     handle <- setTimeout 10%N ;;
     modify (set_cleanUpTimeout (Some handle))
   else ret tt) ;;
  modify (set_numGeohashesToQueryProcessed 0) ;;
  toQuery <- gets _geohashesToQuery ;;
  for_each toQuery (fun toQueryStr =>
    query <- _stringToQuery toQueryStr ;;
    modify (fun s => set_currentGeohashesQueried
             (JsObject.set toQueryStr true (_currentGeohashesQueried s)) s) ;;
    perform (FirebaseOn (fst query) (snd query) child_added) ;;
    perform (FirebaseOn (fst query) (snd query) child_removed) ;;
    perform (FirebaseOn (fst query) (snd query) child_changed) ;;
    perform (FirebaseOnceValue (fst query) (snd query))).

(** ** Public methods *)

(** [this.center()] and [this.radius()]; the record of the criteria has
    the names [center] and [radius]. *)
Definition this_center : M Location := gets _center.

Definition this_radius : M float := gets _radius.

Definition updateCriteria (newQueryCriteria : Criteria) : M unit :=
  if validateCriteria X newQueryCriteria false then
    modify (fun s => set_center_radius
      (match center newQueryCriteria with Some c => c | None => _center s end)
      (match radius newQueryCriteria with
       | Some r => if js_truthy r then r else _radius s
       | None => _radius s
       end) s) ;;
    keys <- gets enumerable_keys ;;
    for_each keys (fun key =>
      with_own_row key (fun locationDict =>
        let wasAlreadyInQuery := isInQuery locationDict in
        c <- gets _center ;;
        r <- gets _radius ;;
        let d := distance X (location locationDict) c in
        let nowInQuery := PrimFloat.leb d r in
        modify (fun s => set_locations
          (JsObject.set key
             (mkLocationDict (location locationDict) d nowInQuery (geohash locationDict))
             (_locations s)) s) ;;
        if wasAlreadyInQuery && negb nowInQuery then
          _fireCallbacksForKey key_exited key (Some (location locationDict)) (Some d)
        else if negb wasAlreadyInQuery && nowInQuery then
          _fireCallbacksForKey key_entered key (Some (location locationDict)) (Some d)
        else ret tt)) ;;
    modify (set_valueEventFired false) ;;
    _listenForNewGeohashes
  else throw "validateCriteria".

(** [on(eventType, callback)].  A callback is a function by its type, so
    only the event name is checked. *)
Definition on (eventType : string) (callback : Callback) : M unit :=
  match EventType_of_string eventType with
  | None =>
      throw "event type must be ready, key_entered, key_exited, or key_moved"
  | Some t =>
      modify (fun s => set_callbacks
        (set_callbacks_of t (callbacks_of t (_callbacks s) ++ [callback]) (_callbacks s)) s) ;;
      (match t with
       | key_entered =>
           keys <- gets enumerable_keys ;;
           for_each keys (fun key =>
             with_own_row key (fun locationDict =>
               if isInQuery locationDict then
                 perform (Call callback key (Some (location locationDict))
                            (Some (distanceFromCenter locationDict)))
               else ret tt))
       | _ => ret tt
       end) ;;
      (match t with
       | ready =>
           fired <- gets _valueEventFired ;;
           if fired then perform (CallReady callback) else ret tt
       | _ => ret tt
       end)
  end.

(** The function [on] wraps in the [GeoCallbackRegistration] it returns:
    [_callbacks[eventType].splice(_callbacks[eventType].indexOf(callback), 1)].
    When the callback is no longer in the list the index is [-1], and
    [splice(-1, 1)] removes the last element. *)
Definition registration_cancel (t : EventType) (callback : Callback) : M unit :=
  modify (fun s =>
    let l := callbacks_of t (_callbacks s) in
    set_callbacks
      (set_callbacks_of t
         (match index_of Nat.eqb callback l with
          | Some i => splice1 i l
          | None => removelast l
          end) (_callbacks s)) s).

Definition cancel : M unit :=
  modify (set_callbacks no_callbacks) ;;
  queryStrs <- gets (fun s => JsObject.keys (_currentGeohashesQueried s)) ;;
  for_each queryStrs (fun geohashQueryStr =>
    present <- gets (fun s => JsObject.hasOwnProperty geohashQueryStr
                                (_currentGeohashesQueried s)) ;;
    if present then
      query <- _stringToQuery geohashQueryStr ;;
      _geoQueryOff query ;;
      modify (fun s => set_currentGeohashesQueried
                         (JsObject.delete geohashQueryStr (_currentGeohashesQueried s)) s)
    else ret tt) ;;
  modify (fun s => set_locations_prototype None (set_locations JsObject.empty s)) ;;
  interval <- gets _cleanUpCurrentGeohashesQueriedInterval ;;
  perform (ClearInterval interval).

(** ** Constructor *)

(** The variables as the constructor declares them.  [_geohashesToQuery],
    [_numGeohashesToQueryProcessed], [_center] and [_radius] are assigned
    before they are first read; the values given here are never seen. *)
Definition declared : State :=
  mkState no_callbacks false [] 0 JsObject.empty None JsObject.empty false None 0
    (PrimFloat.zero, PrimFloat.zero) PrimFloat.zero 0.

(** The function given to [setInterval]. *)
Definition interval_callback : M unit :=
  scheduled <- gets _geohashCleanupScheduled ;;
  if scheduled then ret tt else _cleanUpCurrentGeohashesQueried.

(** The body of the constructor.  [validateCriteria] is called with
    [requireCenterAndRadius] set, so it throws when a field is missing. *)
Definition constructor (queryCriteria : Criteria) : M unit :=
  handle <- gets next_timer_handle ;;
  modify (set_next_timer_handle (S handle)) ;;
  perform (SetInterval handle 10000%N) ;;
  modify (set_cleanUpInterval handle) ;;
  if validateCriteria X queryCriteria true then
    match center queryCriteria, radius queryCriteria with
    | Some c, Some r =>
        modify (set_center_radius c r) ;;
        _listenForNewGeohashes
    | _, _ => throw "validateCriteria"
    end
  else throw "validateCriteria".

(** [new GeoQuery(firebaseRef, queryCriteria)]: the instance and what its
    construction did, when the constructor returns. *)
Definition GeoQuery (queryCriteria : Criteria) : option (State * list Effect) :=
  match constructor queryCriteria declared with
  | (Normal _, s, o) => Some (s, o)
  | (Throw _, _, _) => None
  end.

(** ** The engine as a reactive system

    What can happen to an instance: Firebase delivers a child event or the
    value of a range or of a point read, a timer elapses, or the client
    calls a public method. *)
Inductive Input : Type :=
| firebase_child_added (snapshot : DataSnapshot)
| firebase_child_changed (snapshot : DataSnapshot)
| firebase_child_removed (snapshot : DataSnapshot)
| firebase_child_value (key : string) (snapshot : DataSnapshot)
| firebase_query_value
| timeout_elapsed
| interval_elapsed
| call_updateCriteria (newQueryCriteria : Criteria)
| call_on (eventType : string) (callback : Callback)
| call_registration_cancel (t : EventType) (callback : Callback)
| call_cancel.

Definition handle (i : Input) : M unit :=
  match i with
  | firebase_child_added snapshot => _childAddedCallback snapshot
  | firebase_child_changed snapshot => _childChangedCallback snapshot
  | firebase_child_removed snapshot => _childRemovedCallback snapshot
  | firebase_child_value key snapshot => _childRemovedCallback_value key snapshot
  | firebase_query_value => _checkIfShouldFireReadyEvent
  | timeout_elapsed => _cleanUpCurrentGeohashesQueried
  | interval_elapsed => interval_callback
  | call_updateCriteria c => updateCriteria c
  | call_on eventType callback => on eventType callback
  | call_registration_cancel t callback => registration_cancel t callback
  | call_cancel => cancel
  end.

(** One input after the other.  An exception ends the handler that threw
    it, not the instance: the next input finds the state as it was left. *)
Fixpoint run (inputs : list Input) (s : State) : State * list Effect :=
  match inputs with
  | [] => (s, [])
  | i :: rest =>
      let r := handle i s in
      let r' := run rest (state_of r) in
      (fst r', effects_of r ++ snd r')
  end.

End Engine.

Arguments call_on {X} eventType callback.
Arguments call_registration_cancel {X} t callback.
Arguments call_updateCriteria {X} newQueryCriteria.
Arguments call_cancel {X}.
Arguments firebase_query_value {X}.
Arguments timeout_elapsed {X}.
Arguments interval_elapsed {X}.


(** * Vocabulary of the properties *)

(** A registry key [_stringToQuery] decodes without throwing. *)
Definition well_formed_query_string (queryStr : string) : Prop :=
  exists a b, split ":" queryStr = [a; b].

(** Every key of the registry decodes. *)
Definition registry_well_formed (s : State) : Prop :=
  Forall well_formed_query_string (JsObject.keys (_currentGeohashesQueried s)).

(** What the cleanup pass leaves of the registry of [s]: the ranges
    flagged [true], and nothing else. *)
Definition registry_swept (s s' : State) : Prop :=
  registry_well_formed s' /\
  forall q, JsObject.get q (_currentGeohashesQueried s') =
    match JsObject.get q (_currentGeohashesQueried s) with
    | Some true => Some true
    | _ => None
    end.

(** Every stored entry has [isInQuery] equal to
    [distanceFromCenter <= _radius]. *)
Definition locations_consistent (s : State) : Prop :=
  forall key d, JsObject.get key (_locations s) = Some d ->
    isInQuery d = PrimFloat.leb (distanceFromCenter d) (_radius s).

(** Every stored entry holds the distance of its location from the current
    center, and [isInQuery] says whether that distance is within the
    current radius. *)
Definition locations_current (X : Collaborators) (s : State) : Prop :=
  forall key d, JsObject.get key (_locations s) = Some d ->
    distanceFromCenter d = distance X (location d) (_center s) /\
    isInQuery d = PrimFloat.leb (distanceFromCenter d) (_radius s).

(** The rows of the location table are listed as [for ... in] enumerates
    them. *)
Definition for_in_order (s : State) : Prop :=
  StronglySorted enumerated_before (JsObject.keys (_locations s)).

(** No row is stored under ["hasOwnProperty"]: the method the engine calls
    on [_locations] is the one of [Object.prototype]. *)
Definition guard_intact (s : State) : Prop :=
  JsObject.hasOwnProperty "hasOwnProperty" (_locations s) = false.

(** What holds of every state an instance goes through as long as no child
    named ["hasOwnProperty"] is delivered: no key occurs twice in a
    dictionary, every registry key decodes, the entries of the location
    table are current, and none of them is stored under
    ["hasOwnProperty"]. *)
Definition well_formed (X : Collaborators) (s : State) : Prop :=
  NoDup (JsObject.keys (_locations s)) /\
  NoDup (JsObject.keys (_currentGeohashesQueried s)) /\
  registry_well_formed s /\
  locations_current X s /\
  guard_intact s.

(** The input is a child of that name arriving, added or changed. *)
Definition delivers (X : Collaborators) (key : string) (i : Input X) : bool :=
  match i with
  | firebase_child_added snapshot | firebase_child_changed snapshot =>
      String.eqb (name snapshot) key
  | _ => false
  end.

(** The key is tracked and its entry is flagged in-query. *)
Definition in_query (key : string) (s : State) : bool :=
  match JsObject.get key (_locations s) with
  | Some d => isInQuery d
  | None => false
  end.

(** The event of type [t] firing for [key]. *)
Definition is_Fire (t : EventType) (key : string) (e : Effect) : bool :=
  match e with
  | Fire t' key' _ _ => EventType_eqb t' t && String.eqb key' key
  | _ => false
  end.

(** [callback] being invoked for [key]. *)
Definition is_Call (callback : Callback) (key : string) (e : Effect) : bool :=
  match e with
  | Call callback' key' _ _ => Nat.eqb callback' callback && String.eqb key' key
  | _ => false
  end.

(** How many times the event of type [t] fired for [key] among [h]. *)
Definition count_fired (t : EventType) (key : string) (h : list Effect) : nat :=
  List.length (filter (is_Fire t key) h).

(** How many times [callback] was invoked for [key] among [h]. *)
Definition count_calls (callback : Callback) (key : string) (h : list Effect) : nat :=
  List.length (filter (is_Call callback key) h).

(** An invocation of a client callback, of whatever event type. *)
Definition invokes_callback (e : Effect) : bool :=
  match e with
  | Call _ _ _ _ | CallReady _ => true
  | _ => false
  end.

(** The ready event firing, or a ready callback being invoked. *)
Definition signals_ready (e : Effect) : bool :=
  match e with
  | FireReady | CallReady _ => true
  | _ => false
  end.

(** [key_entered] fires twice for [key] with no [key_exited] for it in
    between. *)
Definition duplicate_enter (key : string) (h : list Effect) : Prop :=
  exists h1 h2 h3 l1 d1 l2 d2,
    h = h1 ++ Fire key_entered key l1 d1 :: h2 ++ Fire key_entered key l2 d2 :: h3
    /\ Forall (fun e => is_Fire key_exited key e = false) h2.

(** A call to [setTimeout]. *)
Definition schedules_timeout (e : Effect) : bool :=
  match e with
  | SetTimeout _ _ => true
  | _ => false
  end.

(** A range listener being attached. *)
Definition subscribes (e : Effect) : bool :=
  match e with
  | FirebaseOn _ _ _ | FirebaseOnceValue _ _ => true
  | _ => false
  end.

(** The call [on] makes to a new [key_entered] listener for one entry of
    the table. *)
Definition replay_call (callback : Callback) (kd : string * LocationDict) : Effect :=
  Call callback (fst kd) (Some (location (snd kd))) (Some (distanceFromCenter (snd kd))).

(** The client registering a listener. *)
Definition registers_listener (X : Collaborators) (i : Input X) : bool :=
  match i with
  | call_on _ _ => true
  | _ => false
  end.

(** [key_entered] or [key_exited] firing, for whatever key. *)
Definition is_transition (e : Effect) : bool :=
  match e with
  | Fire key_entered _ _ _ | Fire key_exited _ _ _ => true
  | _ => false
  end.

(** Inputs that drop entries of the location table without an event: the
    cleanup pass, run by either timer, and [cancel]. *)
Definition discards_entries (X : Collaborators) (i : Input X) : bool :=
  match i with
  | timeout_elapsed | interval_elapsed | call_cancel => true
  | _ => false
  end.

(** Reading a history for one key: [Some inside] when no [key_entered]
    fired for the key while it was inside, [inside] telling whether the
    last transition fired for it was an entry; [None] otherwise. *)
Fixpoint enter_exit (key : string) (inside : bool) (h : list Effect) : option bool :=
  match h with
  | [] => Some inside
  | e :: h' =>
      if is_Fire key_entered key e then
        if inside then None else enter_exit key true h'
      else if is_Fire key_exited key e then enter_exit key false h'
      else enter_exit key inside h'
  end.

(** An event firing or a client callback being invoked. *)
Definition client_visible (e : Effect) : bool :=
  match e with
  | Fire _ _ _ _ | FireReady | Call _ _ _ _ | CallReady _ => true
  | _ => false
  end.

(** The client changing the criteria. *)
Definition recomputes (X : Collaborators) (i : Input X) : bool :=
  match i with
  | call_updateCriteria _ => true
  | _ => false
  end.

(** No callback is registered, and none has been invoked so far. *)
Definition silent (s : State) (h : list Effect) : Prop :=
  _callbacks s = no_callbacks /\ Forall (fun e => invokes_callback e = false) h.

(** For every key but ["__proto__"], the history so far reads as
    alternating, and its last transition was an entry exactly when the key
    is now flagged in-query. *)
Definition alternating (s : State) (h : list Effect) : Prop :=
  forall key, key <> "__proto__" -> enter_exit key false h = Some (in_query key s).

(** What [updateCriteria] makes of one entry, for the new center and
    radius: the entry it stores and the effects it performs. *)
Definition reassessed (X : Collaborators) (c : Location) (r : float)
    (d : LocationDict) : LocationDict :=
  mkLocationDict (location d) (distance X (location d) c)
    (PrimFloat.leb (distance X (location d) c) r) (geohash d).

Definition reassessment_effects (X : Collaborators) (callbacks : Callbacks)
    (c : Location) (r : float) (kd : string * LocationDict) : list Effect :=
  let d := snd kd in
  let dist := distance X (location d) c in
  let now := PrimFloat.leb dist r in
  if isInQuery d && negb now then
    Fire key_exited (fst kd) (Some (location d)) (Some dist)
    :: map (fun cb => Call cb (fst kd) (Some (location d)) (Some dist))
           (cb_key_exited callbacks)
  else if negb (isInQuery d) && now then
    Fire key_entered (fst kd) (Some (location d)) (Some dist)
    :: map (fun cb => Call cb (fst kd) (Some (location d)) (Some dist))
           (cb_key_entered callbacks)
  else [].

(** The effect is an event firing for [key] or a callback invoked for it. *)
Definition about (key : string) (e : Effect) : bool :=
  match e with
  | Fire _ key' _ _ | Call _ key' _ _ => String.eqb key' key
  | _ => false
  end.

(** No new range is awaited, the ready state is not fired, and no ready
    signal has been given so far. *)
Definition awaits_nothing (s : State) (h : list Effect) : Prop :=
  _geohashesToQuery s = [] /\ _valueEventFired s = false /\
  Forall (fun e => signals_ready e = false) h.

(** The string holds no [":"]. *)
Fixpoint no_colon (s : string) : bool :=
  match s with
  | EmptyString => true
  | String c s' => negb (Ascii.eqb c ":") && no_colon s'
  end.

(** What the engine needs of the coverage computation: the bounds it
    returns hold no [":"], the separator of the registry keys; and the
    ranges computed for a circle hold the geohash of every location within
    the radius of the center. *)
Definition coverage_contract (X : Collaborators) : Prop :=
  (forall c r lo hi, In (lo, hi) (geohashQueries X c r) ->
     no_colon lo = true /\ no_colon hi = true) /\
  (forall c r loc, PrimFloat.leb (distance X loc c) r = true ->
     exists lo hi,
       In (lo, hi) (geohashQueries X c (PrimFloat.mul r 1000%float)) /\
       String.leb lo (encodeGeohash X loc (Some (g_GEOHASH_PRECISION X))) = true /\
       String.leb (encodeGeohash X loc (Some (g_GEOHASH_PRECISION X))) hi = true).

(** Every entry stores the geohash of its location, and every range of the
    coverage of the current criteria is registered and flagged [true]. *)
Definition covering (X : Collaborators) (s : State) : Prop :=
  (forall key d, JsObject.get key (_locations s) = Some d ->
     geohash d = encodeGeohash X (location d) (Some (g_GEOHASH_PRECISION X))) /\
  (forall q, In q (geohashQueries X (_center s) (PrimFloat.mul (_radius s) 1000%float)) ->
     JsObject.get (_queryToString q) (_currentGeohashesQueried s) = Some true).

(** The client cancelling the query. *)
Definition cancels (X : Collaborators) (i : Input X) : bool :=
  match i with
  | call_cancel => true
  | _ => false
  end.

(** The geohash lies in a registered range flagged [true]. *)
Definition held_by_active_range (s : State) (g : string) : Prop :=
  exists q lo hi,
    JsObject.get q (_currentGeohashesQueried s) = Some true /\
    split ":" q = [lo; hi] /\ String.leb lo g = true /\ String.leb g hi = true.

(** How many [":"] the string holds. *)
Fixpoint colons (s : string) : nat :=
  match s with
  | EmptyString => 0
  | String c s' => (if Ascii.eqb c ":" then 1 else 0) + colons s'
  end.

(** A registered range holds the geohash: one of [queryStrs] decodes to
    bounds that enclose it. *)
Definition held_by_range (X : Collaborators) (queryStrs : list string)
    (g : option string) : Prop :=
  exists q lo hi,
    In q queryStrs /\ split ":" q = [lo; hi] /\
    js_ge X g lo = true /\ js_le X g hi = true.

(** The test of [_updateLocation] for a move: a coordinate of the new
    location is not [===] to that of the old one. *)
Definition coordinates_differ (a b : Location) : bool :=
  negb (PrimFloat.eqb (fst a) (fst b)) || negb (PrimFloat.eqb (snd a) (snd b)).

(** What [_fireCallbacksForKey] does for an event with a location. *)
Definition fired (t : EventType) (key : string) (loc : Location) (dist : float)
    (callbacks : Callbacks) : list Effect :=
  Fire t key (Some loc) (Some dist)
  :: map (fun cb => Call cb key (Some loc) (Some dist)) (callbacks_of t callbacks).

(** What [_fireReadyEventCallbacks] does. *)
Definition ready_signal (callbacks : Callbacks) : list Effect :=
  FireReady :: map CallReady (cb_ready callbacks).

(** [callback] being invoked for the ready event. *)
Definition is_CallReady (callback : Callback) (e : Effect) : bool :=
  match e with
  | CallReady callback' => Nat.eqb callback' callback
  | _ => false
  end.

Definition count_ready_calls (callback : Callback) (h : list Effect) : nat :=
  List.length (filter (is_CallReady callback) h).

Definition ChildEvent_eqb (a b : ChildEvent) : bool :=
  match a, b with
  | child_added, child_added | child_removed, child_removed
  | child_changed, child_changed => true
  | _, _ => false
  end.

(** The listener of child event [ev] being attached to, or detached from,
    the range from [lo] to [hi]. *)
Definition is_on (lo hi : string) (ev : ChildEvent) (e : Effect) : bool :=
  match e with
  | FirebaseOn lo' hi' ev' => String.eqb lo' lo && String.eqb hi' hi && ChildEvent_eqb ev' ev
  | _ => false
  end.

Definition is_off (lo hi : string) (ev : ChildEvent) (e : Effect) : bool :=
  match e with
  | FirebaseOff lo' hi' ev' => String.eqb lo' lo && String.eqb hi' hi && ChildEvent_eqb ev' ev
  | _ => false
  end.

(** For every range and child event, the listener has been attached once
    more than it has been detached when the range is in the registry, and
    as often as it has been detached when it is not. *)
Definition listeners_balanced (s : State) (h : list Effect) : Prop :=
  forall lo hi ev,
    List.length (filter (is_on lo hi ev) h) =
    List.length (filter (is_off lo hi ev) h)
    + (if JsObject.hasOwnProperty (_queryToString (lo, hi)) (_currentGeohashesQueried s)
       then 1 else 0).

(** The invariant of the listeners: the registry decodes, and the
    listeners attached are those of the registered ranges. *)
Definition listeners_registered (s : State) (h : list Effect) : Prop :=
  registry_well_formed s /\ listeners_balanced s h.

(** The inputs whose handler validates an argument, or decodes the ranges
    of a new coverage, and may throw on it. *)
Definition checks_argument (X : Collaborators) (i : Input X) : bool :=
  match i with
  | firebase_child_added _ | firebase_child_changed _
  | call_updateCriteria _ | call_on _ _ => true
  | _ => false
  end.

Definition is_SetTimeout (e : Effect) : bool :=
  match e with
  | SetTimeout _ _ => true
  | _ => false
  end.

Definition is_ClearTimeout (e : Effect) : bool :=
  match e with
  | ClearTimeout _ => true
  | _ => false
  end.

(** A cleanup is scheduled exactly when a timeout handle is stored, and
    the timeouts set so far are the timeouts cleared so far, and one more
    when a cleanup is scheduled. *)
Definition timeout_pending (s : State) (h : list Effect) : Prop :=
  (_geohashCleanupScheduled s = true <->
   _cleanUpCurrentGeohashesQueriedTimeout s <> None) /\
  List.length (filter is_SetTimeout h) =
  List.length (filter is_ClearTimeout h)
  + (if _geohashCleanupScheduled s then 1 else 0).

(** * A small instance for examples

    Stand-ins for the collaborators, simple enough to evaluate by hand:
    the stored value is the location itself or [null]; every location is
    valid; criteria need a non-negative radius, and both fields when
    required; the distance is the taxicab distance in degrees times 111
    kilometres (so a point is at distance 0 from itself); the geohash of a
    location is the first character of its real geohash near the origin,
    one letter per quadrant; the coverage of a circle is the one range of
    the quadrant of its center; and no range bound but ["7"] converts to
    a number. *)
Definition demo_quadrant (l : Location) : string :=
  if PrimFloat.leb 0%float (fst l)
  then (if PrimFloat.leb 0%float (snd l) then "s" else "e")
  else (if PrimFloat.leb 0%float (snd l) then "k" else "7").

Definition demo_validateCriteria (c : Criteria) (requireCenterAndRadius : bool) : bool :=
  match center c, radius c with
  | None, None => false
  | Some _, Some r => PrimFloat.leb 0%float r
  | Some _, None => negb requireCenterAndRadius
  | None, Some r => negb requireCenterAndRadius && PrimFloat.leb 0%float r
  end.

Definition demo_distance (a b : Location) : float :=
  PrimFloat.mul 111%float
    (PrimFloat.add (PrimFloat.abs (PrimFloat.sub (fst a) (fst b)))
                   (PrimFloat.abs (PrimFloat.sub (snd a) (snd b)))).

Definition demo : Collaborators :=
  @mkCollaborators (option Location) (fun v => v) (fun _ => true)
    demo_validateCriteria demo_distance
    (fun l _ => demo_quadrant l)
    10
    (fun c _ => [(demo_quadrant c, (demo_quadrant c ++ "~")%string)])
    (fun s => if String.eqb s "7" then 7%float else PrimFloat.nan).

Definition demo_snapshot (key : string) (v : option Location) : DataSnapshot demo :=
  mkDataSnapshot demo key v.

Definition origin : Location := (0%float, 0%float).

(** A query of radius 1 km around the origin, just constructed. *)
Definition demo_query : State :=
  match GeoQuery demo (mkCriteria (Some origin) (Some 1%float)) with
  | Some (s, _) => s
  | None => declared
  end.

(** The same query with three listeners, after key ["a"] was added at the
    origin and key ["b"] two degrees east of it. *)
Definition demo_tracking : State :=
  fst (run [call_on "key_entered" 1; call_on "key_exited" 2; call_on "ready" 3;
            firebase_child_added (demo_snapshot "a" (Some origin));
            firebase_child_added (demo_snapshot "b" (Some (0%float, 2%float)))]
           demo_query).

(** The tracking query after its center moved to (-1, -1): the range of the
    old quadrant is still registered, flagged [false]. *)
Definition demo_moved : State :=
  fst (@run demo [call_updateCriteria
                    (mkCriteria (Some ((-1)%float, (-1)%float)) None)] demo_tracking).

(** The query after the children ["b"], ["10"] and ["9"] were added at the
    origin, in that order: [for ... in] enumerates ["9"], ["10"], ["b"]. *)
Definition demo_numbered : State :=
  fst (@run demo [firebase_child_added (demo_snapshot "b" (Some origin));
                  firebase_child_added (demo_snapshot "10" (Some origin));
                  firebase_child_added (demo_snapshot "9" (Some origin))]
         demo_query).

(** The tracking query after a child named ["hasOwnProperty"] was added at
    the origin: its row is now what [_locations.hasOwnProperty] finds. *)
Definition demo_shadowed : State :=
  fst (@run demo [firebase_child_added (demo_snapshot "hasOwnProperty" (Some origin))]
         demo_tracking).

(** The same instance with a coverage of nine ranges, all inside the
    quadrant of the center (the real coverage computation returns at most
    nine ranges).  It is used with centers in the quadrants ["s"], ["k"]
    and ["e"], whose range bounds do not convert to numbers. *)
Definition demo9_geohashQueries (c : Location) (radiusMeters : float)
    : list (string * string) :=
  map (fun d => ((demo_quadrant c ++ d)%string, (demo_quadrant c ++ d ++ "~")%string))
      ["0"; "1"; "2"; "3"; "4"; "5"; "6"; "7"; "8"].

Definition demo9 : Collaborators :=
  @mkCollaborators (option Location) (fun v => v) (fun _ => true)
    demo_validateCriteria demo_distance
    (fun l _ => demo_quadrant l)
    10
    demo9_geohashQueries
    (fun s => PrimFloat.nan).

(** A query constructed around the origin, then moved once to (-1, 1):
    eighteen ranges are registered and no cleanup is scheduled. *)
Definition demo9_moved_once : State :=
  match GeoQuery demo9 (mkCriteria (Some origin) (Some 1%float)) with
  | Some (s, _) =>
      fst (@run demo9 [call_updateCriteria
                         (mkCriteria (Some ((-1)%float, 1%float)) None)] s)
  | None => declared
  end.

(** A query of nine ranges around the origin, just constructed, after two
    ready listeners were registered and key ["a"] was added at the origin:
    nine range values are awaited. *)
Definition demo9_listening : State :=
  match GeoQuery demo9 (mkCriteria (Some origin) (Some 1%float)) with
  | Some (s, _) =>
      fst (@run demo9 [call_on "ready" 3; call_on "ready" 4;
                       firebase_child_added (mkDataSnapshot demo9 "a" (Some origin))] s)
  | None => declared
  end.

(** The tracking query after its radius grew to 500 km: both keys are in
    the query. *)
Definition demo_wide : State :=
  fst (@run demo [call_updateCriteria (mkCriteria None (Some 500%float))] demo_tracking).

(** The first instance with the coarsest coverage there is: one range that
    holds every geohash. *)
Definition demo_world : Collaborators :=
  @mkCollaborators (option Location) (fun v => v) (fun _ => true)
    demo_validateCriteria demo_distance
    (fun l _ => demo_quadrant l)
    10
    (fun _ _ => [("0", "~")])
    (fun s => if String.eqb s "0" then 0%float else PrimFloat.nan).

(** * Reasoning about the embedding *)

(** ** Dictionaries *)

Module JsObjectFacts.
Import JsObject.

Section Facts.
Variable V : Type.
Implicit Types (o : t V) (k : string) (v : V).

Lemma get_overwrite k k' v o :
  get k' (overwrite k v o) =
  if String.eqb k' k then option_map (fun _ => v) (get k o) else get k' o.
Proof.
  induction o as [|[k0 v0] o IH]; simpl.
  - now destruct (String.eqb k' k).
  - destruct (String.eqb_spec k0 k) as [->|Hne]; simpl.
    + destruct (String.eqb_spec k' k) as [->|Hne'].
      * now rewrite String.eqb_refl.
      * destruct (String.eqb_spec k k'); [congruence | reflexivity].
    + rewrite IH. destruct (String.eqb_spec k' k) as [->|Hne'].
      * destruct (String.eqb_spec k0 k); [congruence | reflexivity].
      * reflexivity.
Qed.

Lemma keys_overwrite k v o : keys (overwrite k v o) = keys o.
Proof.
  induction o as [|[k0 v0] o IH]; simpl; [reflexivity|].
  destruct (String.eqb k0 k); simpl; [reflexivity | now rewrite IH].
Qed.

Lemma get_insert k k' v o :
  get k o = None ->
  get k' (insert k v o) = if String.eqb k' k then Some v else get k' o.
Proof.
  induction o as [|[k0 v0] o IH]; simpl.
  - intros _. rewrite (String.eqb_sym k k'). reflexivity.
  - destruct (String.eqb_spec k0 k) as [->|Hne]; [discriminate|]. intros Hk.
    destruct (comes_before k k0); simpl.
    + rewrite (String.eqb_sym k k'). destruct (String.eqb_spec k' k) as [->|]; reflexivity.
    + rewrite (IH Hk). destruct (String.eqb_spec k' k) as [->|Hne'].
      * destruct (String.eqb_spec k0 k); [congruence | reflexivity].
      * reflexivity.
Qed.

Lemma keys_insert_In k k' v o : In k' (keys (insert k v o)) <-> k' = k \/ In k' (keys o).
Proof.
  induction o as [|[k0 v0] o IH]; simpl.
  - intuition.
  - destruct (comes_before k k0); simpl.
    + intuition.
    + rewrite IH. intuition.
Qed.

Lemma NoDup_keys_insert k v o :
  ~ In k (keys o) -> NoDup (keys o) -> NoDup (keys (insert k v o)).
Proof.
  induction o as [|[k0 v0] o IH]; simpl; intros Hk Hnd.
  - constructor; [intros [] | constructor].
  - inversion Hnd as [|? ? Hnin Hnd']; subst.
    destruct (comes_before k k0); simpl.
    + constructor; [exact Hk | exact Hnd].
    + constructor.
      * rewrite keys_insert_In. intuition.
      * apply IH; [intuition | exact Hnd'].
Qed.

Lemma get_set_same k v o : get k (set k v o) = Some v.
Proof.
  unfold set. destruct (get k o) eqn:E.
  - now rewrite get_overwrite, String.eqb_refl, E.
  - now rewrite get_insert, String.eqb_refl.
Qed.

Lemma get_set_other k k' v o : k' <> k -> get k' (set k v o) = get k' o.
Proof.
  intros Hne. apply String.eqb_neq in Hne. unfold set. destruct (get k o) eqn:E.
  - now rewrite get_overwrite, Hne.
  - now rewrite get_insert, Hne.
Qed.

Lemma get_delete_same k o : get k (delete k o) = None.
Proof.
  induction o as [|[k' v'] o IH]; simpl; auto.
  destruct (String.eqb k' k) eqn:E; simpl; try rewrite E; auto.
Qed.

Lemma get_delete_other k k' o : k' <> k -> get k' (delete k o) = get k' o.
Proof.
  intros Hne. induction o as [|[k0 v0] o IH]; simpl; auto.
  destruct (String.eqb_spec k0 k); simpl.
  - subst. destruct (String.eqb_spec k k'); congruence.
  - now rewrite IH.
Qed.

Lemma get_Some_In k v o : get k o = Some v -> In k (keys o).
Proof.
  induction o as [|[k' v'] o IH]; simpl; try discriminate.
  destruct (String.eqb_spec k' k); auto.
Qed.

Lemma get_None_not_In k o : get k o = None -> ~ In k (keys o).
Proof.
  induction o as [|[k' v'] o IH]; simpl; auto.
  destruct (String.eqb_spec k' k); try discriminate.
  intros H [E|HIn]; [congruence | now apply IH].
Qed.

Lemma In_keys_get k o : In k (keys o) -> exists v, get k o = Some v.
Proof.
  intros HIn. destruct (get k o) eqn:E; eauto.
  now apply get_None_not_In in E.
Qed.

Lemma keys_set_In k k' v o : In k' (keys (set k v o)) <-> k' = k \/ In k' (keys o).
Proof.
  unfold set. destruct (get k o) eqn:E.
  - rewrite keys_overwrite. apply get_Some_In in E. intuition congruence.
  - apply keys_insert_In.
Qed.

Lemma keys_set_own k v o : In k (keys o) -> keys (set k v o) = keys o.
Proof.
  intros HIn. apply In_keys_get in HIn. destruct HIn as [v0 E].
  unfold set. rewrite E. apply keys_overwrite.
Qed.

Lemma keys_delete_In k k' o : In k' (keys (delete k o)) <-> k' <> k /\ In k' (keys o).
Proof.
  induction o as [|[k0 v0] o IH]; simpl.
  - intuition.
  - destruct (String.eqb_spec k0 k); simpl.
    + subst. rewrite IH. intuition congruence.
    + rewrite IH. intuition congruence.
Qed.

Lemma NoDup_keys_set k v o : NoDup (keys o) -> NoDup (keys (set k v o)).
Proof.
  intros Hnd. unfold set. destruct (get k o) eqn:E.
  - now rewrite keys_overwrite.
  - apply NoDup_keys_insert; [now apply get_None_not_In | exact Hnd].
Qed.

Lemma NoDup_keys_delete k o : NoDup (keys o) -> NoDup (keys (delete k o)).
Proof.
  induction o as [|[k0 v0] o IH]; simpl; intros H; auto.
  inversion H as [|? ? Hnin Hnd]; subst.
  destruct (String.eqb_spec k0 k); simpl; auto.
  constructor; auto. rewrite keys_delete_In. intuition.
Qed.

Lemma get_cons k k0 v0 o :
  get k ((k0, v0) :: o) = if String.eqb k0 k then Some v0 else get k o.
Proof. reflexivity. Qed.

Lemma keys_cons k0 v0 o : keys ((k0, v0) :: o) = k0 :: keys o.
Proof. reflexivity. Qed.

Lemma get_nil k : get k ([] : t V) = None.
Proof. reflexivity. Qed.

(** Without duplicate keys every pair of the list is what [get] finds. *)
Lemma get_Some_In_entry k v o : get k o = Some v -> In (k, v) o.
Proof.
  induction o as [|[k0 v0] o IH]; simpl; [discriminate|].
  destruct (String.eqb_spec k0 k) as [->|Hne]; auto.
  intros E. injection E as ->. now left.
Qed.

Lemma get_In_NoDup k v o : NoDup (keys o) -> In (k, v) o -> get k o = Some v.
Proof.
  induction o as [|[k0 v0] o IH]; simpl; [tauto|].
  intros Hnd [E|HIn].
  - injection E as -> ->. now rewrite String.eqb_refl.
  - inversion Hnd as [|? ? Hnin Hnd']; subst.
    destruct (String.eqb_spec k0 k) as [->|Hne]; auto.
    exfalso. apply Hnin. change (In k (keys o)).
    unfold keys. apply in_map_iff. now exists (k, v).
Qed.

Lemma keys_app o o' : keys (o ++ o') = keys o ++ keys o'.
Proof. unfold keys. apply map_app. Qed.

Lemma get_app_skip k o o' : ~ In k (keys o) -> get k (o ++ o') = get k o'.
Proof.
  induction o as [|[k0 v0] o IH]; simpl; auto.
  intros Hnin. destruct (String.eqb_spec k0 k) as [->|Hne]; [tauto|].
  apply IH. tauto.
Qed.

Lemma overwrite_app_skip k v v0 o o' :
  ~ In k (keys o) -> overwrite k v (o ++ (k, v0) :: o') = o ++ (k, v) :: o'.
Proof.
  induction o as [|[k0 v1] o IH]; simpl; intros Hnin.
  - now rewrite String.eqb_refl.
  - destruct (String.eqb_spec k0 k) as [->|Hne]; [tauto|].
    f_equal. apply IH. tauto.
Qed.

(** An assignment to a key the object has leaves every property in its
    place. *)
Lemma set_app_skip k v v0 o o' :
  ~ In k (keys o) -> set k v (o ++ (k, v0) :: o') = o ++ (k, v) :: o'.
Proof.
  intros Hnin. unfold set.
  rewrite get_app_skip by exact Hnin. simpl. rewrite String.eqb_refl.
  now apply overwrite_app_skip.
Qed.

Lemma set_head k v v0 o : set k v ((k, v0) :: o) = (k, v) :: o.
Proof. apply (set_app_skip k v v0 [] o). intros []. Qed.

Lemma overwrite_insert k v o : get k o = None -> overwrite k v (insert k v o) = insert k v o.
Proof.
  induction o as [|[k0 v0] o IH]; simpl.
  - intros _. now rewrite String.eqb_refl.
  - destruct (String.eqb_spec k0 k) as [->|Hne]; [discriminate|]. intros Hk.
    destruct (comes_before k k0); simpl.
    + now rewrite String.eqb_refl.
    + destruct (String.eqb_spec k0 k); [congruence|]. now rewrite IH.
Qed.

Lemma overwrite_overwrite k v o : overwrite k v (overwrite k v o) = overwrite k v o.
Proof.
  induction o as [|[k0 v0] o IH]; simpl; [reflexivity|].
  destruct (String.eqb k0 k) eqn:E; simpl; rewrite E; [reflexivity | now rewrite IH].
Qed.

Lemma set_set_same k v o : set k v (set k v o) = set k v o.
Proof.
  unfold set at 1. rewrite get_set_same. unfold set. destruct (get k o) eqn:E.
  - apply overwrite_overwrite.
  - now apply overwrite_insert.
Qed.

Lemma hasOwnProperty_In k o : hasOwnProperty k o = true <-> In k (keys o).
Proof.
  unfold hasOwnProperty. split.
  - destruct (get k o) eqn:E; [intros _ | discriminate].
    eapply get_Some_In; eauto.
  - intros HIn. apply In_keys_get in HIn. destruct HIn as [v ->]. reflexivity.
Qed.

Lemma keys_nil o : keys o = [] -> o = [].
Proof. destruct o; [reflexivity | discriminate]. Qed.

Lemma hasOwnProperty_set k k' v o :
  hasOwnProperty k' (set k v o) = String.eqb k' k || hasOwnProperty k' o.
Proof.
  unfold hasOwnProperty. destruct (String.eqb_spec k' k) as [->|Hne].
  - now rewrite get_set_same.
  - now rewrite get_set_other.
Qed.

Lemma hasOwnProperty_delete k k' o :
  hasOwnProperty k' (delete k o) = negb (String.eqb k' k) && hasOwnProperty k' o.
Proof.
  unfold hasOwnProperty. destruct (String.eqb_spec k' k) as [->|Hne].
  - now rewrite get_delete_same.
  - now rewrite get_delete_other.
Qed.

Lemma hasOwnProperty_keys k o o' :
  keys o' = keys o -> hasOwnProperty k o' = hasOwnProperty k o.
Proof.
  intros Hkeys. destruct (hasOwnProperty k o) eqn:E.
  - apply hasOwnProperty_In. rewrite Hkeys. now apply hasOwnProperty_In.
  - destruct (hasOwnProperty k o') eqn:E'; [|reflexivity].
    apply hasOwnProperty_In in E'. rewrite Hkeys in E'.
    apply hasOwnProperty_In in E'. congruence.
Qed.

End Facts.

Lemma get_map_values (V W : Type) (f : V -> W) k (o : t V) :
  get k (map (fun kv => (fst kv, f (snd kv))) o) = option_map f (get k o).
Proof.
  induction o as [|[k0 v0] o IH]; simpl; auto.
  destruct (String.eqb k0 k); auto.
Qed.

End JsObjectFacts.

(** ** The order of enumeration *)

Section EnumerationFacts.

Lemma comes_before_enumerated k k' :
  comes_before k k' = true -> enumerated_before k k'.
Proof.
  unfold comes_before, enumerated_before.
  destruct (array_index k) as [n|]; [|discriminate].
  destruct (array_index k') as [n'|]; [|auto].
  intros H. apply N.ltb_lt in H. lia.
Qed.

Lemma not_comes_before_enumerated k k' :
  comes_before k k' = false -> enumerated_before k' k.
Proof.
  unfold comes_before, enumerated_before.
  destruct (array_index k) as [n|], (array_index k') as [n'|]; auto; try discriminate.
  intros H. apply N.ltb_ge in H. exact H.
Qed.

Lemma enumerated_before_trans k k' x :
  comes_before k k' = true -> enumerated_before k' x -> enumerated_before k x.
Proof.
  unfold comes_before, enumerated_before.
  destruct (array_index k) as [n|]; [|discriminate].
  destruct (array_index k') as [n'|], (array_index x) as [m|]; auto.
  - intros H H'. apply N.ltb_lt in H. lia.
  - intros _ [].
Qed.

Lemma sorted_insert (V : Type) k (v : V) (o : JsObject.t V) :
  StronglySorted enumerated_before (JsObject.keys o) ->
  StronglySorted enumerated_before (JsObject.keys (JsObject.insert k v o)).
Proof.
  induction o as [|[k0 v0] o IH]; intros Hs; cbn [JsObject.insert].
  - repeat constructor.
  - rewrite JsObjectFacts.keys_cons in Hs.
    inversion Hs as [|? ? Hs' Hall]; subst.
    destruct (comes_before k k0) eqn:Hk.
    + rewrite !JsObjectFacts.keys_cons. constructor.
      * constructor; assumption.
      * constructor; [now apply comes_before_enumerated|].
        eapply Forall_impl; [|exact Hall].
        intros x Hx. eapply enumerated_before_trans; eauto.
    + rewrite JsObjectFacts.keys_cons. constructor; [now apply IH|].
      rewrite Forall_forall. intros x Hx.
      apply JsObjectFacts.keys_insert_In in Hx. destruct Hx as [->|Hx].
      * now apply not_comes_before_enumerated.
      * rewrite Forall_forall in Hall. now apply Hall.
Qed.

Lemma sorted_set (V : Type) k (v : V) (o : JsObject.t V) :
  StronglySorted enumerated_before (JsObject.keys o) ->
  StronglySorted enumerated_before (JsObject.keys (JsObject.set k v o)).
Proof.
  intros Hs. unfold JsObject.set. destruct (JsObject.get k o).
  - now rewrite JsObjectFacts.keys_overwrite.
  - now apply sorted_insert.
Qed.

Lemma sorted_delete (V : Type) k (o : JsObject.t V) :
  StronglySorted enumerated_before (JsObject.keys o) ->
  StronglySorted enumerated_before (JsObject.keys (JsObject.delete k o)).
Proof.
  induction o as [|[k0 v0] o IH]; intros Hs; cbn [JsObject.delete]; [exact Hs|].
  rewrite JsObjectFacts.keys_cons in Hs. inversion Hs as [|? ? Hs' Hall]; subst.
  destruct (String.eqb k0 k); [now apply IH|].
  rewrite JsObjectFacts.keys_cons. constructor; [now apply IH|].
  rewrite Forall_forall in *. intros x Hx.
  apply JsObjectFacts.keys_delete_In in Hx. now apply Hall.
Qed.

End EnumerationFacts.

(** ** Monadic code *)

Section MonadLaws.

Variables A B : Type.

Lemma bind_Normal (m : M A) (k : A -> M B) s a s1 o1 :
  m s = (Normal a, s1, o1) ->
  bind m k s = (completion_of (k a s1), state_of (k a s1), o1 ++ effects_of (k a s1)).
Proof.
  intros H. unfold bind. rewrite H. now destruct (k a s1) as [[r s2] o2].
Qed.

Lemma bind_Throw (m : M A) (k : A -> M B) s e s1 o1 :
  m s = (Throw e, s1, o1) -> bind m k s = (Throw e, s1, o1).
Proof. intros H. unfold bind. now rewrite H. Qed.

Lemma state_of_bind (m : M A) (k : A -> M B) s :
  state_of (bind m k s) =
  match completion_of (m s) with
  | Normal a => state_of (k a (state_of (m s)))
  | Throw _ => state_of (m s)
  end.
Proof.
  unfold bind. destruct (m s) as [[[a|e] s1] o1]; cbn; auto.
  now destruct (k a s1) as [[r s2] o2].
Qed.

Lemma effects_of_bind (m : M A) (k : A -> M B) s :
  effects_of (bind m k s) =
  match completion_of (m s) with
  | Normal a => effects_of (m s) ++ effects_of (k a (state_of (m s)))
  | Throw _ => effects_of (m s)
  end.
Proof.
  unfold bind. destruct (m s) as [[[a|e] s1] o1]; cbn; auto.
  now destruct (k a s1) as [[r s2] o2].
Qed.

End MonadLaws.

(** ** Invariants *)

Section Keeps.

Variable J : State -> list Effect -> Prop.

Lemma keeps_ret (A : Type) (a : A) : keeps J (ret a).
Proof. intros s h H. cbn. now rewrite app_nil_r. Qed.

Lemma keeps_throw (A : Type) (e : string) : keeps J (@throw A e).
Proof. intros s h H. cbn. now rewrite app_nil_r. Qed.

Lemma keeps_gets (A : Type) (f : State -> A) : keeps J (gets f).
Proof. intros s h H. cbn. now rewrite app_nil_r. Qed.

Lemma keeps_modify (f : State -> State) :
  (forall s h, J s h -> J (f s) h) -> keeps J (modify f).
Proof. intros Hf s h H. cbn. rewrite app_nil_r. auto. Qed.

Lemma keeps_perform (e : Effect) :
  (forall s h, J s h -> J s (h ++ [e])) -> keeps J (perform e).
Proof. intros He s h H. cbn. auto. Qed.

Lemma keeps_bind (A B : Type) (m : M A) (k : A -> M B) :
  keeps J m -> (forall a, keeps J (k a)) -> keeps J (bind m k).
Proof.
  intros Hm Hk s h H. specialize (Hm s h H).
  rewrite state_of_bind, effects_of_bind.
  destruct (completion_of (m s)) as [a|e]; auto.
  rewrite app_assoc. now apply Hk.
Qed.

Lemma keeps_for_each (A : Type) (l : list A) (body : A -> M unit) :
  (forall x, In x l -> keeps J (body x)) -> keeps J (for_each l body).
Proof.
  induction l as [|x l IH]; intros Hb; cbn [for_each].
  - apply keeps_ret.
  - apply keeps_bind; [apply Hb; now left | intros _; apply IH].
    intros y Hy. apply Hb. now right.
Qed.

End Keeps.

(** Splitting a compound computation into its parts. *)
Ltac keeps_step :=
  match goal with
  | |- keeps _ (bind _ _) => apply keeps_bind; [| intros ?]
  | |- keeps _ (ret _) => apply keeps_ret
  | |- keeps _ (throw _) => apply keeps_throw
  | |- keeps _ (gets _) => apply keeps_gets
  | |- keeps _ (for_each _ _) => apply keeps_for_each; intros ? ?
  | |- keeps _ (if ?b then _ else _) => destruct b
  | |- keeps _ (match ?x with Some _ => _ | None => _ end) => destruct x
  | |- keeps _ (match ?x with (_, _) => _ end) => destruct x
  end.

Lemma stable_state (I : State -> Prop) (A : Type) (m : M A) s :
  stable I m -> I s -> I (state_of (m s)).
Proof. intros H Hs. exact (H s [] Hs). Qed.

Lemma keeps_run (X : Collaborators) (J : State -> list Effect -> Prop) :
  (forall i : Input X, keeps J (handle i)) ->
  forall (inputs : list (Input X)) s h,
    J s h -> J (fst (run inputs s)) (h ++ snd (run inputs s)).
Proof.
  intros Hh. induction inputs as [|i rest IH]; intros s h H; cbn [run fst snd].
  - now rewrite app_nil_r.
  - rewrite app_assoc. apply IH. now apply Hh.
Qed.

Lemma keeps_run_when (X : Collaborators) (J : State -> list Effect -> Prop)
    (P : Input X -> Prop) :
  (forall i : Input X, P i -> keeps J (handle i)) ->
  forall (inputs : list (Input X)) s h,
    Forall P inputs -> J s h -> J (fst (run inputs s)) (h ++ snd (run inputs s)).
Proof.
  intros Hh. induction inputs as [|i rest IH]; intros s h HP H; cbn [run fst snd].
  - now rewrite app_nil_r.
  - inversion HP as [|? ? Hi Hrest]; subst.
    rewrite app_assoc. apply IH; [exact Hrest|]. now apply Hh.
Qed.

(** ** Weakest preconditions *)

Section WP.

Variables (A B : Type) (E : State -> list Effect -> Prop).

Lemma wp_ret (a : A) (Q : A -> State -> list Effect -> Prop) s h :
  Q a s h -> wp (ret a) Q E s h.
Proof. unfold wp; cbn. now rewrite app_nil_r. Qed.

Lemma wp_throw (e : string) (Q : A -> State -> list Effect -> Prop) s h :
  E s h -> wp (throw e) Q E s h.
Proof. unfold wp; cbn. now rewrite app_nil_r. Qed.

Lemma wp_gets (f : State -> A) (Q : A -> State -> list Effect -> Prop) s h :
  Q (f s) s h -> wp (gets f) Q E s h.
Proof. unfold wp; cbn. now rewrite app_nil_r. Qed.

Lemma wp_modify (f : State -> State) (Q : unit -> State -> list Effect -> Prop) s h :
  Q tt (f s) h -> wp (modify f) Q E s h.
Proof. unfold wp; cbn. now rewrite app_nil_r. Qed.

Lemma wp_perform (e : Effect) (Q : unit -> State -> list Effect -> Prop) s h :
  Q tt s (h ++ [e]) -> wp (perform e) Q E s h.
Proof. unfold wp; cbn. auto. Qed.

Lemma wp_bind (m : M A) (k : A -> M B) (Q : B -> State -> list Effect -> Prop) s h :
  wp m (fun a => wp (k a) Q E) E s h -> wp (bind m k) Q E s h.
Proof.
  unfold wp, bind. destruct (m s) as [[[a|e] s1] o1]; auto.
  destruct (k a s1) as [[[b|e] s2] o2]; now rewrite app_assoc.
Qed.

Lemma wp_mono (m : M A) (Q Q' : A -> State -> list Effect -> Prop)
    (E' : State -> list Effect -> Prop) s h :
  wp m Q E s h ->
  (forall a s' h', Q a s' h' -> Q' a s' h') ->
  (forall s' h', E s' h' -> E' s' h') ->
  wp m Q' E' s h.
Proof. unfold wp. destruct (m s) as [[[a|e] s1] o1]; auto. Qed.

End WP.

(** A loop whose invariant follows the elements still to visit. *)
Lemma wp_for_each (A : Type) (I : list A -> State -> list Effect -> Prop)
    (E : State -> list Effect -> Prop) (body : A -> M unit) :
  (forall x l s h, I (x :: l) s h -> wp (body x) (fun _ => I l) E s h) ->
  forall l s h, I l s h -> wp (for_each l body) (fun _ => I []) E s h.
Proof.
  intros Hb. induction l as [|x l IH]; intros s h H; cbn [for_each].
  - now apply wp_ret.
  - apply wp_bind. eapply wp_mono; [apply Hb, H | | auto].
    intros a s' h' H'. now apply IH.
Qed.

Lemma keeps_wp (J : State -> list Effect -> Prop) (A : Type) (m : M A) s h :
  keeps J m -> J s h -> wp m (fun _ => J) J s h.
Proof.
  intros Hk H. specialize (Hk s h H). unfold wp.
  now destruct (m s) as [[[a|e] s1] o1].
Qed.

Lemma wp_result (A : Type) (m : M A) (P : State -> list Effect -> Prop) s :
  wp m (fun _ => P) P s [] -> P (state_of (m s)) (effects_of (m s)).
Proof. unfold wp. now destruct (m s) as [[[a|e] s1] o1]. Qed.

Lemma wp_eq (A : Type) (m : M A) (r : Completion A * State * list Effect) s :
  wp m (fun a s' h' => (Normal a, s', h') = r) (fun _ _ => False) s [] -> m s = r.
Proof. unfold wp. destruct (m s) as [[[a|e] s1] o1]; cbn; [auto | tauto]. Qed.

Lemma wp_of_eq (A : Type) (m : M A) (Q : A -> State -> list Effect -> Prop) E
    a s s1 o1 h :
  m s = (Normal a, s1, o1) -> Q a s1 (h ++ o1) -> wp m Q E s h.
Proof. intros Hm HQ. unfold wp. now rewrite Hm. Qed.

(** Projections of updated states. *)
Ltac state_simpl :=
  cbn [_callbacks _valueEventFired _geohashesToQuery _numGeohashesToQueryProcessed
       _locations _locations_prototype _currentGeohashesQueried _geohashCleanupScheduled
       _cleanUpCurrentGeohashesQueriedTimeout _cleanUpCurrentGeohashesQueriedInterval
       _center _radius next_timer_handle
       set_callbacks set_valueEventFired set_geohashesToQuery
       set_numGeohashesToQueryProcessed set_locations set_locations_prototype
       set_currentGeohashesQueried
       set_geohashCleanupScheduled set_cleanUpTimeout set_cleanUpInterval
       set_center_radius set_next_timer_handle] in *.

(** Drives [wp] through straight-line code. *)
Ltac wp_step :=
  match goal with
  | |- wp (bind _ _) _ _ _ _ => apply wp_bind
  | |- wp (ret _) _ _ _ _ => apply wp_ret
  | |- wp (throw _) _ _ _ _ => apply wp_throw
  | |- wp (gets _) _ _ _ _ => apply wp_gets
  | |- wp (modify _) _ _ _ _ => apply wp_modify
  | |- wp (perform _) _ _ _ _ => apply wp_perform
  end.

(** ** Basic facts about the private methods *)

Section EngineFacts.

Variable X : Collaborators.

Lemma for_each_perform (A : Type) (f : A -> Effect) (l : list A) s :
  for_each l (fun x => perform (f x)) s = (Normal tt, s, map f l).
Proof.
  induction l as [|x l IH]; cbn [for_each map]; auto.
  erewrite bind_Normal by reflexivity. now rewrite IH.
Qed.

(** [_fireCallbacksForKey] changes nothing and invokes every callback of
    the event type once, in registration order.  The distance is [null]
    exactly when the location is, in every call the engine makes. *)
Lemma _fireCallbacksForKey_eq t key loc dist s :
  (loc = None -> dist = None) ->
  _fireCallbacksForKey t key loc dist s =
  (Normal tt, s,
   Fire t key loc dist :: map (fun cb => Call cb key loc dist) (callbacks_of t (_callbacks s))).
Proof.
  intros Hd. unfold _fireCallbacksForKey.
  erewrite bind_Normal by reflexivity. erewrite bind_Normal by reflexivity.
  destruct loc as [l|].
  - now rewrite for_each_perform.
  - rewrite (Hd eq_refl). now rewrite for_each_perform.
Qed.

Lemma _stringToQuery_pure str s :
  exists r, _stringToQuery str s = (r, s, []).
Proof.
  unfold _stringToQuery.
  destruct (split ":" str) as [|a [|b [|c l]]]; eexists; reflexivity.
Qed.

Lemma _stringToQuery_well_formed str a b s :
  split ":" str = [a; b] -> _stringToQuery str s = (Normal (a, b), s, []).
Proof. intros H. unfold _stringToQuery. now rewrite H. Qed.

Lemma geohash_in_queries_pure g queryStrs s :
  exists r, geohash_in_queries X g queryStrs s = (r, s, []).
Proof.
  induction queryStrs as [|q l IH]; cbn [geohash_in_queries].
  - eexists; reflexivity.
  - destruct (_stringToQuery_pure q s) as [[[a b]|e] Hq].
    + erewrite bind_Normal by exact Hq. cbn [fst snd].
      destruct (js_ge X g a && js_le X g b).
      * eexists; reflexivity.
      * destruct IH as [r Hr]. rewrite Hr. eexists; reflexivity.
    + erewrite bind_Throw by exact Hq. eexists; reflexivity.
Qed.

(** The coverage check reads the registry and nothing else. *)
Lemma _geohashInSomeQuery_pure g s :
  exists r, _geohashInSomeQuery X g s = (r, s, []).
Proof.
  unfold _geohashInSomeQuery. erewrite bind_Normal by reflexivity.
  destruct (geohash_in_queries_pure g (JsObject.keys (_currentGeohashesQueried s)) s)
    as [r Hr].
  rewrite Hr. eexists; reflexivity.
Qed.

Lemma geohash_in_queries_state_irrelevant g queryStrs s s' :
  completion_of (geohash_in_queries X g queryStrs s) =
  completion_of (geohash_in_queries X g queryStrs s').
Proof.
  induction queryStrs as [|q l IH]; cbn [geohash_in_queries]; auto.
  unfold bind, _stringToQuery.
  destruct (split ":" q) as [|a [|b [|c r]]]; cbn; auto.
  destruct (js_ge X g a && js_le X g b); cbn; auto.
  destruct (geohash_in_queries_pure g l s) as [r1 H1].
  destruct (geohash_in_queries_pure g l s') as [r2 H2].
  rewrite H1, H2 in *. cbn in *. now rewrite IH.
Qed.

(** A range that holds the geohash answers [true], provided the keys
    enumerated before it decode. *)
Lemma geohash_in_queries_covering g queryStrs queryStr lo hi s :
  Forall well_formed_query_string queryStrs ->
  In queryStr queryStrs ->
  split ":" queryStr = [lo; hi] ->
  js_ge X g lo = true -> js_le X g hi = true ->
  geohash_in_queries X g queryStrs s = (Normal true, s, []).
Proof.
  intros Hwf HIn Hsplit Hge Hle.
  induction queryStrs as [|q l IH]; [destruct HIn|].
  inversion Hwf as [|? ? [a [b Hq]] Hwf']; subst.
  cbn [geohash_in_queries].
  erewrite bind_Normal by (apply _stringToQuery_well_formed; exact Hq).
  cbn [fst snd].
  destruct (js_ge X g a && js_le X g b) eqn:Hc; [reflexivity|].
  destruct HIn as [->|HIn].
  - rewrite Hsplit in Hq. injection Hq as <- <-. now rewrite Hge, Hle in Hc.
  - rewrite (IH Hwf' HIn). reflexivity.
Qed.

(** ** The guard of the accesses to [_locations] *)

Lemma _locations_hasOwnProperty_eq key s :
  guard_intact s ->
  _locations_hasOwnProperty key s
  = (Normal (JsObject.hasOwnProperty key (_locations s)), s, []).
Proof.
  intros Hg. unfold _locations_hasOwnProperty, bind, gets. now rewrite Hg.
Qed.

Lemma _locations_hasOwnProperty_throws key s :
  JsObject.hasOwnProperty "hasOwnProperty" (_locations s) = true ->
  _locations_hasOwnProperty key s = (Throw type_error, s, []).
Proof.
  intros Hg. unfold _locations_hasOwnProperty, bind, gets. now rewrite Hg.
Qed.

Lemma _locations_hasOwnProperty_pure key s :
  exists r, _locations_hasOwnProperty key s = (r, s, []).
Proof.
  destruct (JsObject.hasOwnProperty "hasOwnProperty" (_locations s)) eqn:Hg.
  - rewrite _locations_hasOwnProperty_throws by exact Hg. eexists; reflexivity.
  - rewrite _locations_hasOwnProperty_eq by exact Hg. eexists; reflexivity.
Qed.

Lemma with_own_row_eq key (body : LocationDict -> M unit) s :
  guard_intact s ->
  with_own_row key body s =
  match JsObject.get key (_locations s) with
  | Some locationDict => body locationDict s
  | None => (Normal tt, s, [])
  end.
Proof.
  intros Hg. unfold with_own_row.
  erewrite bind_Normal by (apply _locations_hasOwnProperty_eq; exact Hg).
  cbn [state_of completion_of effects_of fst snd app].
  unfold JsObject.hasOwnProperty.
  destruct (JsObject.get key (_locations s)) as [d|] eqn:Hget; [|reflexivity].
  erewrite bind_Normal by reflexivity.
  cbn [state_of completion_of effects_of fst snd app]. rewrite Hget.
  now destruct (body d s) as [[r s'] o].
Qed.

Lemma with_own_row_throws key (body : LocationDict -> M unit) s :
  JsObject.hasOwnProperty "hasOwnProperty" (_locations s) = true ->
  with_own_row key body s = (Throw type_error, s, []).
Proof.
  intros Hg. unfold with_own_row.
  erewrite bind_Throw by (apply _locations_hasOwnProperty_throws; exact Hg).
  reflexivity.
Qed.

Lemma wp__locations_hasOwnProperty key (Q : bool -> State -> list Effect -> Prop) E s h :
  (guard_intact s -> Q (JsObject.hasOwnProperty key (_locations s)) s h) ->
  (JsObject.hasOwnProperty "hasOwnProperty" (_locations s) = true -> E s h) ->
  wp (_locations_hasOwnProperty key) Q E s h.
Proof.
  intros HQ HE. unfold wp.
  destruct (JsObject.hasOwnProperty "hasOwnProperty" (_locations s)) eqn:Hg.
  - rewrite _locations_hasOwnProperty_throws by exact Hg. rewrite app_nil_r. auto.
  - rewrite _locations_hasOwnProperty_eq by exact Hg. rewrite app_nil_r. auto.
Qed.

Lemma wp_with_own_row key (body : LocationDict -> M unit)
    (Q : unit -> State -> list Effect -> Prop) E s h :
  (guard_intact s ->
   match JsObject.get key (_locations s) with
   | Some locationDict => wp (body locationDict) Q E s h
   | None => Q tt s h
   end) ->
  (JsObject.hasOwnProperty "hasOwnProperty" (_locations s) = true -> E s h) ->
  wp (with_own_row key body) Q E s h.
Proof.
  intros HQ HE. unfold wp.
  destruct (JsObject.hasOwnProperty "hasOwnProperty" (_locations s)) eqn:Hg.
  - rewrite with_own_row_throws by exact Hg. rewrite app_nil_r. auto.
  - rewrite with_own_row_eq by exact Hg. specialize (HQ Hg).
    destruct (JsObject.get key (_locations s)) as [d|]; [exact HQ|].
    now rewrite app_nil_r.
Qed.

Lemma keeps_with_own_row (J : State -> list Effect -> Prop) key
    (body : LocationDict -> M unit) :
  (forall locationDict, keeps J (body locationDict)) -> keeps J (with_own_row key body).
Proof.
  intros Hbody s h HJ.
  destruct (JsObject.hasOwnProperty "hasOwnProperty" (_locations s)) eqn:Hg.
  - rewrite with_own_row_throws by exact Hg. cbn. now rewrite app_nil_r.
  - rewrite with_own_row_eq by exact Hg.
    destruct (JsObject.get key (_locations s)) as [d|]; [now apply Hbody|].
    cbn. now rewrite app_nil_r.
Qed.

Lemma keeps__locations_hasOwnProperty (J : State -> list Effect -> Prop) key :
  keeps J (_locations_hasOwnProperty key).
Proof.
  intros s h HJ. destruct (_locations_hasOwnProperty_pure key s) as [r ->].
  cbn. now rewrite app_nil_r.
Qed.

(** An assignment to [_locations[key]] stores the row, or makes it the
    prototype. *)
Lemma _locations_assign_eq key row s :
  _locations_assign key row s =
  (Normal tt,
   if String.eqb key "__proto__" && negb (JsObject.hasOwnProperty key (_locations s))
   then set_locations_prototype (Some row) s
   else set_locations (JsObject.set key row (_locations s)) s,
   []).
Proof.
  unfold _locations_assign, bind, gets, modify.
  now destruct (String.eqb key "__proto__" && negb (JsObject.hasOwnProperty key (_locations s))).
Qed.

Lemma wp__locations_assign key row (Q : unit -> State -> list Effect -> Prop) E s h :
  Q tt (if String.eqb key "__proto__" && negb (JsObject.hasOwnProperty key (_locations s))
        then set_locations_prototype (Some row) s
        else set_locations (JsObject.set key row (_locations s)) s) h ->
  wp (_locations_assign key row) Q E s h.
Proof.
  intros HQ. unfold wp. rewrite _locations_assign_eq, app_nil_r. exact HQ.
Qed.

(** A loop over two lists of keys is the loop over the first, then the
    loop over the second. *)
Lemma for_each_app (A : Type) (l1 l2 : list A) (body : A -> M unit) s :
  for_each (l1 ++ l2) body s = bind (for_each l1 body) (fun _ => for_each l2 body) s.
Proof.
  revert s. induction l1 as [|x l1 IH]; intros s; cbn [app for_each].
  - unfold bind, ret. now destruct (for_each l2 body s) as [[r s'] o].
  - unfold bind. destruct (body x s) as [[[a|e] s1] o1]; [|reflexivity].
    rewrite IH. unfold bind.
    destruct (for_each l1 body s1) as [[[a'|e'] s2] o2].
    + destruct (for_each l2 body s2) as [[r s3] o3]. now rewrite app_assoc.
    + reflexivity.
Qed.

End EngineFacts.

(** * Malformed stored values *)

(** C9. An add or a change notification whose stored value does not decode
    to a location leaves every variable of the engine as it was (the
    location table, the range registry and the ready state among them),
    returns normally and performs no effect: no event fires and no
    callback is invoked. *)
Theorem undecodable_value_is_ignored (X : Collaborators) (snapshot : DataSnapshot X)
    (s : State) :
  decodeGeofireObject X (val snapshot) = None ->
  handle (firebase_child_added snapshot) s = (Normal tt, s, []) /\
  handle (firebase_child_changed snapshot) s = (Normal tt, s, []).
Proof.
  intros Hdecode. cbn [handle].
  unfold _childAddedCallback, _childChangedCallback.
  rewrite Hdecode. split; reflexivity.
Qed.

Lemma undecodable_value_is_ignored_witness :
  handle (firebase_child_added (demo_snapshot "a" None)) demo_tracking
    = (Normal tt, demo_tracking, []) /\
  handle (firebase_child_changed (demo_snapshot "a" None)) demo_tracking
    = (Normal tt, demo_tracking, []).
Proof.
  apply (@undecodable_value_is_ignored demo (demo_snapshot "a" None) demo_tracking).
  reflexivity.
Defined.

(** * Resolution of a removal *)

(** C3, as the code has it, for a table with no row under
    ["hasOwnProperty"] and a key other than ["__proto__"]. A removal
    notification changes nothing by itself: for a tracked key it issues one
    point read, for an untracked key it does nothing. When the read
    completes and the coverage check on
    the geohash read ([null] when the key is absent) succeeds, nothing
    happens. When the check fails, the entry of the key is deleted and, if
    the entry was flagged in-query, [key_exited] fires once, every
    [key_exited] callback being invoked once: with [null] location and
    [null] distance when the key is absent, and with the location read and
    its distance from the center when the key is present but uncovered.
    When the check fails and the key is untracked or flagged out of the
    query, no event fires. *)
Theorem removal_resolution (X : Collaborators) (key : string)
    (notification snapshot : DataSnapshot X) (s : State) (covered : bool) :
  let loc := decodeGeofireObject X (val snapshot) in
  let g := match loc with Some l => Some (encodeGeohash X l None) | None => None end in
  let dist := match loc with Some l => Some (distance X l (_center s)) | None => None end in
  guard_intact s ->
  key <> "__proto__" ->
  _geohashInSomeQuery X g s = (Normal covered, s, []) ->
  handle (firebase_child_removed notification) s =
    (Normal tt, s,
     if JsObject.hasOwnProperty (name notification) (_locations s)
     then [FirebaseChildOnceValue (name notification)] else []) /\
  handle (firebase_child_value key snapshot) s =
    if covered then (Normal tt, s, [])
    else (Normal tt, set_locations (JsObject.delete key (_locations s)) s,
          if in_query key s
          then Fire key_exited key loc dist
               :: map (fun cb => Call cb key loc dist) (cb_key_exited (_callbacks s))
          else []).
Proof.
  intros loc g dist Hguard Hkey Hcov. split.
  - cbn [handle]. unfold _childRemovedCallback.
    erewrite bind_Normal by (now apply _locations_hasOwnProperty_eq).
    now destruct (JsObject.hasOwnProperty (name notification) (_locations s)).
  - cbn [handle]. unfold _childRemovedCallback_value.
    fold loc. fold g.
    erewrite bind_Normal by exact Hcov.
    destruct covered; [reflexivity|].
    erewrite bind_Normal by reflexivity.
    erewrite bind_Normal by reflexivity.
    unfold in_query, _locations_get.
    cbn [state_of effects_of completion_of fst snd app].
    replace (String.eqb key "__proto__") with false
      by (symmetry; now apply String.eqb_neq).
    destruct (JsObject.get key (_locations s)) as [d|]; [|reflexivity].
    destruct (isInQuery d); [|reflexivity].
    erewrite bind_Normal by reflexivity.
    cbn [state_of effects_of completion_of fst snd app].
    fold dist.
    rewrite _fireCallbacksForKey_eq; [reflexivity|].
    subst dist. intros ->. reflexivity.
Qed.

Lemma removal_resolution_witness :
  handle (firebase_child_removed (demo_snapshot "a" None)) demo_tracking =
    (Normal tt, demo_tracking, [FirebaseChildOnceValue "a"]) /\
  handle (firebase_child_value "a" (demo_snapshot "a" None)) demo_tracking =
    (Normal tt,
     set_locations (JsObject.delete "a" (_locations demo_tracking)) demo_tracking,
     [Fire key_exited "a" None None; Call 2 "a" None None]).
Proof.
  apply (@removal_resolution demo "a" (demo_snapshot "a" None) (demo_snapshot "a" None)
           demo_tracking false).
  - reflexivity.
  - discriminate.
  - reflexivity.
Defined.

(** C3 as stated fails: key ["a"] is tracked and in the query; its removal
    is notified and the point read finds it at (-1, -1), whose geohash no
    registered range holds.  [key_exited] fires with that location and its
    distance from the center, not with [null] and [null]. *)
Lemma removal_of_uncovered_key_reports_location :
  let snapshot := demo_snapshot "a" (Some ((-1)%float, (-1)%float)) in
  let r := handle (firebase_child_value "a" snapshot) demo_tracking in
  in_query "a" demo_tracking = true /\
  _geohashInSomeQuery demo (Some (encodeGeohash demo ((-1)%float, (-1)%float) None))
    demo_tracking = (Normal false, demo_tracking, []) /\
  effects_of r =
    [Fire key_exited "a" (Some ((-1)%float, (-1)%float)) (Some 222%float);
     Call 2 "a" (Some ((-1)%float, (-1)%float)) (Some 222%float)] /\
  ~ In (Fire key_exited "a" None None) (effects_of r).
Proof.
  cbv zeta. repeat split; try (vm_compute; reflexivity).
  vm_compute. intros [H|[H|[]]]; discriminate H.
Qed.

(** * The range registry and its cleanup *)

Section RegistryFacts.

Variable X : Collaborators.

Lemma Forall_keys_delete (V : Type) (P : string -> Prop) k (o : JsObject.t V) :
  Forall P (JsObject.keys o) -> Forall P (JsObject.keys (JsObject.delete k o)).
Proof.
  rewrite !Forall_forall. intros H q Hq.
  apply JsObjectFacts.keys_delete_In in Hq. now apply H.
Qed.

Lemma Forall_keys_set (V : Type) (P : string -> Prop) k v (o : JsObject.t V) :
  P k -> Forall P (JsObject.keys o) -> Forall P (JsObject.keys (JsObject.set k v o)).
Proof.
  rewrite !Forall_forall. intros Hk H q Hq.
  apply JsObjectFacts.keys_set_In in Hq. destruct Hq as [->|Hq]; auto.
Qed.

Lemma geohash_in_queries_returns g queryStrs s :
  Forall well_formed_query_string queryStrs ->
  exists b, geohash_in_queries X g queryStrs s = (Normal b, s, []).
Proof.
  induction 1 as [|q l [a [b Hq]] Hl IH]; cbn [geohash_in_queries].
  - eexists; reflexivity.
  - erewrite bind_Normal by (apply _stringToQuery_well_formed; exact Hq).
    cbn [fst snd]. destruct (js_ge X g a && js_le X g b).
    + eexists; reflexivity.
    + destruct IH as [b' ->]. eexists; reflexivity.
Qed.

(** On a well-formed registry the coverage check returns. *)
Lemma _geohashInSomeQuery_returns g s :
  registry_well_formed s ->
  exists b, _geohashInSomeQuery X g s = (Normal b, s, []).
Proof.
  intros Hwf. unfold _geohashInSomeQuery. erewrite bind_Normal by reflexivity.
  destruct (geohash_in_queries_returns g s Hwf) as [b ->]. eexists; reflexivity.
Qed.

Lemma wp__geohashInSomeQuery g (Q : bool -> State -> list Effect -> Prop) E s h :
  registry_well_formed s -> (forall b, Q b s h) ->
  wp (_geohashInSomeQuery X g) Q E s h.
Proof.
  intros Hwf HQ. destruct (_geohashInSomeQuery_returns g Hwf) as [b Hb].
  unfold wp. rewrite Hb, app_nil_r. apply HQ.
Qed.

Lemma wp__stringToQuery str (Q : string * string -> State -> list Effect -> Prop) E s h :
  well_formed_query_string str -> (forall q, Q q s h) ->
  wp (_stringToQuery str) Q E s h.
Proof.
  intros [a [b Hq]] HQ. unfold wp.
  rewrite (_stringToQuery_well_formed _ s Hq), app_nil_r. apply HQ.
Qed.

Lemma wp__geoQueryOff q (Q : unit -> State -> list Effect -> Prop) E s h :
  (forall h', Q tt s h') -> wp (_geoQueryOff q) Q E s h.
Proof. intros HQ. unfold wp. cbn. apply HQ. Qed.

(** The registry is swept before the location table is, so what the pass
    leaves of it is the same when the sweep of the table throws. *)
Lemma _cleanUpCurrentGeohashesQueried_registry s h :
  registry_well_formed s ->
  wp (_cleanUpCurrentGeohashesQueried X)
     (fun _ s' _ => registry_swept s s') (fun s' _ => registry_swept s s') s h.
Proof.
  intros Hwf. unfold _cleanUpCurrentGeohashesQueried.
  set (R0 := _currentGeohashesQueried s).
  apply wp_bind, wp_gets. apply wp_bind.
  eapply wp_mono.
  - apply (wp_for_each
      (fun l s' (_ : list Effect) =>
         registry_well_formed s' /\
         (forall q f, JsObject.get q (_currentGeohashesQueried s') = Some f ->
                      JsObject.get q R0 = Some f) /\
         (forall q, JsObject.get q R0 = Some true ->
                    JsObject.get q (_currentGeohashesQueried s') = Some true) /\
         (forall q, JsObject.get q (_currentGeohashesQueried s') = Some false -> In q l))).
    + intros x l s1 h1 (Hwf1 & Hsub & Htrue & Hfalse).
      apply wp_bind, wp_gets.
      destruct (JsObject.get x (_currentGeohashesQueried s1)) as [[|]|] eqn:Hx.
      * apply wp_ret. repeat split; auto. intros q Hq.
        destruct (Hfalse q Hq) as [->|]; [congruence | auto].
      * assert (Hxwf : well_formed_query_string x).
        { unfold registry_well_formed in Hwf1. rewrite Forall_forall in Hwf1.
          apply Hwf1. eapply JsObjectFacts.get_Some_In; eauto. }
        apply wp_bind, wp__stringToQuery; auto. intros query.
        apply wp_bind, wp__geoQueryOff. intros h'.
        apply wp_modify. cbn. repeat split.
        -- now apply Forall_keys_delete.
        -- intros q f Hq. destruct (string_dec q x) as [->|Hne].
           ++ now rewrite JsObjectFacts.get_delete_same in Hq.
           ++ rewrite JsObjectFacts.get_delete_other in Hq by auto. auto.
        -- intros q Hq. specialize (Htrue q Hq).
           destruct (string_dec q x) as [->|Hne]; [congruence|].
           now rewrite JsObjectFacts.get_delete_other by auto.
        -- intros q Hq. destruct (string_dec q x) as [->|Hne].
           ++ now rewrite JsObjectFacts.get_delete_same in Hq.
           ++ rewrite JsObjectFacts.get_delete_other in Hq by auto.
              destruct (Hfalse q Hq) as [<-|]; [congruence | auto].
      * apply wp_ret. repeat split; auto. intros q Hq.
        destruct (Hfalse q Hq) as [->|]; [congruence | auto].
    + repeat split; auto. intros q Hq. eapply JsObjectFacts.get_Some_In; eauto.
  - intros a s1 h1 (Hwf1 & Hsub & Htrue & Hfalse).
    set (R1 := _currentGeohashesQueried s1).
    assert (HR1 : forall q, JsObject.get q R1 =
              match JsObject.get q R0 with Some true => Some true | _ => None end).
    { intros q. destruct (JsObject.get q R1) as [[|]|] eqn:Hq.
      - now rewrite (Hsub q true Hq).
      - destruct (Hfalse q Hq).
      - destruct (JsObject.get q R0) as [[|]|] eqn:Hq0; auto.
        apply Htrue in Hq0. unfold R1 in Hq. congruence. }
    apply wp_bind, wp_gets. apply wp_bind.
    eapply wp_mono.
    + apply (wp_for_each (fun _ s' (_ : list Effect) => _currentGeohashesQueried s' = R1)).
      * intros x l s2 h2 HR. apply wp_with_own_row.
        -- intros _.
           destruct (JsObject.get x (_locations s2)) as [d|]; [|exact HR].
           apply wp_bind, wp__geohashInSomeQuery.
           { unfold registry_well_formed. now rewrite HR. }
           intros [|]; [now apply wp_ret | now apply wp_modify].
        -- intros _. exact HR.
      * reflexivity.
    + intros a2 s2 h2 HR. cbv beta in HR. apply wp_bind, wp_modify. apply wp_bind, wp_gets.
      cbn. destruct (_cleanUpCurrentGeohashesQueriedTimeout s2).
      * unfold clearTimeout. apply wp_bind, wp_perform, wp_modify.
        unfold registry_swept, registry_well_formed. cbn. rewrite HR.
        split; [exact Hwf1 | exact HR1].
      * apply wp_ret.
        unfold registry_swept, registry_well_formed. cbn. rewrite HR.
        split; [exact Hwf1 | exact HR1].
    + intros s' h' HR. cbv beta in HR.
      unfold registry_swept, registry_well_formed. rewrite HR.
      split; [exact Hwf1 | exact HR1].
  - intros s' h' HE. exact HE.
Qed.

End RegistryFacts.

(** Closes [registry_well_formed] on a state that evaluates. *)
Ltac well_formed_by_evaluation :=
  unfold registry_well_formed; vm_compute;
  repeat constructor; do 2 eexists; reflexivity.

(** * Scheduling of the cleanup pass *)

Lemma keys_set_existing (V : Type) k (v : V) (o : JsObject.t V) :
  In k (JsObject.keys o) -> JsObject.keys (JsObject.set k v o) = JsObject.keys o.
Proof. apply JsObjectFacts.keys_set_own. Qed.

Arguments wp : simpl never.
Arguments bind : simpl never.
Arguments for_each : simpl never.
Arguments JsObject.keys : simpl never.
Arguments JsObject.get : simpl never.
Arguments JsObject.set : simpl never.
Arguments JsObject.delete : simpl never.

Lemma keeps_pure (J : State -> list Effect -> Prop) (A : Type) (m : M A) :
  (forall s, exists r, m s = (r, s, [])) -> keeps J m.
Proof.
  intros Hp s h H. destruct (Hp s) as [r ->]. cbn. now rewrite app_nil_r.
Qed.

Lemma wp_keeps (J : State -> list Effect -> Prop) (A : Type) (m : M A) :
  (forall s h, J s h -> wp m (fun _ => J) J s h) -> keeps J m.
Proof.
  intros H s h HJ. specialize (H s h HJ). unfold wp in H.
  now destruct (m s) as [[[a|e] s1] o1].
Qed.

(** The loop that marks the registered ranges neither adds nor removes a
    key, never throws, performs no effect, and touches only the registry
    flags and [_geohashesToQuery]. *)
Lemma mark_loop_frame (P : State -> Prop) (K : list string)
    (Q : unit -> State -> list Effect -> Prop) E (l : list string) s h :
  (forall s' q b, P s' -> In q (JsObject.keys (_currentGeohashesQueried s')) ->
     P (set_currentGeohashesQueried (JsObject.set q b (_currentGeohashesQueried s')) s')) ->
  (forall s' g, P s' -> P (set_geohashesToQuery g s')) ->
  incl l K -> JsObject.keys (_currentGeohashesQueried s) = K -> P s ->
  (forall s', P s' -> JsObject.keys (_currentGeohashesQueried s') = K -> Q tt s' h) ->
  wp (for_each l (fun geohashQueryStr =>
        index <- gets (fun s => indexOf geohashQueryStr (_geohashesToQuery s)) ;;
        match index with
        | None =>
            modify (fun s => set_currentGeohashesQueried
                     (JsObject.set geohashQueryStr false (_currentGeohashesQueried s)) s)
        | Some i =>
            modify (fun s => set_currentGeohashesQueried
                     (JsObject.set geohashQueryStr true (_currentGeohashesQueried s)) s) ;;
            modify (fun s => set_geohashesToQuery (splice1 i (_geohashesToQuery s)) s)
        end)) Q E s h.
Proof.
  intros HPreg HPg Hincl HK Hs HQ.
  eapply wp_mono.
  - apply (wp_for_each
      (fun l' s' h' => incl l' K /\ JsObject.keys (_currentGeohashesQueried s') = K
                       /\ P s' /\ h' = h)).
    + intros x l' s1 h1 (Hin & HK1 & HP1 & ->).
      assert (Hx : In x K) by (apply Hin; now left).
      assert (Hl' : incl l' K) by (intros y Hy; apply Hin; now right).
      apply wp_bind, wp_gets.
      destruct (indexOf x (_geohashesToQuery s1)) as [i|].
      * apply wp_bind, wp_modify, wp_modify. cbn.
        repeat split; auto.
        -- rewrite keys_set_existing; auto. now rewrite HK1.
        -- apply HPg, HPreg; auto. now rewrite HK1.
      * apply wp_modify. cbn.
        repeat split; auto.
        -- rewrite keys_set_existing; auto. now rewrite HK1.
        -- apply HPreg; auto. now rewrite HK1.
    + repeat split; auto.
  - intros [] s' h' (_ & HK' & HP' & ->). now apply HQ.
  - intros s' h' HE. exact HE.
Qed.

Lemma keeps__stringToQuery (J : State -> list Effect -> Prop) str :
  keeps J (_stringToQuery str).
Proof. apply keeps_pure. intros s. apply _stringToQuery_pure. Qed.

(** The loop that attaches the new listeners keeps whatever does not
    depend on the registry or on the listeners attached. *)
Lemma listen_loop_keeps (J : State -> list Effect -> Prop) (l : list string) :
  (forall s h q, J s h ->
     J (set_currentGeohashesQueried (JsObject.set q true (_currentGeohashesQueried s)) s) h) ->
  (forall s h e, subscribes e = true -> J s h -> J s (h ++ [e])) ->
  keeps J (for_each l (fun toQueryStr =>
    query <- _stringToQuery toQueryStr ;;
    modify (fun s => set_currentGeohashesQueried
             (JsObject.set toQueryStr true (_currentGeohashesQueried s)) s) ;;
    perform (FirebaseOn (fst query) (snd query) child_added) ;;
    perform (FirebaseOn (fst query) (snd query) child_removed) ;;
    perform (FirebaseOn (fst query) (snd query) child_changed) ;;
    perform (FirebaseOnceValue (fst query) (snd query)))).
Proof.
  intros Hreg Heff. apply keeps_for_each. intros x _.
  apply keeps_bind; [apply keeps__stringToQuery | intros query].
  apply keeps_bind; [apply keeps_modify; intros; now apply Hreg | intros _].
  repeat (apply keeps_bind; [apply keeps_perform; intros; now apply Heff | intros _]).
  apply keeps_perform; intros; now apply Heff.
Qed.

(** C7, as the code has it. The recomputation of the coverage schedules a
    cleanup pass to run after 10 time units, and sets the
    cleanup-scheduled flag, exactly when no cleanup is pending and the
    registry holds more than 25 ranges at the time of the check, which is
    made before the newly required ranges are registered.  Otherwise it
    sets no timer and leaves the flag and the timer handle alone. *)
Theorem cleanup_scheduled_above_high_water_mark (X : Collaborators) (s : State) :
  let r := _listenForNewGeohashes X s in
  if negb (_geohashCleanupScheduled s)
     && Nat.ltb 25 (List.length (JsObject.keys (_currentGeohashesQueried s)))
  then _geohashCleanupScheduled (state_of r) = true /\
       _cleanUpCurrentGeohashesQueriedTimeout (state_of r) = Some (next_timer_handle s) /\
       In (SetTimeout (next_timer_handle s) 10) (effects_of r)
  else _geohashCleanupScheduled (state_of r) = _geohashCleanupScheduled s /\
       _cleanUpCurrentGeohashesQueriedTimeout (state_of r)
         = _cleanUpCurrentGeohashesQueriedTimeout s /\
       Forall (fun e => schedules_timeout e = false) (effects_of r).
Proof.
  set (K := JsObject.keys (_currentGeohashesQueried s)).
  set (P := fun (s' : State) (h' : list Effect) =>
    if negb (_geohashCleanupScheduled s) && Nat.ltb 25 (List.length K)
    then _geohashCleanupScheduled s' = true /\
         _cleanUpCurrentGeohashesQueriedTimeout s' = Some (next_timer_handle s) /\
         In (SetTimeout (next_timer_handle s) 10) h'
    else _geohashCleanupScheduled s' = _geohashCleanupScheduled s /\
         _cleanUpCurrentGeohashesQueriedTimeout s'
           = _cleanUpCurrentGeohashesQueriedTimeout s /\
         Forall (fun e => schedules_timeout e = false) h').
  cbv zeta. change (P (state_of (_listenForNewGeohashes X s))
                      (effects_of (_listenForNewGeohashes X s))).
  apply wp_result. unfold _listenForNewGeohashes.
  apply wp_bind, wp_modify. apply wp_bind, wp_modify. apply wp_bind, wp_gets.
  state_simpl. fold K.
  apply wp_bind.
  apply mark_loop_frame with
    (K := K)
    (P := fun s' => _geohashCleanupScheduled s' = _geohashCleanupScheduled s /\
                    _cleanUpCurrentGeohashesQueriedTimeout s'
                      = _cleanUpCurrentGeohashesQueriedTimeout s /\
                    next_timer_handle s' = next_timer_handle s);
    state_simpl; auto using incl_refl.
  intros s1 (Hflag & Htimeout & Hnext) HK1.
  apply wp_bind, wp_gets. apply wp_bind, wp_gets. rewrite Hflag, HK1.
  assert (Htail : forall s2 h2, P s2 h2 ->
    wp (modify (set_numGeohashesToQueryProcessed 0) ;;
        toQuery <- gets _geohashesToQuery ;;
        for_each toQuery (fun toQueryStr =>
          query <- _stringToQuery toQueryStr ;;
          modify (fun s => set_currentGeohashesQueried
                   (JsObject.set toQueryStr true (_currentGeohashesQueried s)) s) ;;
          perform (FirebaseOn (fst query) (snd query) child_added) ;;
          perform (FirebaseOn (fst query) (snd query) child_removed) ;;
          perform (FirebaseOn (fst query) (snd query) child_changed) ;;
          perform (FirebaseOnceValue (fst query) (snd query))))
       (fun _ => P) P s2 h2).
  { intros s2 h2 HP. apply keeps_wp; auto.
    apply keeps_bind; [apply keeps_modify; auto | intros _].
    apply keeps_bind; [apply keeps_gets | intros toQuery].
    apply listen_loop_keeps.
    - intros s' h' q H. exact H.
    - intros s' h' e He H. unfold P in *.
      destruct (negb (_geohashCleanupScheduled s) && Nat.ltb 25 (List.length K)).
      + destruct H as (H1 & H2 & H3). repeat split; auto. apply in_or_app; now left.
      + destruct H as (H1 & H2 & H3). repeat split; auto.
        apply Forall_app; split; auto. constructor; auto. now destruct e. }
  apply wp_bind.
  apply wp_mono with (Q := fun _ => P) (E := P);
    [| intros [] s2 h2 HP; now apply Htail | auto].
  unfold P.
  destruct (negb (_geohashCleanupScheduled s) && Nat.ltb 25 (List.length K)) eqn:Hc.
  - unfold setTimeout. repeat (wp_step; cbv beta).
    state_simpl. rewrite Hnext. repeat split; auto.
    apply in_or_app. right. now left.
  - apply wp_ret. repeat split; auto.
Qed.

(** C7 as stated fails when the registry passes 25 ranges only through the
    ranges the recomputation itself registers: eighteen ranges are
    registered and no cleanup is pending; moving the center registers nine
    more; afterwards 27 ranges are registered, yet no cleanup is scheduled,
    no timer is set and the flag is still [false]. *)
Lemma high_water_mark_is_checked_before_registering :
  let r := @handle demo9
             (call_updateCriteria (mkCriteria (Some (1%float, (-1)%float)) None))
             demo9_moved_once in
  _geohashCleanupScheduled demo9_moved_once = false /\
  List.length (JsObject.keys (_currentGeohashesQueried demo9_moved_once)) = 18 /\
  completion_of r = Normal tt /\
  List.length (JsObject.keys (_currentGeohashesQueried (state_of r))) = 27 /\
  _geohashCleanupScheduled (state_of r) = false /\
  _cleanUpCurrentGeohashesQueriedTimeout (state_of r) = None /\
  Forall (fun e => schedules_timeout e = false) (effects_of r).
Proof.
  cbv zeta. repeat split; try (vm_compute; reflexivity).
  vm_compute. repeat constructor.
Qed.

(** * Replay to a late [key_entered] listener *)

Lemma replay_loop callback (entries : list (string * LocationDict)) s :
  guard_intact s ->
  (forall k d, In (k, d) entries -> JsObject.get k (_locations s) = Some d) ->
  for_each (map fst entries) (fun key =>
    with_own_row key (fun locationDict =>
      if isInQuery locationDict then
        perform (Call callback key (Some (location locationDict))
                   (Some (distanceFromCenter locationDict)))
      else ret tt)) s
  = (Normal tt, s,
     map (replay_call callback) (filter (fun kd => isInQuery (snd kd)) entries)).
Proof.
  intros Hg.
  induction entries as [|[k d] entries IH]; intros Hget; [reflexivity|].
  cbn [map fst filter snd]. unfold for_each; fold for_each.
  assert (Hk : JsObject.get k (_locations s) = Some d) by (apply Hget; now left).
  assert (Hrest : forall k' d', In (k', d') entries ->
                    JsObject.get k' (_locations s) = Some d')
    by (intros; apply Hget; now right).
  destruct (isInQuery d) eqn:Hd.
  - erewrite bind_Normal with (s1 := s) (o1 := [replay_call callback (k, d)]) (a := tt).
    + rewrite (IH Hrest). reflexivity.
    + rewrite with_own_row_eq by exact Hg. rewrite Hk, Hd. reflexivity.
  - erewrite bind_Normal with (s1 := s) (o1 := []) (a := tt).
    + rewrite (IH Hrest). reflexivity.
    + rewrite with_own_row_eq by exact Hg. rewrite Hk, Hd. reflexivity.
Qed.

(** The properties a row set as prototype lends to the table are
    enumerated but are not its own: the guard skips them. *)
Lemma inherited_keys_not_own s key :
  In key (inherited_keys s) -> JsObject.get key (_locations s) = None.
Proof.
  unfold inherited_keys. destruct (_locations_prototype s); [|intros []].
  rewrite filter_In. unfold JsObject.hasOwnProperty. intros [_ H].
  now destruct (JsObject.get key (_locations s)).
Qed.

Lemma skipped_loop (body : string -> LocationDict -> M unit) (l : list string) s :
  guard_intact s ->
  (forall k, In k l -> JsObject.get k (_locations s) = None) ->
  for_each l (fun key => with_own_row key (body key)) s = (Normal tt, s, []).
Proof.
  intros Hg. induction l as [|k l IH]; intros Hnone; [reflexivity|].
  unfold for_each; fold for_each.
  erewrite bind_Normal with (s1 := s) (o1 := []) (a := tt).
  - rewrite IH by (intros; apply Hnone; now right). reflexivity.
  - rewrite with_own_row_eq by exact Hg. now rewrite (Hnone k) by now left.
Qed.

Lemma for_each_enumerable (body : string -> M unit) s0 s s1 o1 s2 o2 :
  for_each (JsObject.keys (_locations s0)) body s = (Normal tt, s1, o1) ->
  for_each (inherited_keys s0) body s1 = (Normal tt, s2, o2) ->
  for_each (enumerable_keys s0) body s = (Normal tt, s2, o1 ++ o2).
Proof.
  intros H1 H2. unfold enumerable_keys. rewrite for_each_app.
  erewrite bind_Normal by exact H1. now rewrite H2.
Qed.

(** With a row stored under ["hasOwnProperty"], a loop over the table stops
    at its first key: the guard throws. *)
Lemma shadowed_loop (body : string -> LocationDict -> M unit) s :
  JsObject.hasOwnProperty "hasOwnProperty" (_locations s) = true ->
  for_each (enumerable_keys s) (fun key => with_own_row key (body key)) s
  = (Throw type_error, s, []).
Proof.
  intros Hg. unfold enumerable_keys.
  destruct (JsObject.keys (_locations s)) as [|k l] eqn:Hkeys.
  - exfalso. unfold JsObject.hasOwnProperty in Hg.
    destruct (JsObject.get "hasOwnProperty" (_locations s)) eqn:Hget; [|discriminate].
    apply JsObjectFacts.get_Some_In in Hget. now rewrite Hkeys in Hget.
  - cbn [app]. unfold for_each; fold for_each.
    erewrite bind_Throw by (now apply with_own_row_throws). reflexivity.
Qed.

Lemma count_calls_replay callback key (entries : JsObject.t LocationDict) :
  NoDup (JsObject.keys entries) ->
  count_calls callback key
    (map (replay_call callback) (filter (fun kd => isInQuery (snd kd)) entries))
  = match JsObject.get key entries with
    | Some d => if isInQuery d then 1 else 0
    | None => 0
    end.
Proof.
  unfold count_calls.
  induction entries as [|[k d] entries IH]; intros Hnd; [reflexivity|].
  rewrite JsObjectFacts.keys_cons in Hnd. inversion Hnd as [|? ? Hnin Hnd']; subst.
  rewrite JsObjectFacts.get_cons. cbn [filter snd].
  specialize (IH Hnd').
  destruct (String.eqb_spec k key) as [->|Hne].
  - assert (Hnone : JsObject.get key entries = None).
    { destruct (JsObject.get key entries) eqn:E; auto.
      exfalso. apply Hnin. eapply JsObjectFacts.get_Some_In; eauto. }
    rewrite Hnone in IH.
    destruct (isInQuery d); auto.
    cbn [map filter replay_call is_Call fst].
    rewrite Nat.eqb_refl, String.eqb_refl. cbn [andb List.length]. now rewrite IH.
  - destruct (isInQuery d); auto.
    cbn [map filter replay_call is_Call fst].
    replace (String.eqb k key) with false by (symmetry; now apply String.eqb_neq).
    now rewrite andb_false_r.
Qed.

(** X24. On a table with no row under ["hasOwnProperty"], registering a
    [key_entered] listener appends it to the list of [key_entered]
    callbacks and, before [on] returns, invokes it, and no other callback,
    once for each tracked key flagged in-query (with the location and
    distance stored for the key, in the order [for..in] enumerates the
    table) and for no key flagged out of the query; nothing else changes
    and no event fires. *)
Theorem key_entered_listener_replay (callback : Callback) (s : State) :
  NoDup (JsObject.keys (_locations s)) ->
  guard_intact s ->
  let r := on "key_entered" callback s in
  completion_of r = Normal tt /\
  state_of r = set_callbacks
                 (set_callbacks_of key_entered
                    (cb_key_entered (_callbacks s) ++ [callback]) (_callbacks s)) s /\
  effects_of r = map (replay_call callback)
                     (filter (fun kd => isInQuery (snd kd)) (_locations s)) /\
  forall key, count_calls callback key (effects_of r) = if in_query key s then 1 else 0.
Proof.
  intros Hnd Hg.
  assert (Hon : on "key_entered" callback s =
    (Normal tt,
     set_callbacks (set_callbacks_of key_entered
                      (cb_key_entered (_callbacks s) ++ [callback]) (_callbacks s)) s,
     map (replay_call callback) (filter (fun kd => isInQuery (snd kd)) (_locations s)))).
  { apply wp_eq. unfold on.
    change (EventType_of_string "key_entered") with (Some key_entered).
    cbv iota beta.
    apply wp_bind, wp_modify. apply wp_bind. apply wp_bind, wp_gets.
    eapply wp_of_eq.
    - eapply for_each_enumerable.
      + unfold JsObject.keys. apply replay_loop; [exact Hg|].
        intros k d HIn. state_simpl. now apply JsObjectFacts.get_In_NoDup.
      + apply skipped_loop; [exact Hg|]. intros k Hk.
        now apply inherited_keys_not_own in Hk.
    - rewrite app_nil_r. apply wp_ret. reflexivity. }
  cbv zeta. rewrite Hon. cbn [state_of completion_of effects_of fst snd].
  repeat split. intros key. rewrite count_calls_replay by exact Hnd.
  unfold in_query. destruct (JsObject.get key (_locations s)); reflexivity.
Qed.

(** The children were added in the order ["b"], ["10"], ["9"]; the
    listener hears of ["9"], ["10"], ["b"]. *)
Lemma key_entered_listener_replay_witness :
  JsObject.keys (_locations demo_numbered) = ["9"; "10"; "b"] /\
  effects_of (on "key_entered" 7 demo_numbered) =
    [Call 7 "9" (Some origin) (Some 0%float);
     Call 7 "10" (Some origin) (Some 0%float);
     Call 7 "b" (Some origin) (Some 0%float)] /\
  let r := on "key_entered" 7 demo_numbered in
  completion_of r = Normal tt /\
  state_of r = set_callbacks
                 (set_callbacks_of key_entered
                    (cb_key_entered (_callbacks demo_numbered) ++ [7])
                    (_callbacks demo_numbered)) demo_numbered /\
  effects_of r = map (replay_call 7)
                     (filter (fun kd => isInQuery (snd kd)) (_locations demo_numbered)) /\
  forall key, count_calls 7 key (effects_of r)
              = if in_query key demo_numbered then 1 else 0.
Proof.
  split; [reflexivity|]. split; [vm_compute; reflexivity|].
  apply (@key_entered_listener_replay 7 demo_numbered).
  - vm_compute. repeat constructor; simpl; intuition discriminate.
  - reflexivity.
Defined.

(** C6. The replay fails once a key named ["hasOwnProperty"] is tracked:
    the loop of [on] asks [_locations.hasOwnProperty(key)], which is then
    that key's row and not a function.  The listener is registered, the
    call throws a [TypeError] at the first key, and the listener is invoked
    for no key, in-query or not. *)
Theorem key_entered_listener_replay_throws (callback : Callback) (s : State) :
  JsObject.hasOwnProperty "hasOwnProperty" (_locations s) = true ->
  let r := on "key_entered" callback s in
  completion_of r = Throw type_error /\
  state_of r = set_callbacks
                 (set_callbacks_of key_entered
                    (cb_key_entered (_callbacks s) ++ [callback]) (_callbacks s)) s /\
  effects_of r = [] /\
  forall key, count_calls callback key (effects_of r) = 0.
Proof.
  intros Hg.
  assert (Hon : on "key_entered" callback s =
    (Throw type_error,
     set_callbacks (set_callbacks_of key_entered
                      (cb_key_entered (_callbacks s) ++ [callback]) (_callbacks s)) s,
     [])).
  { unfold on.
    change (EventType_of_string "key_entered") with (Some key_entered).
    cbv iota beta.
    erewrite bind_Normal by reflexivity.
    cbn [state_of completion_of effects_of fst snd app].
    match goal with
    | |- context [completion_of (?m ?s1)] =>
        assert (Hthrows : m s1 = (Throw type_error, s1, []))
    end.
    { erewrite bind_Throw; [reflexivity|].
      erewrite bind_Normal by reflexivity.
      cbn [state_of completion_of effects_of fst snd app].
      rewrite (@shadowed_loop (fun key locationDict =>
                 if isInQuery locationDict then
                   perform (Call callback key (Some (location locationDict))
                              (Some (distanceFromCenter locationDict)))
                 else ret tt)) by exact Hg.
      reflexivity. }
    rewrite Hthrows. reflexivity. }
  cbv zeta. rewrite Hon. cbn [state_of completion_of effects_of fst snd].
  repeat split.
Qed.

(** The tracked key ["hasOwnProperty"] is in the query, and the new
    listener hears of no key. *)
Lemma key_entered_listener_replay_throws_witness :
  in_query "hasOwnProperty" demo_shadowed = true /\
  in_query "a" demo_shadowed = true /\
  let r := on "key_entered" 7 demo_shadowed in
  completion_of r = Throw type_error /\
  state_of r = set_callbacks
                 (set_callbacks_of key_entered
                    (cb_key_entered (_callbacks demo_shadowed) ++ [7])
                    (_callbacks demo_shadowed)) demo_shadowed /\
  effects_of r = [] /\
  forall key, count_calls 7 key (effects_of r) = 0.
Proof.
  split; [reflexivity|]. split; [reflexivity|].
  apply (@key_entered_listener_replay_throws 7 demo_shadowed).
  reflexivity.
Defined.

(** * After [cancel] *)

(** Splits a computation into the statements it is made of. *)
Ltac keeps_statements leaf :=
  repeat first
    [ progress cbv zeta
    | progress unfold _childAddedCallback, _childChangedCallback, _childRemovedCallback,
        _childRemovedCallback_value, _checkIfShouldFireReadyEvent,
        _cleanUpCurrentGeohashesQueried, interval_callback, _updateLocation,
        updateCriteria, _listenForNewGeohashes, registration_cancel, cancel,
        _geoQueryOff, setTimeout, clearTimeout, with_own_row,
        _locations_hasOwnProperty, _locations_assign
    | apply keeps__stringToQuery
    | apply keeps_pure; intros ?; apply _geohashInSomeQuery_pure
    | leaf
    | keeps_step ].

Section AfterCancel.

Variable X : Collaborators.

Lemma silent_fire t key loc dist : keeps silent (_fireCallbacksForKey t key loc dist).
Proof.
  apply wp_keeps. intros s h [Hc Hh]. unfold _fireCallbacksForKey.
  apply wp_bind, wp_perform, wp_bind, wp_gets. rewrite Hc.
  replace (callbacks_of t no_callbacks) with (@nil Callback) by now destruct t.
  apply wp_ret. split; auto. apply Forall_app; split; auto.
Qed.

Lemma silent_ready : keeps silent _fireReadyEventCallbacks.
Proof.
  apply wp_keeps. intros s h [Hc Hh]. unfold _fireReadyEventCallbacks.
  apply wp_bind, wp_perform, wp_bind, wp_gets. rewrite Hc.
  apply wp_ret. split; auto. apply Forall_app; split; auto.
Qed.

Lemma silent_modify (f : State -> State) :
  (forall s, _callbacks s = no_callbacks -> _callbacks (f s) = no_callbacks) ->
  keeps silent (modify f).
Proof. intros Hf. apply keeps_modify. intros s h [Hc Hh]. split; auto. Qed.

Lemma silent_perform (e : Effect) :
  invokes_callback e = false -> keeps silent (perform e).
Proof.
  intros He. apply keeps_perform. intros s h [Hc Hh]. split; auto.
  apply Forall_app; split; auto.
Qed.

Ltac silent_leaf :=
  first
    [ apply silent_fire
    | apply silent_ready
    | apply silent_perform; reflexivity
    | apply silent_modify; intros ? ?; state_simpl; assumption ].

(** Whatever happens to an instance without callbacks, short of a listener
    being registered, invokes none and registers none. *)
Lemma silent_handle (i : Input X) : registers_listener i = false -> keeps silent (handle i).
Proof.
  destruct i; cbn [registers_listener handle]; intros Hi; try discriminate;
    try (keeps_statements silent_leaf; fail).
  - (* the registration handle *)
    unfold registration_cancel. apply silent_modify. intros s Hc. state_simpl.
    rewrite Hc. now destruct t.
  - (* cancel, again *)
    keeps_statements silent_leaf.
    all: try (apply silent_modify; intros; reflexivity).
Qed.

Lemma silent_cancel s :
  silent (state_of (cancel s)) (effects_of (cancel s)).
Proof.
  unfold cancel. rewrite state_of_bind, effects_of_bind.
  cbn [modify completion_of state_of effects_of fst snd app].
  match goal with
  | |- silent (state_of (?m ?s0)) (effects_of (?m ?s0)) =>
      assert (Hk : keeps silent m)
  end.
  { keeps_statements silent_leaf. }
  apply (Hk _ []). split; [reflexivity | constructor].
Qed.

End AfterCancel.

(** C8. Once [cancel] has run, whatever Firebase still delivers (child
    events, range values, completions of point reads issued before the
    cancellation), whatever timer elapses and whatever the client calls
    other than [on], no callback of any event type is invoked: neither by
    [cancel] itself nor ever after. *)
Theorem no_callback_after_cancel (X : Collaborators) (s : State) (inputs : list (Input X)) :
  Forall (fun i => registers_listener i = false) inputs ->
  Forall (fun e => invokes_callback e = false)
         (effects_of (cancel s) ++ snd (run inputs (state_of (cancel s)))).
Proof.
  intros Hinputs.
  assert (Hrun : forall (l : list (Input X)) s0 h,
             Forall (fun i => registers_listener i = false) l ->
             silent s0 h -> silent (fst (run l s0)) (h ++ snd (run l s0))).
  { induction l as [|i l IH]; intros s0 h Hl Hs; cbn [run fst snd].
    - now rewrite app_nil_r.
    - inversion Hl as [|? ? Hi Hl']; subst. rewrite app_assoc.
      apply IH; auto. now apply silent_handle. }
  apply (Hrun inputs _ _ Hinputs (silent_cancel s)).
Qed.

Lemma no_callback_after_cancel_witness :
  Forall (fun e => invokes_callback e = false)
    (effects_of (cancel demo_tracking) ++
     snd (run [firebase_child_value "a" (demo_snapshot "a" None);
               firebase_child_added (demo_snapshot "c" (Some origin));
               firebase_query_value;
               call_updateCriteria (mkCriteria None (Some 500%float))]
              (state_of (cancel demo_tracking)))).
Proof.
  apply (@no_callback_after_cancel demo demo_tracking).
  repeat constructor.
Defined.

(** * Invariants of an instance *)

Lemma stable_modify (I : State -> Prop) (f : State -> State) :
  (forall s, I s -> I (f s)) -> stable I (modify f).
Proof. intros Hf. apply keeps_modify. auto. Qed.

Lemma stable_perform (I : State -> Prop) (e : Effect) : stable I (perform e).
Proof. apply keeps_perform. auto. Qed.

(** Firing an event returns, and changes nothing. *)
Lemma _fireCallbacksForKey_returns t key loc dist s :
  exists o, _fireCallbacksForKey t key loc dist s = (Normal tt, s, o).
Proof.
  unfold _fireCallbacksForKey.
  erewrite bind_Normal by reflexivity. erewrite bind_Normal by reflexivity.
  cbn [state_of completion_of effects_of fst snd].
  destruct loc; rewrite for_each_perform; eexists; reflexivity.
Qed.

Lemma _fireReadyEventCallbacks_returns s :
  exists o, _fireReadyEventCallbacks s = (Normal tt, s, o).
Proof.
  unfold _fireReadyEventCallbacks.
  erewrite bind_Normal by reflexivity. erewrite bind_Normal by reflexivity.
  cbn [state_of completion_of effects_of fst snd].
  rewrite for_each_perform; eexists; reflexivity.
Qed.

Lemma stable_fire (I : State -> Prop) t key loc dist :
  stable I (_fireCallbacksForKey t key loc dist).
Proof.
  intros s h H. destruct (_fireCallbacksForKey_returns t key loc dist s) as [o ->].
  exact H.
Qed.

Lemma stable_ready (I : State -> Prop) : stable I _fireReadyEventCallbacks.
Proof.
  intros s h H. destruct (_fireReadyEventCallbacks_returns s) as [o ->]. exact H.
Qed.

Lemma wp__fireCallbacksForKey t key loc dist
    (Q : unit -> State -> list Effect -> Prop) E s h :
  (forall o, Q tt s (h ++ o)) -> wp (_fireCallbacksForKey t key loc dist) Q E s h.
Proof.
  intros HQ. destruct (_fireCallbacksForKey_returns t key loc dist s) as [o Ho].
  unfold wp. rewrite Ho. apply HQ.
Qed.

Section Invariant.

Variable X : Collaborators.

Lemma guard_intact_delete key s :
  guard_intact s -> guard_intact (set_locations (JsObject.delete key (_locations s)) s).
Proof.
  unfold guard_intact, JsObject.hasOwnProperty. state_simpl. intros Hg.
  destruct (string_dec "hasOwnProperty" key) as [<-|Hne].
  - now rewrite JsObjectFacts.get_delete_same.
  - now rewrite JsObjectFacts.get_delete_other.
Qed.

Lemma guard_intact_set key d s :
  key <> "hasOwnProperty" ->
  guard_intact s -> guard_intact (set_locations (JsObject.set key d (_locations s)) s).
Proof.
  unfold guard_intact, JsObject.hasOwnProperty. state_simpl. intros Hne Hg.
  now rewrite JsObjectFacts.get_set_other by congruence.
Qed.

(** A key the table holds is not ["hasOwnProperty"] while the guard is
    intact. *)
Lemma guard_intact_own key d s :
  guard_intact s -> JsObject.get key (_locations s) = Some d -> key <> "hasOwnProperty".
Proof.
  unfold guard_intact, JsObject.hasOwnProperty. intros Hg Hget ->.
  now rewrite Hget in Hg.
Qed.

Lemma well_formed_delete_location key s :
  well_formed X s ->
  well_formed X (set_locations (JsObject.delete key (_locations s)) s).
Proof.
  intros (Hl & Hr & Hwf & Hc & Hg).
  split; [|split; [|split; [|split]]]; auto; state_simpl.
  - now apply JsObjectFacts.NoDup_keys_delete.
  - intros k d Hk. state_simpl. destruct (string_dec k key) as [->|Hne].
    + rewrite JsObjectFacts.get_delete_same in Hk. discriminate.
    + rewrite JsObjectFacts.get_delete_other in Hk by auto. now apply Hc in Hk.
  - now apply guard_intact_delete.
Qed.

Lemma well_formed_delete_range q s :
  well_formed X s ->
  well_formed X (set_currentGeohashesQueried
                   (JsObject.delete q (_currentGeohashesQueried s)) s).
Proof.
  intros (Hl & Hr & Hwf & Hc & Hg).
  split; [|split; [|split; [|split]]]; auto; state_simpl.
  - now apply JsObjectFacts.NoDup_keys_delete.
  - now apply Forall_keys_delete.
Qed.

Lemma well_formed_set_range q b s :
  well_formed_query_string q ->
  well_formed X s ->
  well_formed X (set_currentGeohashesQueried
                   (JsObject.set q b (_currentGeohashesQueried s)) s).
Proof.
  intros Hq (Hl & Hr & Hwf & Hc & Hg).
  split; [|split; [|split; [|split]]]; auto; state_simpl.
  - now apply JsObjectFacts.NoDup_keys_set.
  - now apply Forall_keys_set.
Qed.

Lemma well_formed_set_location key d s :
  key <> "hasOwnProperty" ->
  distanceFromCenter d = distance X (location d) (_center s) ->
  isInQuery d = PrimFloat.leb (distanceFromCenter d) (_radius s) ->
  well_formed X s ->
  well_formed X (set_locations (JsObject.set key d (_locations s)) s).
Proof.
  intros Hne Hd Hi (Hl & Hr & Hwf & Hc & Hg).
  split; [|split; [|split; [|split]]]; auto; state_simpl.
  - now apply JsObjectFacts.NoDup_keys_set.
  - intros k d' Hk. state_simpl. destruct (string_dec k key) as [->|Hne'].
    + rewrite JsObjectFacts.get_set_same in Hk. injection Hk as <-. auto.
    + rewrite JsObjectFacts.get_set_other in Hk by auto. now apply Hc in Hk.
  - now apply guard_intact_set.
Qed.

Lemma well_formed_set_prototype p s :
  well_formed X s -> well_formed X (set_locations_prototype p s).
Proof. intros H. exact H. Qed.

Lemma well_formed_no_locations s :
  well_formed X s -> well_formed X (set_locations_prototype None (set_locations JsObject.empty s)).
Proof.
  intros (Hl & Hr & Hwf & Hc & Hg).
  split; [|split; [|split; [|split]]]; auto; state_simpl.
  - constructor.
  - intros k d Hk. state_simpl. discriminate Hk.
  - reflexivity.
Qed.

End Invariant.

Lemma wp__stringToQuery_cases str (Q : string * string -> State -> list Effect -> Prop)
    E s h :
  (forall a b, split ":" str = [a; b] -> Q (a, b) s h) -> E s h ->
  wp (_stringToQuery str) Q E s h.
Proof.
  intros HQ HE. unfold wp, _stringToQuery.
  destruct (split ":" str) as [|a [|b [|c l]]]; cbn; rewrite app_nil_r; auto.
Qed.

(** Case analysis on the conditions of the code under [wp]. *)
Ltac wp_branches :=
  repeat match goal with
         | |- wp (if ?b then _ else _) _ _ _ _ => destruct b eqn:?
         end.

Section InvariantKept.

Variable X : Collaborators.

Lemma well_formed__updateLocation key loc :
  key <> "hasOwnProperty" ->
  stable (well_formed X) (_updateLocation X key loc).
Proof.
  intros Hne. apply wp_keeps. intros s h Hwf. unfold _updateLocation.
  destruct (validateLocation X loc); [|now apply wp_throw].
  apply wp_bind, wp__locations_hasOwnProperty; [intros _ | intros _; exact Hwf].
  apply wp_bind, wp_gets.
  apply wp_bind, wp__locations_hasOwnProperty; [intros _ | intros _; exact Hwf].
  apply wp_bind, wp_gets, wp_bind, wp_gets, wp_bind, wp__locations_assign.
  match goal with
  | |- wp _ _ _ ?s2 _ => assert (Hset : well_formed X s2)
  end.
  { destruct (String.eqb key "__proto__" &&
              negb (JsObject.hasOwnProperty key (_locations s))); [exact Hwf|].
    apply well_formed_set_location; auto. }
  wp_branches; first [apply wp__fireCallbacksForKey; intros o; exact Hset
                     | apply wp_ret; exact Hset].
Qed.

Lemma well_formed__listenForNewGeohashes :
  stable (well_formed X) (_listenForNewGeohashes X).
Proof.
  apply wp_keeps. intros s h Hwf. unfold _listenForNewGeohashes.
  apply wp_bind, wp_modify, wp_bind, wp_modify, wp_bind, wp_gets, wp_bind.
  apply mark_loop_frame with
    (K := JsObject.keys (_currentGeohashesQueried s)) (P := well_formed X);
    auto using incl_refl.
  - intros s' q b Hs' Hq. apply well_formed_set_range; auto.
    destruct Hs' as (_ & _ & Hreg & _). unfold registry_well_formed in Hreg.
    rewrite Forall_forall in Hreg. auto.
  - intros s1 Hs1 _. apply wp_bind, wp_gets, wp_bind, wp_gets, wp_bind.
    apply wp_mono with (Q := fun _ s' _ => well_formed X s')
                       (E := fun s' _ => well_formed X s').
    + wp_branches; [|now apply wp_ret].
      unfold setTimeout. repeat (wp_step; cbv beta). exact Hs1.
    + intros [] s2 h2 Hs2. apply wp_bind, wp_modify, wp_bind, wp_gets.
      apply wp_mono with (Q := fun _ s' _ => well_formed X s')
                         (E := fun s' _ => well_formed X s'); auto.
      apply (wp_for_each (fun _ s' (_ : list Effect) => well_formed X s')); [|exact Hs2].
      intros x l s3 h3 Hs3.
      apply wp_bind, wp__stringToQuery_cases; [|exact Hs3].
      intros a b Hsplit. repeat (wp_step; cbv beta).
      apply well_formed_set_range; auto. now exists a, b.
    + auto.
Qed.

Lemma well_formed_updateCriteria newQueryCriteria :
  stable (well_formed X) (updateCriteria X newQueryCriteria).
Proof.
  apply wp_keeps. intros s h (Hl & Hr & Hreg & Hc & Hg). unfold updateCriteria.
  destruct (validateCriteria X newQueryCriteria false); [|now apply wp_throw].
  apply wp_bind, wp_modify, wp_bind, wp_gets. state_simpl.
  set (c' := match center newQueryCriteria with Some c => c | None => _center s end).
  set (r' := match radius newQueryCriteria with
             | Some r => if js_truthy r then r else _radius s
             | None => _radius s
             end).
  apply wp_bind.
  apply wp_mono with (Q := fun _ s' _ => well_formed X s')
                     (E := fun s' _ => well_formed X s').
  - eapply wp_mono.
    + apply (wp_for_each
        (fun l s' (_ : list Effect) =>
           _center s' = c' /\ _radius s' = r' /\
           NoDup (JsObject.keys (_locations s')) /\
           NoDup (JsObject.keys (_currentGeohashesQueried s')) /\
           registry_well_formed s' /\ guard_intact s' /\
           forall k d, JsObject.get k (_locations s') = Some d ->
             In k l \/
             (distanceFromCenter d = distance X (location d) c' /\
              isInQuery d = PrimFloat.leb (distanceFromCenter d) r'))).
      * intros x l s1 h1 (Hc1 & Hr1 & Hl1 & Hq1 & Hreg1 & Hg1 & Hrows).
        apply wp_with_own_row;
          [intros _ | unfold guard_intact in Hg1; intros Hg'; congruence].
        destruct (JsObject.get x (_locations s1)) as [ld|] eqn:Hx.
        -- apply wp_bind, wp_gets, wp_bind, wp_gets, wp_bind, wp_modify.
           rewrite Hc1, Hr1.
           match goal with
           | |- wp _ _ _ ?s2 _ =>
               assert (Hpost : _center s2 = c' /\ _radius s2 = r' /\
                 NoDup (JsObject.keys (_locations s2)) /\
                 NoDup (JsObject.keys (_currentGeohashesQueried s2)) /\
                 registry_well_formed s2 /\ guard_intact s2 /\
                 forall k d, JsObject.get k (_locations s2) = Some d ->
                   In k l \/
                   (distanceFromCenter d = distance X (location d) c' /\
                    isInQuery d = PrimFloat.leb (distanceFromCenter d) r'))
           end.
           { split; [|split; [|split; [|split; [|split; [|split]]]]]; state_simpl; auto.
             - now apply JsObjectFacts.NoDup_keys_set.
             - apply guard_intact_set; [|exact Hg1].
               eapply guard_intact_own; eauto.
             - intros k d Hk. destruct (string_dec k x) as [->|Hne].
               + rewrite JsObjectFacts.get_set_same in Hk. injection Hk as <-.
                 right. cbn. auto.
               + rewrite JsObjectFacts.get_set_other in Hk by auto.
                 destruct (Hrows k d Hk) as [[E|HIn]|Hok]; auto. congruence. }
           wp_branches; first [apply wp__fireCallbacksForKey; intros o; exact Hpost
                              | apply wp_ret; exact Hpost].
        -- split; [|split; [|split; [|split; [|split; [|split]]]]]; auto.
           intros k d Hk. destruct (Hrows k d Hk) as [[E|HIn]|Hok]; auto. congruence.
      * split; [|split; [|split; [|split; [|split; [|split]]]]]; state_simpl; auto.
        intros k d Hk. left. unfold enumerable_keys. apply in_or_app. left.
        state_simpl. eapply JsObjectFacts.get_Some_In; eauto.
    + intros a s1 h1 (Hc1 & Hr1 & Hl1 & Hq1 & Hreg1 & Hg1 & Hrows).
      split; [|split; [|split; [|split]]]; auto.
      intros key d H. split.
      * rewrite Hc1. destruct (Hrows key d H) as [[]|[Hd _]]; auto.
      * rewrite Hr1. destruct (Hrows key d H) as [[]|[_ Hi]]; auto.
    + intros s' h' HE. exact HE.
  - intros [] s1 h1 Hs1. apply wp_bind, wp_modify.
    apply keeps_wp with (J := fun s' _ => well_formed X s'); auto.
    apply well_formed__listenForNewGeohashes.
  - auto.
Qed.

Ltac well_formed_leaf :=
  first
    [ apply stable_fire
    | apply stable_ready
    | apply stable_perform
    | apply well_formed_updateCriteria
    | apply stable_modify; intros ? ?;
      first [ assumption
            | now apply well_formed_delete_location
            | now apply well_formed_delete_range
            | now apply well_formed_no_locations ] ].

(** The invariant is kept by every input but the arrival of a child named
    ["hasOwnProperty"], whose row takes the place of the guard. *)
Lemma well_formed_handle (i : Input X) :
  delivers "hasOwnProperty" i = false -> stable (well_formed X) (handle i).
Proof.
  destruct i as [d|d|d|key d| | | |c|eventType callback|t callback|];
    cbn [handle delivers]; intros Hi; unfold stable;
    try (keeps_statements well_formed_leaf; fail).
  - (* child_added *)
    unfold _childAddedCallback. destruct (decodeGeofireObject X (val d)); [|apply keeps_ret].
    apply well_formed__updateLocation. now apply String.eqb_neq.
  - (* child_changed *)
    unfold _childChangedCallback. destruct (decodeGeofireObject X (val d)); [|apply keeps_ret].
    apply well_formed__updateLocation. now apply String.eqb_neq.
  - (* on *)
    unfold on. destruct (EventType_of_string eventType) as [t|]; [|apply keeps_throw].
    apply keeps_bind; [apply stable_modify; intros s Hs; exact Hs | intros _].
    apply keeps_bind; [|intros _]; destruct t; keeps_statements well_formed_leaf.
Qed.

(** Every state of an instance that was delivered no child named
    ["hasOwnProperty"] is well formed. *)
Lemma well_formed_reachable (c : Criteria) s0 o0 (inputs : list (Input X)) :
  GeoQuery X c = Some (s0, o0) ->
  Forall (fun i => delivers "hasOwnProperty" i = false) inputs ->
  well_formed X (fst (run inputs s0)).
Proof.
  intros Hnew Hinputs.
  assert (H0 : well_formed X s0).
  { unfold GeoQuery in Hnew.
    assert (Hwp : wp (constructor X c) (fun _ s' _ => well_formed X s')
                     (fun _ _ => True) declared []).
    { unfold constructor.
      apply wp_bind, wp_gets, wp_bind, wp_modify, wp_bind, wp_perform, wp_bind, wp_modify.
      destruct (validateCriteria X c true); [|now apply wp_throw].
      destruct (center c) as [c0|]; [|now apply wp_throw].
      destruct (radius c) as [r0|]; [|now apply wp_throw].
      apply wp_bind, wp_modify.
      eapply wp_mono; [apply keeps_wp with (J := fun s' _ => well_formed X s');
                       [apply well_formed__listenForNewGeohashes|] | auto | auto].
      split; [constructor | split; [constructor | split; [constructor | split]]].
      - intros k d Hk. discriminate Hk.
      - reflexivity. }
    unfold wp in Hwp.
    destruct (constructor X c declared) as [[[a|e] s1] o1]; [|discriminate].
    injection Hnew as <- <-. exact Hwp. }
  exact (@keeps_run_when X (fun s _ => well_formed X s) _ well_formed_handle
           inputs s0 [] Hinputs H0).
Qed.

End InvariantKept.

(** With a row stored under ["hasOwnProperty"], [updateCriteria] takes the
    new center and radius and throws at the first key of its loop: no row
    is reassessed, nothing fires, and neither the ready state nor the
    coverage is touched. *)
Lemma updateCriteria_throws (X : Collaborators) (newQueryCriteria : Criteria) (s : State) :
  validateCriteria X newQueryCriteria false = true ->
  JsObject.hasOwnProperty "hasOwnProperty" (_locations s) = true ->
  updateCriteria X newQueryCriteria s =
  (Throw type_error,
   set_center_radius
     (match center newQueryCriteria with Some c => c | None => _center s end)
     (match radius newQueryCriteria with
      | Some r => if js_truthy r then r else _radius s
      | None => _radius s
      end) s,
   []).
Proof.
  intros Hv Hg. unfold updateCriteria. rewrite Hv.
  erewrite bind_Normal by reflexivity.
  cbn [state_of completion_of effects_of fst snd app].
  match goal with
  | |- context [completion_of (?m ?s1)] =>
      assert (Hthrows : m s1 = (Throw type_error, s1, []))
  end.
  { erewrite bind_Normal by reflexivity.
    cbn [state_of completion_of effects_of fst snd app].
    erewrite bind_Throw; [reflexivity|].
    match goal with
    | |- for_each _ (fun key => with_own_row key (@?body key)) _ = _ =>
        rewrite (@shadowed_loop body) by exact Hg
    end.
    reflexivity. }
  rewrite Hthrows. reflexivity.
Qed.

(** A table whose rows all have [isInQuery] as the radius says. *)
Lemma locations_consistent_of_rows (s : State) :
  Forall (fun kd => isInQuery (snd kd)
                    = PrimFloat.leb (distanceFromCenter (snd kd)) (_radius s))
         (_locations s) ->
  locations_consistent s.
Proof.
  intros Hrows key d Hget. rewrite Forall_forall in Hrows.
  exact (Hrows (key, d) (JsObjectFacts.get_Some_In_entry _ _ Hget)).
Qed.

(** X25. In every state of an instance that was delivered no child named
    ["hasOwnProperty"], that is after its construction and after every
    input handled since (location updates, criteria updates, removal
    resolutions, cleanup passes, and the rest), every entry of the location
    table has [isInQuery] equal to [distanceFromCenter <= _radius], for the
    radius the instance then has. *)
Theorem locations_stay_consistent (X : Collaborators) (c : Criteria) (s0 : State)
    (o0 : list Effect) (inputs : list (Input X)) :
  GeoQuery X c = Some (s0, o0) ->
  Forall (fun i => delivers "hasOwnProperty" i = false) inputs ->
  locations_consistent (fst (run inputs s0)).
Proof.
  intros Hnew Hinputs key d Hget.
  destruct (@well_formed_reachable X c s0 o0 inputs Hnew Hinputs)
    as (_ & _ & _ & Hcurrent & _).
  now apply Hcurrent in Hget.
Qed.

Lemma locations_stay_consistent_witness :
  locations_consistent
    (fst (run [firebase_child_added (demo_snapshot "a" (Some origin));
               firebase_child_added (demo_snapshot "b" (Some (0%float, 2%float)));
               call_updateCriteria (mkCriteria None (Some 500%float));
               firebase_child_removed (demo_snapshot "a" None);
               firebase_child_value "a" (demo_snapshot "a" None);
               interval_elapsed]
              demo_query)).
Proof.
  eapply (@locations_stay_consistent demo
            (mkCriteria (Some origin) (Some 1%float)) demo_query).
  - vm_compute. reflexivity.
  - repeat constructor.
Defined.

(** ** The order of the table

    The list that stands for [_locations] stays in the order [for ... in]
    enumerates the own properties of the object, whatever the instance is
    given. *)

Section EnumerationOrder.

Variable X : Collaborators.

Ltac for_in_order_leaf :=
  first
    [ apply stable_fire
    | apply stable_ready
    | apply stable_perform
    | apply stable_modify; intros ? ?; unfold for_in_order in *; state_simpl;
      first [ assumption
            | now apply sorted_set
            | now apply sorted_delete
            | constructor ] ].

Lemma for_in_order_handle (i : Input X) : stable for_in_order (handle i).
Proof.
  destruct i; cbn [handle]; unfold stable;
    try (keeps_statements for_in_order_leaf; fail).
  unfold on. destruct (EventType_of_string eventType) as [t|]; [|apply keeps_throw].
  apply keeps_bind; [apply stable_modify; intros s Hs; exact Hs | intros _].
  apply keeps_bind; [|intros _]; destruct t; keeps_statements for_in_order_leaf.
Qed.

(** Every state of an instance has its table in the order of
    enumeration. *)
Lemma for_in_order_reachable (c : Criteria) s0 o0 (inputs : list (Input X)) :
  GeoQuery X c = Some (s0, o0) -> for_in_order (fst (run inputs s0)).
Proof.
  intros Hnew.
  assert (H0 : for_in_order s0).
  { assert (Hk : stable for_in_order (constructor X c)).
    { unfold constructor, stable. keeps_statements for_in_order_leaf. }
    specialize (Hk declared [] (SSorted_nil _)).
    unfold GeoQuery in Hnew. unfold state_of in Hk.
    destruct (constructor X c declared) as [[[a|e] s1] o1]; [|discriminate].
    injection Hnew as <- <-. exact Hk. }
  exact (@keeps_run X (fun s _ => for_in_order s) for_in_order_handle inputs s0 [] H0).
Qed.

End EnumerationOrder.

(** C5. The invariant breaks once a key named ["hasOwnProperty"] is
    tracked.  A criteria update then stores the new center and radius and
    throws a [TypeError] at the first key of its loop, before any row is
    reassessed: the table is what it was, and every row whose flag
    disagrees with its stored distance and the new radius stays so. *)
Theorem criteria_update_leaves_flags_stale (X : Collaborators) (newQueryCriteria : Criteria)
    (s : State) (key : string) (d : LocationDict) :
  validateCriteria X newQueryCriteria false = true ->
  JsObject.hasOwnProperty "hasOwnProperty" (_locations s) = true ->
  JsObject.get key (_locations s) = Some d ->
  let r := updateCriteria X newQueryCriteria s in
  isInQuery d <> PrimFloat.leb (distanceFromCenter d) (_radius (state_of r)) ->
  completion_of r = Throw type_error /\
  effects_of r = [] /\
  _locations (state_of r) = _locations s /\
  _radius (state_of r) = match radius newQueryCriteria with
                         | Some r' => if js_truthy r' then r' else _radius s
                         | None => _radius s
                         end /\
  ~ locations_consistent (state_of r).
Proof.
  intros Hv Hg Hget r. subst r.
  rewrite (updateCriteria_throws X newQueryCriteria s Hv Hg).
  cbn [state_of completion_of effects_of fst snd]. state_simpl.
  intros Hstale. repeat split.
  intros Hcons. apply Hstale. now apply (Hcons key d).
Qed.

(** Key ["b"], two degrees east of the center, is out of the query of
    radius 1; after the radius grows to 500 it should be in, but its flag
    still says out. *)
Lemma criteria_update_leaves_flags_stale_witness :
  locations_consistent demo_shadowed /\
  let r := updateCriteria demo (mkCriteria None (Some 500%float)) demo_shadowed in
  completion_of r = Throw type_error /\
  effects_of r = [] /\
  _locations (state_of r) = _locations demo_shadowed /\
  _radius (state_of r) = 500%float /\
  ~ locations_consistent (state_of r).
Proof.
  split.
  - apply locations_consistent_of_rows. vm_compute. repeat constructor.
  - destruct (JsObject.get "b" (_locations demo_shadowed)) as [d|] eqn:Hb;
      [|vm_compute in Hb; discriminate].
    apply (@criteria_update_leaves_flags_stale demo (mkCriteria None (Some 500%float))
             demo_shadowed "b" d).
    + reflexivity.
    + reflexivity.
    + exact Hb.
    + vm_compute in Hb. injection Hb as <-. vm_compute. discriminate.
Defined.

(** * Entries and exits alternate *)

Section EnterExit.

Lemma enter_exit_app key inside h o :
  enter_exit key inside (h ++ o) =
  match enter_exit key inside h with
  | Some inside' => enter_exit key inside' o
  | None => None
  end.
Proof.
  revert inside. induction h as [|e h IH]; intros inside; cbn [app enter_exit]; auto.
  destruct (is_Fire key_entered key e); [destruct inside; auto|].
  destruct (is_Fire key_exited key e); auto.
Qed.

Lemma enter_exit_quiet key inside o :
  Forall (fun e => is_transition e = false) o -> enter_exit key inside o = Some inside.
Proof.
  induction 1 as [|e o He Ho IH]; cbn [enter_exit]; auto.
  destruct e; try discriminate; cbn [is_Fire]; auto.
  destruct t; try discriminate; cbn [EventType_eqb andb]; auto.
Qed.

Lemma enter_exit_other_key key key' t loc dist inside o :
  key' <> key ->
  enter_exit key inside (Fire t key' loc dist :: o) = enter_exit key inside o.
Proof.
  intros Hne. cbn [enter_exit is_Fire].
  replace (String.eqb key' key) with false by (symmetry; now apply String.eqb_neq).
  now rewrite !andb_false_r.
Qed.

(** While the key is inside and nothing takes it out, a second entry is
    seen. *)
Lemma enter_exit_inside key h l d rest :
  Forall (fun e => is_Fire key_exited key e = false) h ->
  enter_exit key true (h ++ Fire key_entered key l d :: rest) = None.
Proof.
  induction 1 as [|e h He Hh IH]; cbn [app enter_exit].
  - cbn [is_Fire EventType_eqb andb]. now rewrite String.eqb_refl.
  - destruct (is_Fire key_entered key e); auto. now rewrite He.
Qed.

(** A history the reading accepts has no duplicate entry. *)
Lemma enter_exit_no_duplicate key inside inside' h :
  enter_exit key inside h = Some inside' -> ~ duplicate_enter key h.
Proof.
  intros Hread (h1 & h2 & h3 & l1 & d1 & l2 & d2 & -> & Hquiet).
  rewrite enter_exit_app in Hread.
  destruct (enter_exit key inside h1) as [b|]; [|discriminate].
  cbn [enter_exit is_Fire EventType_eqb andb] in Hread.
  rewrite String.eqb_refl in Hread.
  destruct b; [discriminate|].
  now rewrite enter_exit_inside in Hread.
Qed.

End EnterExit.

Section Alternation.

Variable X : Collaborators.

Lemma in_query_frame key s s' :
  _locations s' = _locations s -> in_query key s' = in_query key s.
Proof. unfold in_query. now intros ->. Qed.

Lemma alternating_quiet s s' h o :
  alternating s h -> _locations s' = _locations s ->
  Forall (fun e => is_transition e = false) o ->
  alternating s' (h ++ o).
Proof.
  intros H Hloc Ho key Hkey. rewrite enter_exit_app, H, enter_exit_quiet by auto.
  now rewrite (@in_query_frame key s s' Hloc).
Qed.

(** One key changes sides, and the event fired, if any, says so. *)
Lemma alternating_step key s s' h o :
  alternating s h ->
  (forall k, k <> key -> in_query k s' = in_query k s) ->
  (forall k inside, k <> key -> enter_exit k inside o = Some inside) ->
  (key <> "__proto__" -> enter_exit key (in_query key s) o = Some (in_query key s')) ->
  alternating s' (h ++ o).
Proof.
  intros H Hothers Hquiet Hkey k Hk. rewrite enter_exit_app, H by exact Hk.
  destruct (string_dec k key) as [->|Hne]; auto.
  rewrite Hquiet by auto. now rewrite Hothers.
Qed.

(** What is fired about ["__proto__"] is no concern of the other keys. *)
Lemma alternating_elsewhere key s s' h o :
  alternating s h ->
  key = "__proto__" ->
  (forall k, k <> key -> in_query k s' = in_query k s) ->
  (forall k inside, k <> key -> enter_exit k inside o = Some inside) ->
  alternating s' (h ++ o).
Proof.
  intros H Hkey Hothers Hquiet. apply alternating_step with (key := key) (s := s); auto.
  intros Hne. now destruct Hne.
Qed.

Lemma _fireCallbacksForKey_shape t key loc dist s :
  exists calls,
    _fireCallbacksForKey t key loc dist s = (Normal tt, s, Fire t key loc dist :: calls)
    /\ Forall (fun e => is_transition e = false) calls.
Proof.
  unfold _fireCallbacksForKey.
  erewrite bind_Normal by reflexivity. erewrite bind_Normal by reflexivity.
  cbn [state_of completion_of effects_of fst snd].
  destruct loc; rewrite for_each_perform; eexists; (split; [reflexivity|]);
    apply Forall_forall; intros e He; apply in_map_iff in He;
    destruct He as (cb & <- & _); reflexivity.
Qed.

Lemma wp__fireCallbacksForKey_shape t key loc dist
    (Q : unit -> State -> list Effect -> Prop) E s h :
  (forall calls, Forall (fun e => is_transition e = false) calls ->
                 Q tt s (h ++ Fire t key loc dist :: calls)) ->
  wp (_fireCallbacksForKey t key loc dist) Q E s h.
Proof.
  intros HQ. destruct (_fireCallbacksForKey_shape t key loc dist s) as (calls & Hf & Hc).
  unfold wp. rewrite Hf. now apply HQ.
Qed.

Lemma enter_exit_fired_other t key loc dist calls k inside :
  Forall (fun e => is_transition e = false) calls -> k <> key ->
  enter_exit k inside (Fire t key loc dist :: calls) = Some inside.
Proof.
  intros Hc Hne. rewrite enter_exit_other_key by auto. now apply enter_exit_quiet.
Qed.

Lemma enter_exit_fired t key loc dist calls inside :
  Forall (fun e => is_transition e = false) calls ->
  enter_exit key inside (Fire t key loc dist :: calls) =
  match t with
  | key_entered => if inside then None else Some true
  | key_exited => Some false
  | _ => Some inside
  end.
Proof.
  intros Hc. cbn [enter_exit is_Fire]. rewrite String.eqb_refl.
  destruct t; cbn [EventType_eqb andb]; try (now apply enter_exit_quiet).
  destruct inside; auto. now apply enter_exit_quiet.
Qed.

Lemma in_query_set key k d s :
  in_query k (set_locations (JsObject.set key d (_locations s)) s) =
  if String.eqb k key then isInQuery d else in_query k s.
Proof.
  unfold in_query. state_simpl. destruct (String.eqb_spec k key) as [->|Hne].
  - now rewrite JsObjectFacts.get_set_same.
  - now rewrite JsObjectFacts.get_set_other.
Qed.

Lemma in_query_delete key k s :
  in_query k (set_locations (JsObject.delete key (_locations s)) s) =
  if String.eqb k key then false else in_query k s.
Proof.
  unfold in_query. state_simpl. destruct (String.eqb_spec k key) as [->|Hne].
  - now rewrite JsObjectFacts.get_delete_same.
  - now rewrite JsObjectFacts.get_delete_other.
Qed.

(** The event a change of side calls for, in the three places that fire
    one: the flag goes from [was] to [now] and [o] is what was fired. *)
Lemma alternating_change key s s' h o (was now : bool) :
  alternating s h ->
  in_query key s = was ->
  (forall k, in_query k s' = if String.eqb k key then now else in_query k s) ->
  (forall k inside, k <> key -> enter_exit k inside o = Some inside) ->
  enter_exit key was o = Some now ->
  alternating s' (h ++ o).
Proof.
  intros H Hwas Hs' Hquiet Hkey. apply alternating_step with (key := key) (s := s); auto.
  - intros k Hne. rewrite Hs'.
    now replace (String.eqb k key) with false by (symmetry; now apply String.eqb_neq).
  - intros _. rewrite Hwas, Hs', String.eqb_refl. exact Hkey.
Qed.

Lemma enter_exit_nil key inside : enter_exit key inside [] = Some inside.
Proof. reflexivity. Qed.

Lemma alternating__updateLocation key loc : keeps alternating (_updateLocation X key loc).
Proof.
  apply wp_keeps. intros s h H. unfold _updateLocation.
  destruct (validateLocation X loc); [|now apply wp_throw].
  apply wp_bind, wp__locations_hasOwnProperty; [intros _ | intros _; exact H].
  apply wp_bind, wp_gets.
  apply wp_bind, wp__locations_hasOwnProperty; [intros _ | intros _; exact H].
  apply wp_bind, wp_gets, wp_bind, wp_gets, wp_bind, wp__locations_assign.
  unfold JsObject.hasOwnProperty.
  set (now := PrimFloat.leb (distance X loc (_center s)) (_radius s)).
  assert (Hwas : in_query key s =
                 match JsObject.get key (_locations s) with
                 | Some d => isInQuery d
                 | None => false
                 end) by reflexivity.
  destruct (String.eqb key "__proto__" &&
            negb match JsObject.get key (_locations s) with
                 | Some _ => true
                 | None => false
                 end) eqn:Hproto.
  - (* the row becomes the prototype: the table is as it was *)
    apply andb_prop in Hproto. destruct Hproto as [Hk _]. apply String.eqb_eq in Hk.
    destruct (JsObject.get key (_locations s)) as [d|];
      wp_branches;
      first
        [ apply wp__fireCallbacksForKey_shape; intros calls Hcalls;
          apply alternating_elsewhere with (key := key) (s := s); auto;
          intros k inside Hne; now apply enter_exit_fired_other
        | apply wp_ret; rewrite <- (app_nil_r h);
          apply alternating_elsewhere with (key := key) (s := s); auto ].
  - destruct (JsObject.get key (_locations s)) as [d|];
      [set (was := isInQuery d) in * | set (was := false) in *];
      wp_branches;
      first
        [ apply wp__fireCallbacksForKey_shape; intros calls Hcalls;
          apply alternating_change with (key := key) (s := s) (was := was) (now := now);
          auto;
          [ intros k; apply in_query_set
          | intros k inside Hne; now apply enter_exit_fired_other
          | rewrite enter_exit_fired by auto;
            destruct was, now; try discriminate; reflexivity ]
        | apply wp_ret; rewrite <- (app_nil_r h);
          apply alternating_change with (key := key) (s := s) (was := was) (now := now);
          auto;
          [ intros k; apply in_query_set
          | destruct was, now; try discriminate; reflexivity ] ].
Qed.

Lemma alternating_modify (f : State -> State) :
  (forall s, _locations (f s) = _locations s) -> keeps alternating (modify f).
Proof.
  intros Hf. apply keeps_modify. intros s h H.
  rewrite <- (app_nil_r h). apply alternating_quiet with (s := s); auto.
Qed.

Lemma alternating_perform (e : Effect) :
  is_transition e = false -> keeps alternating (perform e).
Proof.
  intros He. apply keeps_perform. intros s h H.
  apply alternating_quiet with (s := s); auto.
Qed.

Lemma alternating_ready : keeps alternating _fireReadyEventCallbacks.
Proof.
  unfold _fireReadyEventCallbacks.
  apply keeps_bind; [now apply alternating_perform | intros _].
  apply keeps_bind; [apply keeps_gets | intros callbacks].
  apply keeps_for_each. intros cb _. now apply alternating_perform.
Qed.

Lemma alternating__childRemovedCallback_value key (snapshot : DataSnapshot X) :
  keeps alternating (_childRemovedCallback_value key snapshot).
Proof.
  apply wp_keeps. intros s h H. unfold _childRemovedCallback_value. cbv zeta.
  apply wp_bind.
  destruct (_geohashInSomeQuery_pure X
              match decodeGeofireObject X (val snapshot) with
              | Some l => Some (encodeGeohash X l None)
              | None => None
              end s) as [[covered|e] Hcov];
    [| unfold wp; rewrite Hcov; now rewrite app_nil_r].
  eapply wp_of_eq; [exact Hcov|].
  rewrite app_nil_r. destruct covered; [now apply wp_ret|].
  apply wp_bind, wp_gets, wp_bind, wp_modify.
  assert (Hwas : in_query key s =
                 match JsObject.get key (_locations s) with
                 | Some d => isInQuery d
                 | None => false
                 end) by reflexivity.
  unfold _locations_get.
  destruct (JsObject.get key (_locations s)) as [d|].
  - destruct (isInQuery d).
    + apply wp_bind, wp_gets. state_simpl.
      apply wp__fireCallbacksForKey_shape. intros calls Hcalls.
      apply alternating_change with (key := key) (s := s) (was := true) (now := false);
        auto.
      * intros k. apply in_query_delete.
      * intros k inside Hne. now apply enter_exit_fired_other.
      * now rewrite enter_exit_fired.
    + apply wp_ret. rewrite <- (app_nil_r h).
      apply alternating_change with (key := key) (s := s) (was := false) (now := false);
        auto.
      intros k. apply in_query_delete.
  - assert (Hquiet : alternating
                       (set_locations (JsObject.delete key (_locations s)) s) h).
    { rewrite <- (app_nil_r h).
      apply alternating_change with (key := key) (s := s) (was := false) (now := false);
        auto.
      intros k. apply in_query_delete. }
    destruct (String.eqb_spec key "__proto__") as [Hk|_]; [|now apply wp_ret].
    destruct (_locations_prototype s) as [d|]; [|now apply wp_ret].
    destruct (isInQuery d); [|now apply wp_ret].
    apply wp_bind, wp_gets. state_simpl.
    apply wp__fireCallbacksForKey_shape. intros calls Hcalls.
    apply alternating_elsewhere with
      (key := key) (s := set_locations (JsObject.delete key (_locations s)) s); auto.
    intros k inside Hne. now apply enter_exit_fired_other.
Qed.

Ltac alternating_leaf :=
  first
    [ apply alternating_ready
    | apply alternating__updateLocation
    | apply alternating__childRemovedCallback_value
    | apply alternating_perform; reflexivity
    | apply alternating_modify; intros ?; reflexivity ].

Lemma alternating__listenForNewGeohashes : keeps alternating (_listenForNewGeohashes X).
Proof. keeps_statements alternating_leaf. Qed.

Lemma alternating_updateCriteria newQueryCriteria :
  keeps alternating (updateCriteria X newQueryCriteria).
Proof.
  unfold updateCriteria.
  destruct (validateCriteria X newQueryCriteria false); [|apply keeps_throw].
  apply keeps_bind; [now apply alternating_modify | intros _].
  apply keeps_bind; [apply keeps_gets | intros keys].
  apply keeps_bind;
    [| intros _; apply keeps_bind;
       [now apply alternating_modify
       | intros _; apply alternating__listenForNewGeohashes]].
  apply keeps_for_each. intros key _.
  apply wp_keeps. intros s h H.
  apply wp_with_own_row; [intros _ | intros _; exact H].
  assert (Hwas : in_query key s =
                 match JsObject.get key (_locations s) with
                 | Some d => isInQuery d
                 | None => false
                 end) by reflexivity.
  destruct (JsObject.get key (_locations s)) as [d|]; [|exact H].
  apply wp_bind, wp_gets, wp_bind, wp_gets, wp_bind, wp_modify.
  set (now := PrimFloat.leb (distance X (location d) (_center s)) (_radius s)).
  set (was := isInQuery d) in *.
  wp_branches;
    first
      [ apply wp__fireCallbacksForKey_shape; intros calls Hcalls;
        apply alternating_change with (key := key) (s := s) (was := was) (now := now);
        auto;
        [ intros k; apply in_query_set
        | intros k inside Hne; now apply enter_exit_fired_other
        | rewrite enter_exit_fired by auto;
          destruct was, now; try discriminate; reflexivity ]
      | apply wp_ret; rewrite <- (app_nil_r h);
        apply alternating_change with (key := key) (s := s) (was := was) (now := now);
        auto;
        [ intros k; apply in_query_set
        | destruct was, now; try discriminate; reflexivity ] ].
Qed.

Lemma alternating_on eventType callback : keeps alternating (on eventType callback).
Proof.
  unfold on. destruct (EventType_of_string eventType) as [t|]; [|apply keeps_throw].
  apply keeps_bind; [now apply alternating_modify | intros _].
  apply keeps_bind; [|intros _]; destruct t; keeps_statements alternating_leaf.
Qed.

Lemma alternating_handle (i : Input X) :
  discards_entries i = false -> keeps alternating (handle i).
Proof.
  destruct i; cbn [discards_entries handle]; intros Hi; try discriminate.
  - unfold _childAddedCallback. keeps_statements alternating_leaf.
  - unfold _childChangedCallback. keeps_statements alternating_leaf.
  - keeps_statements alternating_leaf.
  - apply alternating__childRemovedCallback_value.
  - keeps_statements alternating_leaf.
  - apply alternating_updateCriteria.
  - apply alternating_on.
  - unfold registration_cancel. now apply alternating_modify.
Qed.

Lemma alternating_constructor c : keeps alternating (constructor X c).
Proof.
  unfold constructor.
  keeps_statements ltac:(first [ apply alternating__listenForNewGeohashes
                               | alternating_leaf ]).
Qed.

End Alternation.

(** ** The key ["__proto__"] *)

Section PrototypeKey.

Variable X : Collaborators.

(** An update for ["__proto__"] inside the query: the row becomes the
    prototype of the table, no own property is stored, and [key_entered]
    fires, whatever was delivered for the key before. *)
Lemma _updateLocation_prototype loc s :
  validateLocation X loc = true ->
  guard_intact s ->
  JsObject.get "__proto__" (_locations s) = None ->
  PrimFloat.leb (distance X loc (_center s)) (_radius s) = true ->
  exists calls,
    _updateLocation X "__proto__" loc s =
    (Normal tt,
     set_locations_prototype
       (Some (mkLocationDict loc (distance X loc (_center s)) true
                (encodeGeohash X loc (Some (g_GEOHASH_PRECISION X))))) s,
     Fire key_entered "__proto__" (Some loc) (Some (distance X loc (_center s))) :: calls)
    /\ Forall (fun e => is_transition e = false) calls.
Proof.
  intros Hv Hg Hget Hin.
  assert (Hwp : wp (_updateLocation X "__proto__" loc)
    (fun _ s' h' =>
       s' = set_locations_prototype
              (Some (mkLocationDict loc (distance X loc (_center s)) true
                       (encodeGeohash X loc (Some (g_GEOHASH_PRECISION X))))) s /\
       exists calls,
         h' = Fire key_entered "__proto__" (Some loc)
                (Some (distance X loc (_center s))) :: calls /\
         Forall (fun e => is_transition e = false) calls)
    (fun _ _ => False) s []).
  { unfold _updateLocation. rewrite Hv.
    apply wp_bind, wp__locations_hasOwnProperty;
      [intros _ | unfold guard_intact in Hg; congruence].
    apply wp_bind, wp_gets.
    apply wp_bind, wp__locations_hasOwnProperty;
      [intros _ | unfold guard_intact in Hg; congruence].
    apply wp_bind, wp_gets, wp_bind, wp_gets, wp_bind, wp__locations_assign.
    unfold JsObject.hasOwnProperty. rewrite Hget, Hin.
    cbn [String.eqb Ascii.eqb Bool.eqb andb negb].
    apply wp__fireCallbacksForKey_shape. intros calls Hcalls.
    split; [reflexivity|]. exists calls. split; [reflexivity | exact Hcalls]. }
  unfold wp in Hwp.
  destruct (_updateLocation X "__proto__" loc s) as [[[[]|e] s1] o1]; [|destruct Hwp].
  destruct Hwp as (-> & calls & Ho & Hcalls). cbn [app] in Ho. subst o1.
  exists calls. split; [reflexivity | exact Hcalls].
Qed.

Lemma no_exit_among_calls key calls :
  Forall (fun e => is_transition e = false) calls ->
  Forall (fun e => is_Fire key_exited key e = false) calls.
Proof.
  apply Forall_impl. intros e He. destruct e; auto.
  destruct t; try discriminate; reflexivity.
Qed.

End PrototypeKey.

(** X26. From the construction of an instance on, through every sequence
    of location updates (child added or changed), removal notifications and
    completions of their point reads, criteria updates, range values,
    listeners registered and unregistered, no key other than ["__proto__"]
    has [key_entered] fire twice without [key_exited] firing for it in
    between. *)
Theorem no_duplicate_enter (X : Collaborators) (c : Criteria) (s0 : State)
    (o0 : list Effect) (inputs : list (Input X)) (key : string) :
  GeoQuery X c = Some (s0, o0) ->
  Forall (fun i => discards_entries i = false) inputs ->
  key <> "__proto__" ->
  ~ duplicate_enter key (o0 ++ snd (run inputs s0)).
Proof.
  intros Hnew Hinputs Hkey.
  assert (H0 : alternating s0 o0).
  { unfold GeoQuery in Hnew.
    pose proof (@alternating_constructor X c declared [] (fun k _ => eq_refl)) as Hk.
    destruct (constructor X c declared) as [[[a|e] s1] o1]; [|discriminate].
    injection Hnew as <- <-. exact Hk. }
  assert (Hrun : forall (l : list (Input X)) s h,
             Forall (fun i => discards_entries i = false) l ->
             alternating s h -> alternating (fst (run l s)) (h ++ snd (run l s))).
  { induction l as [|i l IH]; intros s h Hl Hs; cbn [run fst snd].
    - now rewrite app_nil_r.
    - inversion Hl as [|? ? Hi Hl']; subst. rewrite app_assoc.
      apply IH; auto. now apply alternating_handle. }
  eapply enter_exit_no_duplicate. apply (Hrun inputs s0 o0 Hinputs H0). exact Hkey.
Qed.

Lemma no_duplicate_enter_witness :
  ~ duplicate_enter "a"
      (effects_of (constructor demo (mkCriteria (Some origin) (Some 1%float)) declared) ++
       snd (run [firebase_child_added (demo_snapshot "a" (Some origin));
                 firebase_child_added (demo_snapshot "hasOwnProperty" (Some origin));
                 firebase_child_changed (demo_snapshot "a" (Some (0%float, 2%float)));
                 firebase_child_changed (demo_snapshot "a" (Some origin));
                 call_updateCriteria (mkCriteria (Some ((-1)%float, (-1)%float)) None);
                 firebase_child_removed (demo_snapshot "a" None);
                 firebase_child_value "a" (demo_snapshot "a" None)]
                demo_query)).
Proof.
  apply (@no_duplicate_enter demo (mkCriteria (Some origin) (Some 1%float)) demo_query).
  - vm_compute. reflexivity.
  - repeat constructor.
  - discriminate.
Defined.

(** C4. A child named ["__proto__"] enters twice.  The assignment
    [_locations["__proto__"] = row] of [_updateLocation] sets the prototype
    of the table and stores no own property, so the next update for the
    key finds it untracked again: two updates that place it inside the
    query fire [key_entered] twice, and no [key_exited] in between. *)
Theorem prototype_key_enters_twice (X : Collaborators) (s : State)
    (snapshot snapshot' : DataSnapshot X) (loc loc' : Location) :
  name snapshot = "__proto__" -> name snapshot' = "__proto__" ->
  decodeGeofireObject X (val snapshot) = Some loc ->
  decodeGeofireObject X (val snapshot') = Some loc' ->
  validateLocation X loc = true -> validateLocation X loc' = true ->
  guard_intact s ->
  JsObject.get "__proto__" (_locations s) = None ->
  PrimFloat.leb (distance X loc (_center s)) (_radius s) = true ->
  PrimFloat.leb (distance X loc' (_center s)) (_radius s) = true ->
  duplicate_enter "__proto__"
    (snd (run [firebase_child_added snapshot; firebase_child_changed snapshot'] s)).
Proof.
  intros Hn Hn' Hd Hd' Hv Hv' Hg Hget Hin Hin'.
  destruct (@_updateLocation_prototype X loc s Hv Hg Hget Hin) as (calls & Hu & Hcalls).
  set (s1 := set_locations_prototype
               (Some (mkLocationDict loc (distance X loc (_center s)) true
                        (encodeGeohash X loc (Some (g_GEOHASH_PRECISION X))))) s) in *.
  destruct (@_updateLocation_prototype X loc' s1 Hv' Hg Hget Hin')
    as (calls' & Hu' & _).
  cbn [run handle fst snd].
  unfold _childAddedCallback, _childChangedCallback.
  rewrite Hd, Hd', Hn, Hn', Hu. cbn [state_of effects_of fst snd]. rewrite Hu'.
  cbn [state_of effects_of fst snd]. rewrite app_nil_r.
  exists [], calls, calls', (Some loc), (Some (distance X loc (_center s))),
         (Some loc'), (Some (distance X loc' (_center s1))).
  split; [reflexivity|]. now apply no_exit_among_calls.
Qed.

(** A child named ["__proto__"] is added at the center of the query and
    then reported changed, at the same place. *)
Lemma prototype_key_enters_twice_witness :
  duplicate_enter "__proto__"
    (snd (run [firebase_child_added (demo_snapshot "__proto__" (Some origin));
               firebase_child_changed (demo_snapshot "__proto__" (Some origin))]
              demo_tracking)).
Proof.
  apply (@prototype_key_enters_twice demo demo_tracking
           (demo_snapshot "__proto__" (Some origin))
           (demo_snapshot "__proto__" (Some origin)) origin origin);
    reflexivity.
Defined.

(** * Updating the criteria *)

Section CriteriaLoop.

Variable X : Collaborators.

Lemma set_locations_twice l l' s :
  set_locations l (set_locations l' s) = set_locations l s.
Proof. reflexivity. Qed.

Lemma set_locations_same l s : _locations s = l -> set_locations l s = s.
Proof. intros <-. now destruct s. Qed.

(** The loop of [updateCriteria] over the entries still to visit. *)
Lemma reassessment_loop (suffix visited : JsObject.t LocationDict) s :
  guard_intact s ->
  _locations s = visited ++ suffix ->
  NoDup (JsObject.keys (visited ++ suffix)) ->
  for_each (map fst suffix) (fun key =>
      with_own_row key (fun locationDict =>
        let wasAlreadyInQuery := isInQuery locationDict in
        c <- gets _center ;;
        r <- gets _radius ;;
        let d := distance X (location locationDict) c in
        let nowInQuery := PrimFloat.leb d r in
        modify (fun s => set_locations
          (JsObject.set key
             (mkLocationDict (location locationDict) d nowInQuery (geohash locationDict))
             (_locations s)) s) ;;
        if wasAlreadyInQuery && negb nowInQuery then
          _fireCallbacksForKey key_exited key (Some (location locationDict)) (Some d)
        else if negb wasAlreadyInQuery && nowInQuery then
          _fireCallbacksForKey key_entered key (Some (location locationDict)) (Some d)
        else ret tt)) s
  = (Normal tt,
     set_locations (visited ++ map (fun kd => (fst kd, reassessed X (_center s) (_radius s) (snd kd)))
                                   suffix) s,
     flat_map (reassessment_effects X (_callbacks s) (_center s) (_radius s)) suffix).
Proof.
  match goal with |- _ -> _ -> _ -> for_each _ ?b _ = _ => set (body := b) end.
  revert visited s.
  induction suffix as [|[k d] suffix IH]; intros visited s Hg Hloc Hnd.
  - cbn [map flat_map]. unfold for_each, ret.
    now rewrite set_locations_same by (now rewrite app_nil_r in *).
  - cbn [map fst]. unfold for_each; fold for_each.
    assert (Hk : ~ In k (JsObject.keys visited)).
    { rewrite JsObjectFacts.keys_app, JsObjectFacts.keys_cons in Hnd.
      apply NoDup_remove_2 in Hnd. intros HIn. apply Hnd, in_or_app. now left. }
    assert (Hget : JsObject.get k (_locations s) = Some d).
    { rewrite Hloc, JsObjectFacts.get_app_skip by auto.
      rewrite JsObjectFacts.get_cons. now rewrite String.eqb_refl. }
    set (d' := reassessed X (_center s) (_radius s) d).
    set (s1 := set_locations (JsObject.set k d' (_locations s)) s).
    assert (Hloc1 : _locations s1 = (visited ++ [(k, d')]) ++ suffix).
    { unfold s1. state_simpl. rewrite Hloc, JsObjectFacts.set_app_skip by auto.
      now rewrite <- app_assoc. }
    assert (Hnd1 : NoDup (JsObject.keys ((visited ++ [(k, d')]) ++ suffix))).
    { rewrite <- app_assoc. cbn [app].
      rewrite JsObjectFacts.keys_app, JsObjectFacts.keys_cons in *. exact Hnd. }
    assert (Hg1 : guard_intact s1).
    { apply guard_intact_set; [|exact Hg]. eapply guard_intact_own; eauto. }
    assert (Hbody : body k s =
      (Normal tt, s1, reassessment_effects X (_callbacks s) (_center s) (_radius s) (k, d))).
    { unfold body. rewrite with_own_row_eq by exact Hg. rewrite Hget.
      apply wp_eq. cbv zeta.
      apply wp_bind, wp_gets, wp_bind, wp_gets, wp_bind, wp_modify.
      fold d'. fold s1. unfold reassessment_effects. cbn [fst snd].
      wp_branches.
      - eapply wp_of_eq; [apply _fireCallbacksForKey_eq; discriminate | reflexivity].
      - eapply wp_of_eq; [apply _fireCallbacksForKey_eq; discriminate | reflexivity].
      - now apply wp_ret. }
    erewrite bind_Normal by exact Hbody.
    rewrite (IH (visited ++ [(k, d')]) s1 Hg1 Hloc1 Hnd1).
    cbn [state_of completion_of effects_of fst snd flat_map].
    unfold s1. state_simpl. rewrite set_locations_twice, <- app_assoc. reflexivity.
Qed.

End CriteriaLoop.

Section CriteriaUpdate.

Variable X : Collaborators.

Lemma quiet__listenForNewGeohashes s :
  Forall (fun e => client_visible e = false) (effects_of (_listenForNewGeohashes X s)).
Proof.
  assert (Hk : keeps (fun _ h => Forall (fun e => client_visible e = false) h)
                     (_listenForNewGeohashes X)).
  { keeps_statements ltac:(first
      [ apply keeps_modify; intros ? ? ?; assumption
      | apply keeps_perform; intros ? ? ?; apply Forall_app; split;
        [assumption | now repeat constructor] ]). }
  apply (Hk s []). constructor.
Qed.

(** [updateCriteria], when the criteria are accepted: the new center and
    radius, every entry reassessed in the order of the table, then the
    coverage recomputed. *)
Lemma updateCriteria_eq newQueryCriteria s :
  validateCriteria X newQueryCriteria false = true ->
  NoDup (JsObject.keys (_locations s)) ->
  guard_intact s ->
  let c := match center newQueryCriteria with Some c => c | None => _center s end in
  let r := match radius newQueryCriteria with
           | Some r => if js_truthy r then r else _radius s
           | None => _radius s
           end in
  let s1 := set_valueEventFired false
              (set_locations (map (fun kd => (fst kd, reassessed X c r (snd kd)))
                                  (_locations s))
                 (set_center_radius c r s)) in
  updateCriteria X newQueryCriteria s =
  (completion_of (_listenForNewGeohashes X s1), state_of (_listenForNewGeohashes X s1),
   flat_map (reassessment_effects X (_callbacks s) c r) (_locations s)
   ++ effects_of (_listenForNewGeohashes X s1)).
Proof.
  intros Hvalid Hnd Hg c r s1. unfold updateCriteria. rewrite Hvalid.
  erewrite bind_Normal by reflexivity.
  cbn [state_of completion_of effects_of fst snd app].
  erewrite bind_Normal by reflexivity.
  cbn [state_of completion_of effects_of fst snd app]. state_simpl.
  fold c. fold r.
  erewrite bind_Normal.
  2:{ eapply for_each_enumerable.
      - unfold JsObject.keys.
        apply (@reassessment_loop X (_locations s) [] (set_center_radius c r s));
          [exact Hg | reflexivity | exact Hnd].
      - apply skipped_loop.
        + unfold guard_intact, JsObject.hasOwnProperty in *. state_simpl. cbn [app].
          rewrite JsObjectFacts.get_map_values.
          now destruct (JsObject.get "hasOwnProperty" (_locations s)).
        + intros k Hk.
          apply inherited_keys_not_own in Hk. state_simpl. cbn [app].
          rewrite JsObjectFacts.get_map_values.
          change (JsObject.get k (_locations s) = None) in Hk. now rewrite Hk. }
  cbn [state_of completion_of effects_of fst snd app]. state_simpl.
  erewrite bind_Normal by reflexivity.
  cbn [state_of completion_of effects_of fst snd app]. rewrite app_nil_r. reflexivity.
Qed.

Lemma count_app (P : Effect -> bool) (l1 l2 : list Effect) :
  List.length (filter P (l1 ++ l2)) = List.length (filter P l1) + List.length (filter P l2).
Proof. now rewrite filter_app, length_app. Qed.

Lemma count_none (P Q : Effect -> bool) (l : list Effect) :
  (forall e, P e = true -> Q e = true) ->
  Forall (fun e => Q e = false) l -> List.length (filter P l) = 0.
Proof.
  intros HPQ. induction 1 as [|e l He Hl IH]; cbn [filter]; auto.
  destruct (P e) eqn:HP; auto. apply HPQ in HP. congruence.
Qed.

Lemma reassessment_effects_about callbacks c r kd key :
  key <> fst kd ->
  Forall (fun e => about key e = false) (reassessment_effects X callbacks c r kd).
Proof.
  intros Hne. unfold reassessment_effects.
  assert (Hk : String.eqb (fst kd) key = false) by (apply String.eqb_neq; congruence).
  destruct (isInQuery (snd kd) && negb _);
    [| destruct (negb (isInQuery (snd kd)) && _); [| constructor]];
    (constructor; [exact Hk|]); apply Forall_forall; intros e He;
    apply in_map_iff in He; destruct He as (cb & <- & _); exact Hk.
Qed.

(** Among the effects of the loop, those about one key come from the entry
    of that key. *)
Lemma count_reassessment (P : Effect -> bool) key callbacks c r
    (entries : JsObject.t LocationDict) :
  (forall e, P e = true -> about key e = true) ->
  NoDup (JsObject.keys entries) ->
  List.length (filter P (flat_map (reassessment_effects X callbacks c r) entries)) =
  match JsObject.get key entries with
  | Some d => List.length (filter P (reassessment_effects X callbacks c r (key, d)))
  | None => 0
  end.
Proof.
  intros HP. induction entries as [|[k d] entries IH]; intros Hnd; [reflexivity|].
  rewrite JsObjectFacts.keys_cons in Hnd. inversion Hnd as [|? ? Hnin Hnd']; subst.
  cbn [flat_map]. rewrite count_app, JsObjectFacts.get_cons, (IH Hnd').
  destruct (String.eqb_spec k key) as [->|Hne].
  - destruct (JsObject.get key entries) eqn:E.
    + exfalso. apply Hnin. eapply JsObjectFacts.get_Some_In; eauto.
    + now rewrite Nat.add_0_r.
  - rewrite (count_none P (about key)); auto.
    apply reassessment_effects_about. cbn [fst]. congruence.
Qed.

End CriteriaUpdate.

Lemma count_calls_fired t key loc dist callbacks callback :
  count_calls callback key
    (Fire t key loc dist :: map (fun cb => Call cb key loc dist) callbacks)
  = count_occ Nat.eq_dec callbacks callback.
Proof.
  unfold count_calls. cbn [filter is_Call].
  induction callbacks as [|cb callbacks IH]; [reflexivity|].
  cbn [map filter is_Call count_occ]. rewrite String.eqb_refl, andb_true_r.
  destruct (Nat.eq_dec cb callback) as [->|Hne].
  - rewrite Nat.eqb_refl. cbn [List.length]. now rewrite IH.
  - replace (Nat.eqb cb callback) with false by (symmetry; now apply Nat.eqb_neq).
    exact IH.
Qed.

Lemma count_fired_fired t key loc dist callbacks :
  count_fired t key (Fire t key loc dist :: map (fun cb => Call cb key loc dist) callbacks)
  = 1.
Proof.
  unfold count_fired. cbn [filter is_Fire].
  replace (EventType_eqb t t) with true by now destruct t.
  rewrite String.eqb_refl. cbn [andb List.length]. f_equal.
  induction callbacks as [|cb callbacks IH]; [reflexivity|]. exact IH.
Qed.

(** C1, as the code has it. When [updateCriteria] is given a radius [r]
    that JavaScript takes for true (neither 0 nor NaN) and the table has no
    row under ["hasOwnProperty"], every key that was in the query and
    whose distance from the center of the updated query exceeds [r] has
    [key_exited] fire exactly once, with its location and that distance,
    each [key_exited] callback being invoked once for it; a key that was
    in the query and is within [r] of the center, as a key at the center
    itself always is, has no [key_exited] fire and no callback invoked. *)
Theorem shrinking_radius_exits (X : Collaborators) (newQueryCriteria : Criteria)
    (r : float) (s : State) (key : string) (d : LocationDict) :
  validateCriteria X newQueryCriteria false = true ->
  radius newQueryCriteria = Some r -> js_truthy r = true ->
  NoDup (JsObject.keys (_locations s)) ->
  guard_intact s ->
  JsObject.get key (_locations s) = Some d -> isInQuery d = true ->
  let c := match center newQueryCriteria with Some c => c | None => _center s end in
  let dist := distance X (location d) c in
  let out := effects_of (updateCriteria X newQueryCriteria s) in
  if PrimFloat.leb dist r
  then count_fired key_exited key out = 0 /\
       forall callback, count_calls callback key out = 0
  else count_fired key_exited key out = 1 /\
       In (Fire key_exited key (Some (location d)) (Some dist)) out /\
       forall callback,
         count_calls callback key out
         = count_occ Nat.eq_dec (cb_key_exited (_callbacks s)) callback.
Proof.
  intros Hvalid Hr Htruthy Hnd Hg Hget Hin c dist out.
  assert (Hvisible_fire : forall t e, is_Fire t key e = true -> client_visible e = true)
    by (intros t [] ?; auto; discriminate).
  assert (Hvisible_call : forall cb e, is_Call cb key e = true -> client_visible e = true)
    by (intros cb [] ?; auto; discriminate).
  assert (Habout_fire : forall t e, is_Fire t key e = true -> about key e = true).
  { intros t [] H; try discriminate. cbn in *. now apply andb_prop in H. }
  assert (Habout_call : forall cb e, is_Call cb key e = true -> about key e = true).
  { intros cb [] H; try discriminate. cbn in *. now apply andb_prop in H. }
  subst out. rewrite updateCriteria_eq by auto. cbn [effects_of snd].
  rewrite Hr, Htruthy. fold c.
  match goal with
  | |- context [effects_of (_listenForNewGeohashes X ?s1)] =>
      pose proof (quiet__listenForNewGeohashes X s1) as Hquiet;
      set (listened := effects_of (_listenForNewGeohashes X s1)) in *
  end.
  assert (Hentry : reassessment_effects X (_callbacks s) c r (key, d) =
                   if PrimFloat.leb dist r then []
                   else Fire key_exited key (Some (location d)) (Some dist)
                        :: map (fun cb => Call cb key (Some (location d)) (Some dist))
                               (cb_key_exited (_callbacks s))).
  { unfold reassessment_effects. cbn [fst snd]. rewrite Hin. fold dist.
    now destruct (PrimFloat.leb dist r). }
  assert (Hl_fire : forall t, List.length (filter (is_Fire t key) listened) = 0)
    by (intros t; apply (count_none _ client_visible); eauto).
  assert (Hl_call : forall cb, List.length (filter (is_Call cb key) listened) = 0)
    by (intros cb; apply (count_none _ client_visible); eauto).
  unfold count_fired, count_calls.
  destruct (PrimFloat.leb dist r) eqn:Hnow.
  - split; [|intros callback]; rewrite count_app.
    + rewrite (count_reassessment X _ key) by eauto.
      now rewrite Hget, Hentry, Hl_fire.
    + rewrite (count_reassessment X _ key) by eauto.
      now rewrite Hget, Hentry, Hl_call.
  - split; [|split; [|intros callback]].
    + rewrite count_app, (count_reassessment X _ key) by eauto.
      rewrite Hget, Hentry, Hl_fire, Nat.add_0_r.
      apply count_fired_fired.
    + apply in_or_app. left. apply in_flat_map. exists (key, d). split.
      * clear - Hget. induction (_locations s) as [|[k0 d0] l IH]; [discriminate|].
        rewrite JsObjectFacts.get_cons in Hget.
        destruct (String.eqb_spec k0 key) as [->|Hne].
        -- injection Hget as ->. now left.
        -- right. auto.
      * rewrite Hentry. now left.
    + rewrite count_app, (count_reassessment X _ key) by eauto.
      rewrite Hget, Hentry, Hl_call, Nat.add_0_r.
      apply count_calls_fired.
Qed.

Lemma shrinking_radius_exits_witness :
  let out := effects_of (updateCriteria demo (mkCriteria None (Some 1%float)) demo_wide) in
  count_fired key_exited "b" out = 1 /\
  In (Fire key_exited "b" (Some (0%float, 2%float)) (Some 222%float)) out /\
  forall callback,
    count_calls callback "b" out
    = count_occ Nat.eq_dec (cb_key_exited (_callbacks demo_wide)) callback.
Proof.
  apply (@shrinking_radius_exits demo (mkCriteria None (Some 1%float)) 1%float demo_wide
           "b" (mkLocationDict (0%float, 2%float) 222%float true "s")).
  - reflexivity.
  - reflexivity.
  - reflexivity.
  - vm_compute. repeat constructor; simpl; intuition discriminate.
  - reflexivity.
  - vm_compute. reflexivity.
  - reflexivity.
Defined.

(** C1 as stated fails: key ["a"] is in the query, at its center; the
    criteria are updated with a radius of 0, which validation accepts;
    no [key_exited] fires for ["a"] (nothing at all happens), and ["a"]
    is still flagged in-query afterwards. *)
Lemma radius_zero_fires_no_exit :
  let newQueryCriteria := mkCriteria None (Some 0%float) in
  let r := updateCriteria demo newQueryCriteria demo_tracking in
  validateCriteria demo newQueryCriteria false = true /\
  in_query "a" demo_tracking = true /\
  completion_of r = Normal tt /\
  count_fired key_exited "a" (effects_of r) = 0 /\
  effects_of r = [] /\
  in_query "a" (state_of r) = true.
Proof. cbv zeta. repeat split; vm_compute; reflexivity. Qed.

(** * Recomputing an unchanged coverage *)

Section ListFacts.

Lemma indexOf_None x l : indexOf x l = None -> ~ In x l.
Proof.
  unfold indexOf. induction l as [|y l IH]; cbn [index_of]; [tauto|].
  destruct (String.eqb_spec y x) as [->|Hne]; [discriminate|].
  destruct (index_of String.eqb x l); [discriminate|].
  intros _ [E|HIn]; [congruence | now apply IH].
Qed.

Lemma indexOf_Some_splice x l i :
  indexOf x l = Some i -> NoDup l ->
  NoDup (splice1 i l) /\ forall y, In y (splice1 i l) <-> In y l /\ y <> x.
Proof.
  unfold indexOf. revert i. induction l as [|y l IH]; intros i; cbn [index_of];
    [discriminate|].
  intros Hi Hnd. inversion Hnd as [|? ? Hnin Hnd']; subst.
  destruct (String.eqb_spec y x) as [->|Hne].
  - injection Hi as <-. cbn [splice1]. split; auto.
    intros z. cbn [In]. split.
    + intros Hz. split; auto. congruence.
    + intros [[E|Hz] Hzx]; [congruence | auto].
  - destruct (index_of String.eqb x l) as [j|]; [|discriminate].
    injection Hi as <-. cbn [splice1].
    destruct (IH j eq_refl Hnd') as [Hnd'' Hiff]. split.
    + constructor; auto. rewrite Hiff. tauto.
    + intros z. cbn [In]. rewrite Hiff. split.
      * intros [E|[Hz Hzx]]; [subst; auto | auto].
      * intros [[E|Hz] Hzx]; auto.
Qed.

Lemma filter_first_occurrences_In y l : In y (filter_first_occurrences l) -> In y l.
Proof.
  unfold filter_first_occurrences. intros H.
  apply in_map_iff in H. destruct H as ([i g] & <- & H).
  apply filter_In in H. destruct H as [H _]. now apply in_combine_r in H.
Qed.

Lemma filter_first_occurrences_NoDup l : NoDup (filter_first_occurrences l).
Proof.
  unfold filter_first_occurrences.
  apply NoDup_map_NoDup_ForallPairs.
  - intros [i g] [j g'] Hi Hj E. cbn [snd] in E. subst g'.
    apply filter_In in Hi, Hj. destruct Hi as [_ Hi], Hj as [_ Hj].
    cbn [fst snd] in Hi, Hj.
    destruct (indexOf g l) as [k|]; [|discriminate].
    apply Nat.eqb_eq in Hi, Hj. congruence.
  - apply NoDup_filter. apply NoDup_map_inv with (f := fst).
    assert (Hfst : forall (l1 : list nat) (l2 : list string),
               List.length l1 = List.length l2 -> map fst (combine l1 l2) = l1).
    { induction l1 as [|a l1 IH]; intros [|b l2] Hlen; try discriminate; auto.
      cbn [combine map fst]. f_equal. apply IH. now injection Hlen. }
    rewrite Hfst by apply length_seq. apply seq_NoDup.
Qed.

End ListFacts.

Section UnchangedCoverage.

Variable X : Collaborators.

(** When every range of the coverage is registered already, the
    recomputation returns without attaching a listener: nothing is left in
    [_geohashesToQuery], the ready flag is as it was, and the only effect
    there can be is the timer of a cleanup. *)
Lemma _listenForNewGeohashes_nothing_new s h :
  (forall q, In q (geohashQueries X (_center s) (PrimFloat.mul (_radius s) 1000%float)) ->
             In (_queryToString q) (JsObject.keys (_currentGeohashesQueried s))) ->
  wp (_listenForNewGeohashes X)
     (fun _ s' h' =>
        _geohashesToQuery s' = [] /\ _valueEventFired s' = _valueEventFired s /\
        exists o, h' = h ++ o /\
                  Forall (fun e => client_visible e = false /\ subscribes e = false) o)
     (fun _ _ => False) s h.
Proof.
  intros Hcov. unfold _listenForNewGeohashes.
  apply wp_bind, wp_modify, wp_bind, wp_modify, wp_bind, wp_gets. state_simpl.
  set (K := JsObject.keys (_currentGeohashesQueried s)).
  set (L0 := filter_first_occurrences
               (map _queryToString
                  (geohashQueries X (_center s) (PrimFloat.mul (_radius s) 1000%float)))).
  assert (HL0 : forall y, In y L0 -> In y K).
  { intros y Hy. apply filter_first_occurrences_In in Hy.
    apply in_map_iff in Hy. destruct Hy as (q & <- & Hq). now apply Hcov. }
  apply wp_bind. eapply wp_mono.
  - apply (wp_for_each
      (fun l s' h' =>
         h' = h /\ _valueEventFired s' = _valueEventFired s /\
         NoDup (_geohashesToQuery s') /\
         forall y, In y (_geohashesToQuery s') -> In y K /\ (In y K -> In y l))).
    + intros x l s1 h1 (-> & Hv & Hnd & Hleft).
      apply wp_bind, wp_gets.
      destruct (indexOf x (_geohashesToQuery s1)) as [i|] eqn:Hi.
      * apply wp_bind, wp_modify, wp_modify. state_simpl.
        destruct (@indexOf_Some_splice x (_geohashesToQuery s1) i Hi Hnd) as [Hnd' Hiff].
        repeat split; auto.
        -- apply Hiff in H. now apply Hleft.
        -- intros HK. apply Hiff in H. destruct H as [Hy Hyx].
           destruct (Hleft y Hy) as [_ Hl]. destruct (Hl HK) as [E|]; auto. congruence.
      * apply wp_modify. state_simpl. apply indexOf_None in Hi.
        repeat split; auto.
        -- now apply Hleft.
        -- intros HK. destruct (Hleft y H) as [_ Hl].
           destruct (Hl HK) as [E|]; auto. congruence.
    + state_simpl. repeat split; auto.
      apply filter_first_occurrences_NoDup.
  - intros a s1 h1 (-> & Hv & Hnd & Hleft).
    assert (Hempty : _geohashesToQuery s1 = []).
    { destruct (_geohashesToQuery s1) as [|y l]; auto.
      destruct (Hleft y (or_introl eq_refl)) as [HK Hl]. destruct (Hl HK). }
    apply wp_bind, wp_gets, wp_bind, wp_gets, wp_bind.
    apply wp_mono with
      (Q := fun _ s' h' =>
         _geohashesToQuery s' = [] /\ _valueEventFired s' = _valueEventFired s /\
         exists o, h' = h ++ o /\
                   Forall (fun e => client_visible e = false /\ subscribes e = false) o)
      (E := fun _ _ => False).
    + wp_branches.
      * unfold setTimeout. repeat (wp_step; cbv beta). state_simpl.
        repeat split; auto. eexists. split; [reflexivity|]. now repeat constructor.
      * apply wp_ret. repeat split; auto. exists []. now rewrite app_nil_r.
    + intros [] s2 h2 (Hempty2 & Hv2 & o & -> & Ho).
      apply wp_bind, wp_modify, wp_bind, wp_gets. state_simpl. rewrite Hempty2.
      unfold for_each. apply wp_ret. state_simpl. repeat split; auto.
      exists o. auto.
    + auto.
  - intros s' h' HE. exact HE.
Qed.

Lemma awaits_nothing__checkIfShouldFireReadyEvent :
  keeps awaits_nothing _checkIfShouldFireReadyEvent.
Proof.
  apply wp_keeps. intros s h (Hempty & Hv & Hh). unfold _checkIfShouldFireReadyEvent.
  apply wp_bind, wp_modify, wp_bind, wp_modify, wp_bind, wp_gets. state_simpl.
  rewrite Hempty. cbn [List.length Nat.eqb]. apply wp_ret.
  unfold awaits_nothing. state_simpl. auto.
Qed.

Lemma awaits_nothing_on eventType callback : keeps awaits_nothing (on eventType callback).
Proof.
  apply wp_keeps. intros s h (Hempty & Hv & Hh). unfold on.
  destruct (EventType_of_string eventType) as [t|];
    [| apply wp_throw; repeat split; auto].
  apply wp_bind, wp_modify, wp_bind.
  apply wp_mono with (Q := fun _ => awaits_nothing) (E := awaits_nothing); auto.
  - assert (H0 : awaits_nothing
                   (set_callbacks
                      (set_callbacks_of t (callbacks_of t (_callbacks s) ++ [callback])
                         (_callbacks s)) s) h) by (repeat split; auto).
    destruct t; try (apply wp_ret; exact H0).
    apply keeps_wp; auto.
    apply keeps_bind; [apply keeps_gets | intros keys].
    apply keeps_for_each. intros key _.
    apply keeps_with_own_row. intros d.
    destruct (isInQuery d); [|apply keeps_ret].
    apply keeps_perform. intros s' h' (H1 & H2 & H3). repeat split; auto.
    apply Forall_app. split; auto.
  - intros [] s1 h1 (Hempty1 & Hv1 & Hh1).
    destruct t; try (apply wp_ret; repeat split; auto).
    apply wp_bind, wp_gets. rewrite Hv1. apply wp_ret. repeat split; auto.
Qed.

Ltac awaits_nothing_leaf :=
  first
    [ apply awaits_nothing__checkIfShouldFireReadyEvent
    | apply awaits_nothing_on
    | progress unfold _fireCallbacksForKey
    | apply keeps_modify; intros ? ? (? & ? & ?); repeat split; assumption
    | apply keeps_perform; intros ? ? (? & ? & ?); repeat split; try assumption;
      apply Forall_app; split; [assumption | now repeat constructor] ].

(** Until the criteria are updated again, the ready event does not fire. *)
Lemma awaits_nothing_handle (i : Input X) :
  recomputes i = false -> keeps awaits_nothing (handle i).
Proof.
  destruct i; cbn [recomputes handle]; intros Hi; try discriminate;
    keeps_statements awaits_nothing_leaf.
Qed.

End UnchangedCoverage.

(** C2, what the code does. [updateCriteria] is called with the center and
    radius the query already has, all ranges of their coverage being
    registered, in a well-formed state (so with no row under
    ["hasOwnProperty"], which would make its loop throw).  It returns
    normally; no event fires and no callback is
    invoked, so there is no [key_entered] and no [key_exited]; no listener
    is attached.  But the ready flag is left [false] with no range value
    awaited, and the ready event does not fire: not during the call, and
    not on any input that follows, until the criteria are updated again. *)
Theorem same_criteria_never_signals_ready (X : Collaborators) (s : State)
    (inputs : list (Input X)) :
  well_formed X s ->
  validateCriteria X (mkCriteria (Some (_center s)) (Some (_radius s))) false = true ->
  (forall q, In q (geohashQueries X (_center s) (PrimFloat.mul (_radius s) 1000%float)) ->
             In (_queryToString q) (JsObject.keys (_currentGeohashesQueried s))) ->
  Forall (fun i => recomputes i = false) inputs ->
  let r := updateCriteria X (mkCriteria (Some (_center s)) (Some (_radius s))) s in
  completion_of r = Normal tt /\
  Forall (fun e => client_visible e = false /\ subscribes e = false) (effects_of r) /\
  _valueEventFired (state_of r) = false /\
  Forall (fun e => signals_ready e = false) (snd (run inputs (state_of r))).
Proof.
  intros (Hnd & _ & _ & Hcurrent & Hg) Hvalid Hcov Hinputs r. subst r.
  rewrite updateCriteria_eq by auto. cbn [center radius].
  replace (if js_truthy (_radius s) then _radius s else _radius s) with (_radius s)
    by now destruct (js_truthy (_radius s)).
  assert (Hnone : flat_map (reassessment_effects X (_callbacks s) (_center s) (_radius s))
                           (_locations s) = []).
  { assert (Hall : forall kd, In kd (_locations s) ->
              reassessment_effects X (_callbacks s) (_center s) (_radius s) kd = []).
    { intros [k d] HIn. apply JsObjectFacts.get_In_NoDup in HIn; auto.
      destruct (Hcurrent k d HIn) as [Hd Hi].
      unfold reassessment_effects. cbn [fst snd]. rewrite <- Hd, <- Hi.
      now destruct (isInQuery d). }
    clear - Hall. induction (_locations s) as [|kd l IH]; [reflexivity|].
    cbn [flat_map]. rewrite Hall by now left. apply IH.
    intros kd' H'. apply Hall. now right. }
  rewrite Hnone. cbn [app].
  match goal with
  | |- context [_listenForNewGeohashes X ?s1] =>
      pose proof (@_listenForNewGeohashes_nothing_new X s1 [] Hcov) as Hlisten;
      unfold wp in Hlisten;
      destruct (_listenForNewGeohashes X s1) as [[[[]|e] s2] o2]; [|destruct Hlisten]
  end.
  cbn [app] in Hlisten. destruct Hlisten as (Hempty & Hv & o & -> & Ho).
  cbn [completion_of state_of effects_of fst snd]. state_simpl.
  repeat split; auto.
  assert (Hrun : forall (l : list (Input X)) s0 h,
             Forall (fun i => recomputes i = false) l ->
             awaits_nothing s0 h -> awaits_nothing (fst (run l s0)) (h ++ snd (run l s0))).
  { induction l as [|i l IH]; intros s0 h Hl Hs; cbn [run fst snd].
    - now rewrite app_nil_r.
    - inversion Hl as [|? ? Hi Hl']; subst. rewrite app_assoc.
      apply IH; auto. now apply awaits_nothing_handle. }
  apply (Hrun inputs s2 [] Hinputs). repeat split; auto.
Qed.

Lemma same_criteria_never_signals_ready_witness :
  let r := updateCriteria demo
             (mkCriteria (Some (_center demo_tracking)) (Some (_radius demo_tracking)))
             demo_tracking in
  completion_of r = Normal tt /\
  Forall (fun e => client_visible e = false /\ subscribes e = false) (effects_of r) /\
  _valueEventFired (state_of r) = false /\
  Forall (fun e => signals_ready e = false)
    (snd (run [firebase_query_value; firebase_query_value;
               firebase_child_added (demo_snapshot "c" (Some origin));
               call_on "ready" 9; @interval_elapsed demo]
              (state_of r))).
Proof.
  apply (@same_criteria_never_signals_ready demo demo_tracking).
  - eapply (@well_formed_reachable demo (mkCriteria (Some origin) (Some 1%float))
              demo_query _
              [call_on "key_entered" 1; call_on "key_exited" 2; call_on "ready" 3;
               firebase_child_added (demo_snapshot "a" (Some origin));
               firebase_child_added (demo_snapshot "b" (Some (0%float, 2%float)))]).
    + vm_compute. reflexivity.
    + repeat constructor.
  - reflexivity.
  - intros q Hq. vm_compute in Hq. destruct Hq as [<-|[]]. vm_compute. now left.
  - repeat constructor.
Defined.

(** * Cleanup passes under a covering coverage *)

Section RangeStrings.

Lemma split_no_colon s : no_colon s = true -> split ":" s = [s].
Proof.
  induction s as [|c s IH]; cbn [no_colon split]; [reflexivity|].
  intros H. apply andb_prop in H. destruct H as [Hc Hs].
  apply negb_true_iff in Hc. rewrite Hc, (IH Hs). reflexivity.
Qed.

Lemma split_append lo rest :
  no_colon lo = true ->
  split ":" (lo ++ String ":" rest)%string = lo :: split ":" rest.
Proof.
  induction lo as [|c lo IH]; cbn [no_colon String.append split].
  - reflexivity.
  - intros H. apply andb_prop in H. destruct H as [Hc Hs].
    apply negb_true_iff in Hc. rewrite Hc, (IH Hs). reflexivity.
Qed.

(** Encoding a range whose bounds hold no colon, then decoding it, gives
    the range back. *)
Lemma split__queryToString lo hi :
  no_colon lo = true -> no_colon hi = true ->
  split ":" (_queryToString (lo, hi)) = [lo; hi].
Proof.
  intros Hlo Hhi. unfold _queryToString. cbn [fst snd].
  change (":" ++ hi)%string with (String ":" hi).
  now rewrite split_append, split_no_colon.
Qed.

Lemma indexOf_In x l : In x l -> exists i, indexOf x l = Some i.
Proof.
  intros HIn. destruct (indexOf x l) eqn:E; eauto.
  now apply indexOf_None in E.
Qed.

Lemma indexOf_nth_error x l i : indexOf x l = Some i -> nth_error l i = Some x.
Proof.
  unfold indexOf. revert i. induction l as [|y l IH]; intros i; cbn [index_of];
    [discriminate|].
  destruct (String.eqb_spec y x) as [->|Hne].
  - now intros [= <-].
  - destruct (index_of String.eqb x l) as [j|]; [|discriminate].
    intros [= <-]. cbn [nth_error]. now apply IH.
Qed.

Lemma In_combine_seq (l : list string) start i y :
  nth_error l i = Some y -> In (start + i, y) (combine (seq start (List.length l)) l).
Proof.
  revert start i. induction l as [|z l IH]; intros start [|i]; cbn; try discriminate.
  - intros [= ->]. left. now rewrite Nat.add_0_r.
  - intros H. right. rewrite <- Nat.add_succ_comm. now apply IH.
Qed.

Lemma In_filter_first_occurrences y l : In y l -> In y (filter_first_occurrences l).
Proof.
  intros HIn. destruct (indexOf_In y l HIn) as [i Hi].
  unfold filter_first_occurrences. apply in_map_iff. exists (i, y). split; auto.
  apply filter_In. split.
  - apply (In_combine_seq l 0 i). now apply indexOf_nth_error.
  - cbn [fst snd]. rewrite Hi. apply Nat.eqb_refl.
Qed.

End RangeStrings.

Section Covering.

Variable X : Collaborators.

Hypothesis bounds_without_colon :
  forall c r lo hi, In (lo, hi) (geohashQueries X c r) ->
    no_colon lo = true /\ no_colon hi = true.

(** With bounds that hold no colon the recomputation returns, and every
    range of the coverage is then registered and flagged [true]; the
    location table and the criteria are as they were. *)
Lemma _listenForNewGeohashes_registers s h :
  NoDup (JsObject.keys (_currentGeohashesQueried s)) ->
  wp (_listenForNewGeohashes X)
     (fun _ s' _ =>
        _locations s' = _locations s /\ _center s' = _center s /\
        _radius s' = _radius s /\
        forall q, In q (geohashQueries X (_center s) (PrimFloat.mul (_radius s) 1000%float)) ->
          JsObject.get (_queryToString q) (_currentGeohashesQueried s') = Some true)
     (fun _ _ => False) s h.
Proof.
  intros HK. unfold _listenForNewGeohashes.
  apply wp_bind, wp_modify, wp_bind, wp_modify, wp_bind, wp_gets. state_simpl.
  set (K := JsObject.keys (_currentGeohashesQueried s)) in *.
  set (L0 := filter_first_occurrences
               (map _queryToString
                  (geohashQueries X (_center s) (PrimFloat.mul (_radius s) 1000%float)))).
  assert (HL0 : forall y, In y L0 -> well_formed_query_string y).
  { intros y Hy. apply filter_first_occurrences_In in Hy.
    apply in_map_iff in Hy. destruct Hy as ([lo hi] & <- & Hq).
    destruct (bounds_without_colon _ _ _ _ Hq) as [Hlo Hhi].
    exists lo, hi. now apply split__queryToString. }
  apply wp_bind. eapply wp_mono.
  - apply (wp_for_each
      (fun l s' (_ : list Effect) =>
         _locations s' = _locations s /\ _center s' = _center s /\
         _radius s' = _radius s /\ NoDup l /\ NoDup (_geohashesToQuery s') /\
         (forall y, In y (_geohashesToQuery s') -> In y L0) /\
         (forall y, In y L0 ->
            In y (_geohashesToQuery s') \/
            (JsObject.get y (_currentGeohashesQueried s') = Some true /\ ~ In y l)))).
    + intros x l s1 h1 (Hloc & Hc & Hr & Hl & Hnd & Hsub & Hdone).
      inversion Hl as [|? ? Hxl Hl']; subst.
      apply wp_bind, wp_gets.
      destruct (indexOf x (_geohashesToQuery s1)) as [i|] eqn:Hi.
      * apply wp_bind, wp_modify, wp_modify. state_simpl.
        destruct (@indexOf_Some_splice x (_geohashesToQuery s1) i Hi Hnd) as [Hnd' Hiff].
        repeat split; auto.
        -- intros y Hy. apply Hiff in Hy. now apply Hsub.
        -- intros y Hy. destruct (string_dec y x) as [->|Hne].
           ++ right. split; auto. apply JsObjectFacts.get_set_same.
           ++ destruct (Hdone y Hy) as [Hin|[Hget Hnin]].
              ** left. apply Hiff. auto.
              ** right. rewrite JsObjectFacts.get_set_other by auto.
                 split; auto. intros Hyl. apply Hnin. now right.
      * apply wp_modify. state_simpl. apply indexOf_None in Hi.
        repeat split; auto.
        intros y Hy. destruct (Hdone y Hy) as [Hin|[Hget Hnin]]; auto.
        right. rewrite JsObjectFacts.get_set_other.
        -- split; auto. intros Hyl. apply Hnin. now right.
        -- intros ->. apply Hnin. now left.
    + state_simpl. repeat split; auto.
      apply filter_first_occurrences_NoDup.
  - intros a s1 h1 (Hloc & Hc & Hr & _ & Hnd & Hsub & Hdone).
    apply wp_bind, wp_gets, wp_bind, wp_gets, wp_bind.
    apply wp_mono with
      (Q := fun _ s' (_ : list Effect) =>
         _locations s' = _locations s /\ _center s' = _center s /\
         _radius s' = _radius s /\
         (forall y, In y (_geohashesToQuery s') -> In y L0) /\
         (forall y, In y L0 ->
            In y (_geohashesToQuery s') \/
            JsObject.get y (_currentGeohashesQueried s') = Some true))
      (E := fun _ _ => False).
    + assert (Hdone' : forall y, In y L0 ->
                In y (_geohashesToQuery s1) \/
                JsObject.get y (_currentGeohashesQueried s1) = Some true).
      { intros y Hy. destruct (Hdone y Hy) as [|[]]; auto. }
      wp_branches.
      * unfold setTimeout. repeat (wp_step; cbv beta). state_simpl. repeat split; auto.
      * apply wp_ret. repeat split; auto.
    + intros [] s2 h2 (Hloc2 & Hc2 & Hr2 & Hsub2 & Hdone2).
      apply wp_bind, wp_modify, wp_bind, wp_gets. state_simpl.
      eapply wp_mono.
      * apply (wp_for_each
          (fun l s' (_ : list Effect) =>
             _locations s' = _locations s /\ _center s' = _center s /\
             _radius s' = _radius s /\
             (forall y, In y l -> In y L0) /\
             (forall y, In y L0 ->
                In y l \/ JsObject.get y (_currentGeohashesQueried s') = Some true))).
        -- intros x l s3 h3 (Hloc3 & Hc3 & Hr3 & Hsub3 & Hdone3).
           apply wp_bind, wp__stringToQuery.
           { apply HL0, Hsub3. now left. }
           intros query. repeat (wp_step; cbv beta). state_simpl.
           repeat split; auto.
           ++ intros y Hy. apply Hsub3. now right.
           ++ intros y Hy. destruct (string_dec y x) as [->|Hne].
              ** right. apply JsObjectFacts.get_set_same.
              ** rewrite JsObjectFacts.get_set_other by auto.
                 destruct (Hdone3 y Hy) as [[E|Hin]|Hget]; auto. congruence.
        -- state_simpl. repeat split; auto.
      * intros a3 s3 h3 (Hloc3 & Hc3 & Hr3 & _ & Hdone3). repeat split; auto.
        intros q Hq.
        destruct (Hdone3 (_queryToString q)) as [[]|Hget]; auto.
        apply In_filter_first_occurrences. now apply in_map.
      * intros s' h' HE. exact HE.
    + auto.
  - intros s' h' HE. exact HE.
Qed.

(** The cleanup pass returns on a well-formed registry and a table with
    no row under ["hasOwnProperty"], leaves of the
    registry the ranges flagged [true], and of the location table at least
    the entries whose geohash such a range holds; it adds no entry and
    changes none. *)
Lemma _cleanUpCurrentGeohashesQueried_entries s h :
  registry_well_formed s ->
  guard_intact s ->
  wp (_cleanUpCurrentGeohashesQueried X)
     (fun _ s' _ =>
        (forall q, JsObject.get q (_currentGeohashesQueried s') =
           match JsObject.get q (_currentGeohashesQueried s) with
           | Some true => Some true
           | _ => None
           end) /\
        _center s' = _center s /\ _radius s' = _radius s /\
        (forall k d, JsObject.get k (_locations s') = Some d ->
                     JsObject.get k (_locations s) = Some d) /\
        (forall k d, JsObject.get k (_locations s) = Some d ->
                     held_by_active_range s (geohash d) ->
                     JsObject.get k (_locations s') = Some d))
     (fun _ _ => False) s h.
Proof.
  intros Hwf Hguard. unfold _cleanUpCurrentGeohashesQueried.
  set (R0 := _currentGeohashesQueried s).
  apply wp_bind, wp_gets. apply wp_bind. eapply wp_mono.
  - apply (wp_for_each
      (fun l s' (_ : list Effect) =>
         _locations s' = _locations s /\ _center s' = _center s /\
         _radius s' = _radius s /\
         registry_well_formed s' /\
         (forall q f, JsObject.get q (_currentGeohashesQueried s') = Some f ->
                      JsObject.get q R0 = Some f) /\
         (forall q, JsObject.get q R0 = Some true ->
                    JsObject.get q (_currentGeohashesQueried s') = Some true) /\
         (forall q, JsObject.get q (_currentGeohashesQueried s') = Some false -> In q l))).
    + intros x l s1 h1 (Hloc & Hc & Hr & Hwf1 & Hsub & Htrue & Hfalse).
      apply wp_bind, wp_gets.
      destruct (JsObject.get x (_currentGeohashesQueried s1)) as [[|]|] eqn:Hx.
      * apply wp_ret. repeat split; auto. intros q Hq.
        destruct (Hfalse q Hq) as [->|]; [congruence | auto].
      * assert (Hxwf : well_formed_query_string x).
        { unfold registry_well_formed in Hwf1. rewrite Forall_forall in Hwf1.
          apply Hwf1. eapply JsObjectFacts.get_Some_In; eauto. }
        apply wp_bind, wp__stringToQuery; auto. intros query.
        unfold _geoQueryOff. repeat (wp_step; cbv beta). state_simpl.
        repeat split; auto.
        -- unfold registry_well_formed. state_simpl. now apply Forall_keys_delete.
        -- intros q f Hq. destruct (string_dec q x) as [->|Hne].
           ++ now rewrite JsObjectFacts.get_delete_same in Hq.
           ++ rewrite JsObjectFacts.get_delete_other in Hq by auto. auto.
        -- intros q Hq. specialize (Htrue q Hq).
           destruct (string_dec q x) as [->|Hne]; [congruence|].
           now rewrite JsObjectFacts.get_delete_other by auto.
        -- intros q Hq. destruct (string_dec q x) as [->|Hne].
           ++ now rewrite JsObjectFacts.get_delete_same in Hq.
           ++ rewrite JsObjectFacts.get_delete_other in Hq by auto.
              destruct (Hfalse q Hq) as [<-|]; [congruence | auto].
      * apply wp_ret. repeat split; auto. intros q Hq.
        destruct (Hfalse q Hq) as [->|]; [congruence | auto].
    + repeat split; auto. intros q Hq. eapply JsObjectFacts.get_Some_In; eauto.
  - intros a s1 h1 (Hloc & Hc & Hr & Hwf1 & Hsub & Htrue & Hfalse).
    set (R1 := _currentGeohashesQueried s1).
    assert (HR1 : forall q, JsObject.get q R1 =
              match JsObject.get q R0 with Some true => Some true | _ => None end).
    { intros q. destruct (JsObject.get q R1) as [[|]|] eqn:Hq.
      - now rewrite (Hsub q true Hq).
      - destruct (Hfalse q Hq).
      - destruct (JsObject.get q R0) as [[|]|] eqn:Hq0; auto.
        apply Htrue in Hq0. unfold R1 in Hq. congruence. }
    apply wp_bind, wp_gets. apply wp_bind. eapply wp_mono.
    + apply (wp_for_each
        (fun _ s' (_ : list Effect) =>
           _currentGeohashesQueried s' = R1 /\ _center s' = _center s /\
           _radius s' = _radius s /\ guard_intact s' /\
           (forall k d, JsObject.get k (_locations s') = Some d ->
                        JsObject.get k (_locations s) = Some d) /\
           (forall k d, JsObject.get k (_locations s) = Some d ->
                        held_by_active_range s (geohash d) ->
                        JsObject.get k (_locations s') = Some d))).
      * intros x l s2 h2 (HR & Hc2 & Hr2 & Hg2 & Hin & Hkeep).
        apply wp_with_own_row;
          [intros _ | unfold guard_intact in Hg2; intros Hg'; congruence].
        destruct (JsObject.get x (_locations s2)) as [d|] eqn:Hx;
          [|repeat split; auto].
        assert (Hwf2 : registry_well_formed s2)
          by (unfold registry_well_formed; now rewrite HR).
        destruct (_geohashInSomeQuery_returns X (Some (geohash d)) Hwf2) as [b Hb].
        apply wp_bind. eapply wp_of_eq; [exact Hb|]. rewrite app_nil_r.
        destruct b; [apply wp_ret; repeat split; auto|].
        apply wp_modify. state_simpl.
        split; [|split; [|split; [|split; [|split]]]]; auto.
        -- now apply guard_intact_delete.
        -- intros k d' Hk. destruct (string_dec k x) as [->|Hne].
           ++ now rewrite JsObjectFacts.get_delete_same in Hk.
           ++ rewrite JsObjectFacts.get_delete_other in Hk by auto. auto.
        -- intros k d' Hk Hheld. specialize (Hkeep k d' Hk Hheld).
           destruct (string_dec k x) as [->|Hne].
           ++ exfalso. rewrite Hx in Hkeep. injection Hkeep as ->.
              destruct Hheld as (q & lo & hi & Hq & Hsplit & Hlo & Hhi).
              assert (Hq1 : JsObject.get q (_currentGeohashesQueried s2) = Some true).
              { rewrite HR, HR1. unfold R0. now rewrite Hq. }
              unfold _geohashInSomeQuery in Hb.
              erewrite bind_Normal in Hb by reflexivity.
              cbn [state_of completion_of effects_of fst snd app] in Hb.
              erewrite geohash_in_queries_covering in Hb; eauto.
              ** discriminate Hb.
              ** eapply JsObjectFacts.get_Some_In; eauto.
           ++ now rewrite JsObjectFacts.get_delete_other by auto.
      * unfold guard_intact. rewrite Hloc. repeat split; auto.
    + intros a2 s2 h2 (HR & Hc2 & Hr2 & Hg2 & Hin & Hkeep).
      apply wp_bind, wp_modify. apply wp_bind, wp_gets.
      state_simpl. destruct (_cleanUpCurrentGeohashesQueriedTimeout s2).
      * unfold clearTimeout. apply wp_bind, wp_perform, wp_modify.
        state_simpl. rewrite HR. repeat split; auto.
      * apply wp_ret. state_simpl. rewrite HR. repeat split; auto.
    + intros s' h' HE. exact HE.
  - intros s' h' HE. exact HE.
Qed.

Lemma quiet__cleanUpCurrentGeohashesQueried s :
  Forall (fun e => client_visible e = false)
         (effects_of (_cleanUpCurrentGeohashesQueried X s)).
Proof.
  assert (Hk : keeps (fun _ h => Forall (fun e => client_visible e = false) h)
                     (_cleanUpCurrentGeohashesQueried X)).
  { keeps_statements ltac:(first
      [ apply keeps_modify; intros ? ? ?; assumption
      | apply keeps_perform; intros ? ? ?; apply Forall_app; split;
        [assumption | now repeat constructor] ]). }
  apply (Hk s []). constructor.
Qed.

End Covering.

Section CoveredCleanup.

Variable X : Collaborators.

Hypothesis contract : coverage_contract X.

Lemma covering_delete_location key s :
  covering X s -> covering X (set_locations (JsObject.delete key (_locations s)) s).
Proof.
  intros [Hg HK]. split; auto. intros k d Hk. state_simpl.
  destruct (string_dec k key) as [->|Hne].
  - now rewrite JsObjectFacts.get_delete_same in Hk.
  - rewrite JsObjectFacts.get_delete_other in Hk by auto. eauto.
Qed.

Lemma covering__updateLocation key loc : stable (covering X) (_updateLocation X key loc).
Proof.
  apply wp_keeps. intros s h Hcov. pose proof Hcov as [Hg HK]. unfold _updateLocation.
  destruct (validateLocation X loc); [|now apply wp_throw].
  apply wp_bind, wp__locations_hasOwnProperty; [intros _ | intros _; exact Hcov].
  apply wp_bind, wp_gets.
  apply wp_bind, wp__locations_hasOwnProperty; [intros _ | intros _; exact Hcov].
  apply wp_bind, wp_gets, wp_bind, wp_gets, wp_bind, wp__locations_assign.
  match goal with
  | |- wp _ _ _ ?s2 _ => assert (Hset : covering X s2)
  end.
  { destruct (String.eqb key "__proto__" &&
              negb (JsObject.hasOwnProperty key (_locations s))); [exact Hcov|].
    split; auto. intros k d Hk. state_simpl.
    destruct (string_dec k key) as [->|Hne].
    - rewrite JsObjectFacts.get_set_same in Hk. now injection Hk as <-.
    - rewrite JsObjectFacts.get_set_other in Hk by auto. eauto. }
  wp_branches; first [apply wp__fireCallbacksForKey; intros o; exact Hset
                     | apply wp_ret; exact Hset].
Qed.

Lemma covering__cleanUpCurrentGeohashesQueried s :
  well_formed X s -> covering X s ->
  covering X (state_of (_cleanUpCurrentGeohashesQueried X s)).
Proof.
  intros (_ & _ & Hwf & _ & Hguard) [Hg HK].
  pose proof (@_cleanUpCurrentGeohashesQueried_entries X s [] Hwf Hguard) as H.
  unfold wp in H.
  destruct (_cleanUpCurrentGeohashesQueried X s) as [[[a|e] s1] o1]; [|destruct H].
  destruct H as (Hreg & Hc & Hr & Hin & _). cbn [state_of fst snd]. split.
  - intros k d Hk. eauto.
  - intros q Hq. rewrite Hc, Hr in Hq. rewrite Hreg. now rewrite (HK q Hq).
Qed.

Lemma covering_updateCriteria newQueryCriteria s :
  well_formed X s -> covering X s ->
  covering X (state_of (updateCriteria X newQueryCriteria s)).
Proof.
  intros (Hnd & Hndr & Hwf & Hcur & Hguard) [Hg HK].
  destruct (validateCriteria X newQueryCriteria false) eqn:Hvalid.
  - rewrite updateCriteria_eq by auto. cbn [state_of fst snd].
    match goal with
    | |- covering X (state_of (_listenForNewGeohashes X ?s1)) =>
        pose proof (@_listenForNewGeohashes_registers X (proj1 contract) s1 [] Hndr) as H;
        unfold wp in H;
        destruct (_listenForNewGeohashes X s1) as [[[a|e] s2] o2]; [|destruct H]
    end.
    destruct H as (Hloc & Hc & Hr & HK'). state_simpl. cbn [state_of fst snd]. split.
    + intros k d Hk. rewrite Hloc, JsObjectFacts.get_map_values in Hk.
      destruct (JsObject.get k (_locations s)) as [d0|] eqn:Hk0; [|discriminate].
      injection Hk as <-. cbn [reassessed geohash location]. eauto.
    + intros q Hq. rewrite Hc, Hr in Hq. auto.
  - unfold updateCriteria. rewrite Hvalid. cbn. now split.
Qed.

Ltac covering_leaf :=
  first
    [ apply stable_fire
    | apply stable_ready
    | apply stable_perform
    | apply covering__updateLocation
    | apply stable_modify; intros ? ?;
      first [ assumption | now apply covering_delete_location ] ].

Lemma covering_handle (i : Input X) s :
  cancels i = false -> well_formed X s -> covering X s ->
  covering X (state_of (handle i s)).
Proof.
  intros Hi Hwf Hcov.
  destruct i; cbn [cancels handle] in *; try discriminate;
    try (apply stable_state; [unfold stable; keeps_statements covering_leaf | exact Hcov];
         fail).
  - now apply covering__cleanUpCurrentGeohashesQueried.
  - unfold interval_callback. rewrite state_of_bind.
    cbn [gets completion_of state_of fst snd].
    destruct (_geohashCleanupScheduled s); [exact Hcov|].
    now apply covering__cleanUpCurrentGeohashesQueried.
  - now apply covering_updateCriteria.
  - apply stable_state; [|exact Hcov]. unfold on, stable.
    destruct (EventType_of_string eventType) as [t|]; [|apply keeps_throw].
    apply keeps_bind; [apply stable_modify; intros s' Hs'; exact Hs' | intros _].
    apply keeps_bind; [|intros _]; destruct t; keeps_statements covering_leaf.
Qed.

(** An entry flagged in-query lies in a range flagged [true]. *)
Lemma in_query_held s key d :
  well_formed X s -> covering X s ->
  JsObject.get key (_locations s) = Some d -> isInQuery d = true ->
  held_by_active_range s (geohash d).
Proof.
  intros (_ & _ & _ & Hcur & _) [Hg HK] Hget Hin.
  destruct (Hcur key d Hget) as [Hd Hi]. rewrite Hin, Hd in Hi.
  destruct contract as [Hcolon Hcover].
  destruct (Hcover _ _ _ (eq_sym Hi)) as (lo & hi & Hq & Hlo & Hhi).
  destruct (Hcolon _ _ _ _ Hq) as [Hclo Hchi].
  exists (_queryToString (lo, hi)), lo, hi. rewrite (Hg key d Hget).
  repeat split; auto. now apply split__queryToString.
Qed.

Lemma alternating__cleanUpCurrentGeohashesQueried s h :
  well_formed X s -> covering X s -> alternating s h ->
  alternating (state_of (_cleanUpCurrentGeohashesQueried X s))
              (h ++ effects_of (_cleanUpCurrentGeohashesQueried X s)).
Proof.
  intros Hwf Hcov Halt.
  pose proof (quiet__cleanUpCurrentGeohashesQueried X s) as Hquiet.
  pose proof (@_cleanUpCurrentGeohashesQueried_entries X s []
                (proj1 (proj2 (proj2 Hwf))) (proj2 (proj2 (proj2 (proj2 Hwf))))) as H.
  unfold wp in H.
  destruct (_cleanUpCurrentGeohashesQueried X s) as [[[a|e] s1] o1]; [|destruct H].
  destruct H as (_ & _ & _ & Hin & Hkeep). cbn [state_of effects_of fst snd] in *.
  intros key Hkey. rewrite enter_exit_app, (Halt key Hkey), enter_exit_quiet.
  - f_equal. unfold in_query.
    destruct (JsObject.get key (_locations s)) as [d|] eqn:Hk.
    + destruct (isInQuery d) eqn:Hd.
      * rewrite (Hkeep key d Hk); auto. eapply in_query_held; eauto.
      * destruct (JsObject.get key (_locations s1)) as [d'|] eqn:Hk1; auto.
        apply Hin in Hk1. congruence.
    + destruct (JsObject.get key (_locations s1)) as [d'|] eqn:Hk1; auto.
      apply Hin in Hk1. congruence.
  - eapply Forall_impl; [|exact Hquiet]. intros [] He; auto; discriminate.
Qed.

Lemma covering_constructor c s0 o0 : GeoQuery X c = Some (s0, o0) -> covering X s0.
Proof.
  unfold GeoQuery. intros Hnew.
  assert (Hwp : wp (constructor X c) (fun _ s' _ => covering X s') (fun _ _ => True)
                   declared []).
  { unfold constructor.
    apply wp_bind, wp_gets, wp_bind, wp_modify, wp_bind, wp_perform, wp_bind, wp_modify.
    destruct (validateCriteria X c true); [|now apply wp_throw].
    destruct (center c) as [c0|]; [|now apply wp_throw].
    destruct (radius c) as [r0|]; [|now apply wp_throw].
    apply wp_bind, wp_modify.
    eapply wp_mono; [apply (@_listenForNewGeohashes_registers X (proj1 contract)) | | ].
    - constructor.
    - intros a s' h' (Hloc & Hc & Hr & HK). split.
      + intros k d Hk. rewrite Hloc in Hk. discriminate Hk.
      + intros q Hq. rewrite Hc, Hr in Hq. auto.
    - intros s' h' []. }
  unfold wp in Hwp.
  destruct (constructor X c declared) as [[[a|e] s1] o1]; [|discriminate].
  injection Hnew as <- <-. exact Hwp.
Qed.

(** What the invariant of this section says of a state and a history. *)
Lemma covered_handle (i : Input X) s h :
  cancels i = false ->
  delivers "hasOwnProperty" i = false ->
  alternating s h /\ well_formed X s /\ covering X s ->
  alternating (state_of (handle i s)) (h ++ effects_of (handle i s)) /\
  well_formed X (state_of (handle i s)) /\
  covering X (state_of (handle i s)).
Proof.
  intros Hi Hgiven (Halt & Hwf & Hcov). split; [|split].
  - destruct (discards_entries i) eqn:Hd.
    + destruct i; try discriminate; cbn [handle].
      * now apply alternating__cleanUpCurrentGeohashesQueried.
      * unfold interval_callback. rewrite state_of_bind, effects_of_bind.
        cbn [gets completion_of state_of effects_of fst snd app].
        destruct (_geohashCleanupScheduled s).
        -- cbn. now rewrite app_nil_r.
        -- now apply alternating__cleanUpCurrentGeohashesQueried.
    + now apply alternating_handle.
  - apply stable_state; [now apply well_formed_handle | exact Hwf].
  - now apply covering_handle.
Qed.

End CoveredCleanup.

(** X17. Entries and exits still alternate when cleanup passes are interleaved
    with everything else, short of [cancel], provided the coverage
    computation covers the circle of the query and no child named
    ["hasOwnProperty"] is delivered: a pass then never drops an entry
    flagged in-query, so no key other than ["__proto__"] has [key_entered]
    fire twice without [key_exited] in between. *)
Theorem no_duplicate_enter_through_cleanup (X : Collaborators) (c : Criteria)
    (s0 : State) (o0 : list Effect) (inputs : list (Input X)) (key : string) :
  coverage_contract X ->
  GeoQuery X c = Some (s0, o0) ->
  Forall (fun i => cancels i = false) inputs ->
  Forall (fun i => delivers "hasOwnProperty" i = false) inputs ->
  key <> "__proto__" ->
  ~ duplicate_enter key (o0 ++ snd (run inputs s0)).
Proof.
  intros Hcontract Hnew Hinputs Hgiven Hkey.
  assert (H0 : alternating s0 o0 /\ well_formed X s0 /\ covering X s0).
  { split; [|split].
    - pose proof (@alternating_constructor X c declared [] (fun k _ => eq_refl)) as Hk.
      unfold GeoQuery in Hnew.
      destruct (constructor X c declared) as [[[a|e] s1] o1]; [|discriminate].
      injection Hnew as <- <-. exact Hk.
    - apply (@well_formed_reachable X c s0 o0 [] Hnew). constructor.
    - eapply covering_constructor; eauto. }
  assert (Hrun : forall (l : list (Input X)) s h,
             Forall (fun i => cancels i = false) l ->
             Forall (fun i => delivers "hasOwnProperty" i = false) l ->
             alternating s h /\ well_formed X s /\ covering X s ->
             alternating (fst (run l s)) (h ++ snd (run l s))).
  { induction l as [|i l IH]; intros s h Hl Hl2 Hs; cbn [run fst snd].
    - rewrite app_nil_r. tauto.
    - inversion Hl as [|? ? Hi Hl']; subst.
      inversion Hl2 as [|? ? Hi2 Hl2']; subst. rewrite app_assoc.
      apply IH; auto. now apply covered_handle. }
  eapply enter_exit_no_duplicate. apply (Hrun inputs s0 o0 Hinputs Hgiven H0). exact Hkey.
Qed.

Lemma demo_world_coverage : coverage_contract demo_world.
Proof.
  split.
  - intros c r lo hi [E|[]]. injection E as <- <-. split; reflexivity.
  - intros c r loc _. exists "0", "~". split; [now left|].
    cbn [encodeGeohash demo_world]. unfold demo_quadrant.
    destruct (PrimFloat.leb 0 (fst loc)), (PrimFloat.leb 0 (snd loc)); split; reflexivity.
Qed.

Lemma no_duplicate_enter_through_cleanup_witness :
  ~ duplicate_enter "a"
      (effects_of (constructor demo_world (mkCriteria (Some origin) (Some 1%float))
                     declared) ++
       snd (run [firebase_child_added (mkDataSnapshot demo_world "a" (Some origin));
                 call_updateCriteria (mkCriteria (Some ((-1)%float, (-1)%float)) None);
                 timeout_elapsed;
                 firebase_child_changed (mkDataSnapshot demo_world "a" (Some origin));
                 interval_elapsed;
                 call_updateCriteria (mkCriteria (Some origin) None)]
                (state_of (constructor demo_world
                             (mkCriteria (Some origin) (Some 1%float)) declared)))).
Proof.
  apply (@no_duplicate_enter_through_cleanup demo_world
           (mkCriteria (Some origin) (Some 1%float))).
  - exact demo_world_coverage.
  - vm_compute. reflexivity.
  - repeat constructor.
  - repeat constructor.
  - discriminate.
Defined.

(** * Further properties of the code *)

(** ** Range keys: encoding and decoding *)

Section QueryStrings.

Lemma split_length s : List.length (split ":" s) = S (colons s).
Proof.
  induction s as [|c s IH]; cbn [split colons]; [reflexivity|].
  destruct (Ascii.eqb c ":"); cbn [List.length]; [now rewrite IH|].
  destruct (split ":" s) as [|piece pieces]; [discriminate IH|].
  cbn [List.length] in *. exact IH.
Qed.

Lemma colons_append a b : colons (a ++ b)%string = colons a + colons b.
Proof.
  induction a as [|c a IH]; cbn [String.append colons]; [reflexivity|].
  rewrite IH. apply Nat.add_assoc.
Qed.

Lemma no_colon_colons s : no_colon s = true <-> colons s = 0.
Proof.
  induction s as [|c s IH]; cbn [no_colon colons]; [tauto|].
  destruct (Ascii.eqb c ":"); cbn [negb andb]; [split; discriminate|].
  exact IH.
Qed.

End QueryStrings.

(** X1. Decoding an encoded range gives the range back when neither bound
    holds a colon; when a bound holds one, [_stringToQuery] throws its
    "invalid internal state" error.  Either way the state is untouched. *)
Theorem query_string_round_trip (lo hi : string) (s : State) :
  _stringToQuery (_queryToString (lo, hi)) s =
  if no_colon lo && no_colon hi
  then (Normal (lo, hi), s, [])
  else (Throw ("Invalid internal state! Not a valid geohash query: "
               ++ _queryToString (lo, hi))%string, s, []).
Proof.
  destruct (no_colon lo && no_colon hi) eqn:Hc.
  - apply andb_prop in Hc. destruct Hc as [Hlo Hhi].
    apply _stringToQuery_well_formed. now apply split__queryToString.
  - unfold _stringToQuery.
    assert (Hlen : 3 <= List.length (split ":" (_queryToString (lo, hi)))).
    { rewrite split_length. unfold _queryToString. cbn [fst snd].
      rewrite colons_append.
      change (colons (":" ++ hi)) with (1 + colons hi).
      apply andb_false_iff in Hc.
      destruct Hc as [Hc|Hc]; apply not_true_iff_false in Hc;
        rewrite no_colon_colons in Hc; lia. }
    destruct (split ":" (_queryToString (lo, hi))) as [|a [|b [|c l]]];
      cbn [List.length] in Hlen; try lia; reflexivity.
Qed.

(** ** Deduplication of the coverage *)

(** X2. The filter that removes duplicate ranges keeps every range of the
    list, and keeps it once. *)
Theorem filter_first_occurrences_spec (l : list string) :
  NoDup (filter_first_occurrences l) /\
  forall y, In y (filter_first_occurrences l) <-> In y l.
Proof.
  split; [apply filter_first_occurrences_NoDup|].
  intros y. split;
    [apply filter_first_occurrences_In | apply In_filter_first_occurrences].
Qed.

(** ** The coverage check *)

Section CoverageCheck.

Variable X : Collaborators.

Lemma geohash_in_queries_exact g queryStrs s :
  Forall well_formed_query_string queryStrs ->
  exists b, geohash_in_queries X g queryStrs s = (Normal b, s, []) /\
            (b = true <-> held_by_range X queryStrs g).
Proof.
  induction 1 as [|q l [a [b Hq]] Hl IH]; cbn [geohash_in_queries].
  - exists false. split; [reflexivity|]. split; [discriminate|].
    intros (q & lo & hi & [] & _).
  - erewrite bind_Normal by (apply _stringToQuery_well_formed; exact Hq).
    cbn [fst snd]. destruct (js_ge X g a && js_le X g b) eqn:Hc.
    + exists true. split; [reflexivity|]. split; auto. intros _.
      apply andb_prop in Hc. exists q, a, b. repeat split; tauto || now left.
    + destruct IH as (b' & -> & Hiff). exists b'. split; [reflexivity|].
      rewrite Hiff. split.
      * intros (q' & lo & hi & HIn & Hrest). exists q', lo, hi. split; auto. now right.
      * intros (q' & lo & hi & [<-|HIn] & Hsplit & Hge & Hle).
        -- rewrite Hq in Hsplit. injection Hsplit as <- <-.
           now rewrite Hge, Hle in Hc.
        -- exists q', lo, hi. auto.
Qed.

Lemma _geohashInSomeQuery_exact g s :
  registry_well_formed s ->
  exists b,
    _geohashInSomeQuery X g s = (Normal b, s, []) /\
    (b = true <-> held_by_range X (JsObject.keys (_currentGeohashesQueried s)) g).
Proof.
  intros Hwf. unfold _geohashInSomeQuery. erewrite bind_Normal by reflexivity.
  cbn [state_of completion_of effects_of fst snd app].
  destruct (geohash_in_queries_exact g s Hwf) as (b & -> & Hiff).
  exists b. split; [reflexivity | exact Hiff].
Qed.

End CoverageCheck.

(** X3. On a registry whose keys decode, [_geohashInSomeQuery] returns
    without touching the state, and answers [true] exactly when some
    registered range, whatever its flag, has bounds that enclose the
    geohash. *)
Theorem coverage_check_exact (X : Collaborators) (g : option string) (s : State) :
  registry_well_formed s ->
  exists b,
    _geohashInSomeQuery X g s = (Normal b, s, []) /\
    (b = true <-> held_by_range X (JsObject.keys (_currentGeohashesQueried s)) g).
Proof.
  intros Hwf. destruct (_geohashInSomeQuery_exact X g Hwf) as (b & Hb & Hiff).
  exists b. split; [exact Hb|]. split; apply Hiff.
Qed.

Lemma coverage_check_exact_witness :
  exists b,
    _geohashInSomeQuery demo (Some "k") demo_moved = (Normal b, demo_moved, []) /\
    (b = true <->
     held_by_range demo (JsObject.keys (_currentGeohashesQueried demo_moved)) (Some "k")).
Proof.
  apply (@coverage_check_exact demo (Some "k") demo_moved).
  well_formed_by_evaluation.
Defined.

(** C10. The coverage check looks at the keys of the registry only, never
    at their flags: a geohash inside any registered range, whatever its
    flag, is covered, and the answer is the same in every state whose
    registry has the same keys.  The cleanup pass is what ends it: the pass
    keeps exactly the ranges flagged [true], and after it the check
    answers [true] exactly when one of those holds the geohash, so an
    inactive range (flag [false]) no longer covers.  The registry is swept
    first: this holds also when the sweep of the location table throws. *)
Theorem inactive_range_still_covers (X : Collaborators) (s : State) (g : option string)
    (queryStr lo hi : string) (flag : bool) :
  registry_well_formed s ->
  JsObject.get queryStr (_currentGeohashesQueried s) = Some flag ->
  split ":" queryStr = [lo; hi] ->
  js_ge X g lo = true -> js_le X g hi = true ->
  _geohashInSomeQuery X g s = (Normal true, s, []) /\
  (forall s', JsObject.keys (_currentGeohashesQueried s')
              = JsObject.keys (_currentGeohashesQueried s) ->
              completion_of (_geohashInSomeQuery X g s') = Normal true) /\
  let s1 := state_of (_cleanUpCurrentGeohashesQueried X s) in
  (forall q, JsObject.get q (_currentGeohashesQueried s1) =
             match JsObject.get q (_currentGeohashesQueried s) with
             | Some true => Some true
             | _ => None
             end) /\
  exists b,
    _geohashInSomeQuery X g s1 = (Normal b, s1, []) /\
    (b = true <->
     exists q lo' hi',
       JsObject.get q (_currentGeohashesQueried s) = Some true /\
       split ":" q = [lo'; hi'] /\
       js_ge X g lo' = true /\ js_le X g hi' = true).
Proof.
  intros Hwf Hget Hsplit Hge Hle.
  assert (Hcov : forall s', JsObject.keys (_currentGeohashesQueried s')
                            = JsObject.keys (_currentGeohashesQueried s) ->
                 _geohashInSomeQuery X g s' = (Normal true, s', [])).
  { intros s' Hkeys. unfold _geohashInSomeQuery.
    erewrite bind_Normal by reflexivity. rewrite Hkeys.
    erewrite geohash_in_queries_covering; eauto.
    eapply JsObjectFacts.get_Some_In; eauto. }
  split; [now apply Hcov|]. split; [intros s' Hkeys; now rewrite Hcov|].
  intros s1.
  assert (Hswept : registry_swept s s1).
  { pose proof (@_cleanUpCurrentGeohashesQueried_registry X s [] Hwf) as H.
    unfold wp in H. subst s1.
    destruct (_cleanUpCurrentGeohashesQueried X s) as [[[a|e] s2] o2]; exact H. }
  destruct Hswept as [Hwf1 Hreg]. split; [exact Hreg|].
  destruct (@_geohashInSomeQuery_exact X g s1 Hwf1) as (b & Hb & Hiff).
  exists b. split; [exact Hb|]. rewrite Hiff. unfold held_by_range. split.
  - intros (q & lo' & hi' & HIn & Hq & Hlo & Hhi).
    apply JsObjectFacts.In_keys_get in HIn. destruct HIn as [f Hf].
    rewrite Hreg in Hf. exists q, lo', hi'. repeat split; auto.
    destruct (JsObject.get q (_currentGeohashesQueried s)) as [[|]|];
      [reflexivity | discriminate | discriminate].
  - intros (q & lo' & hi' & Hq1 & Hq & Hlo & Hhi).
    exists q, lo', hi'. repeat split; auto.
    apply (@JsObjectFacts.get_Some_In _ q true). now rewrite Hreg, Hq1.
Qed.

Lemma inactive_range_still_covers_witness :
  _geohashInSomeQuery demo (Some "s") demo_moved = (Normal true, demo_moved, []) /\
  _geohashInSomeQuery demo (Some "s")
    (state_of (_cleanUpCurrentGeohashesQueried demo demo_moved))
  = (Normal false, state_of (_cleanUpCurrentGeohashesQueried demo demo_moved), []).
Proof.
  pose proof (@inactive_range_still_covers demo demo_moved (Some "s") "s:s~" "s" "s~" false)
    as H.
  cbv zeta in H. destruct H as (Hbefore & _ & _ & b & Hb & _).
  - well_formed_by_evaluation.
  - vm_compute. reflexivity.
  - reflexivity.
  - reflexivity.
  - reflexivity.
  - split; [exact Hbefore|]. rewrite Hb.
    vm_compute in Hb. injection Hb as <-. reflexivity.
Defined.

(** ** Location updates *)

Section LocationUpdates.

Variable X : Collaborators.

(** [_updateLocation] on a valid location, the guard being intact: the
    entry it stores, or makes the prototype, and the one event it fires, if
    any. *)
Lemma _updateLocation_eq key loc s :
  validateLocation X loc = true ->
  guard_intact s ->
  let was := in_query key s in
  let dist := distance X loc (_center s) in
  let now := PrimFloat.leb dist (_radius s) in
  let moved := match JsObject.get key (_locations s) with
               | Some d => coordinates_differ loc (location d)
               | None => false
               end in
  let row := mkLocationDict loc dist now
               (encodeGeohash X loc (Some (g_GEOHASH_PRECISION X))) in
  _updateLocation X key loc s =
  (Normal tt,
   (if String.eqb key "__proto__" && negb (JsObject.hasOwnProperty key (_locations s))
    then set_locations_prototype (Some row) s
    else set_locations (JsObject.set key row (_locations s)) s),
   if now && negb was then fired key_entered key loc dist (_callbacks s)
   else if now && moved then fired key_moved key loc dist (_callbacks s)
   else if negb now && was then fired key_exited key loc dist (_callbacks s)
   else []).
Proof.
  intros Hvalid Hg was dist now moved row. unfold _updateLocation. rewrite Hvalid.
  erewrite bind_Normal by (apply _locations_hasOwnProperty_eq; exact Hg).
  erewrite bind_Normal by reflexivity.
  cbn [state_of completion_of effects_of fst snd app].
  erewrite bind_Normal by (apply _locations_hasOwnProperty_eq; exact Hg).
  erewrite bind_Normal by reflexivity. erewrite bind_Normal by reflexivity.
  cbn [state_of completion_of effects_of fst snd app]. cbv zeta.
  erewrite bind_Normal by apply _locations_assign_eq.
  cbn [state_of completion_of effects_of fst snd app].
  fold dist. fold now. fold row.
  replace (if JsObject.hasOwnProperty key (_locations s)
           then match JsObject.get key (_locations s) with
                | Some d => isInQuery d | None => false end
           else false) with was
    by (unfold was, in_query, JsObject.hasOwnProperty;
        now destruct (JsObject.get key (_locations s))).
  replace (match (if JsObject.hasOwnProperty key (_locations s)
                  then match JsObject.get key (_locations s) with
                       | Some d => Some (location d) | None => None end
                  else None) with
           | Some old => negb (PrimFloat.eqb (fst loc) (fst old))
                         || negb (PrimFloat.eqb (snd loc) (snd old))
           | None => false end) with moved
    by (unfold moved, JsObject.hasOwnProperty;
        now destruct (JsObject.get key (_locations s))).
  set (s1 := if String.eqb key "__proto__" && _ then _ else _).
  assert (Hcb : _callbacks s1 = _callbacks s)
    by (unfold s1; now destruct (String.eqb key "__proto__" && _)).
  unfold fired.
  destruct (now && negb was);
    [| destruct (now && moved); [| destruct (negb now && was); [| reflexivity]]];
    rewrite _fireCallbacksForKey_eq by discriminate; rewrite Hcb; reflexivity.
Qed.

(** For every key but ["__proto__"] the entry is stored in the table. *)
Lemma _updateLocation_stores key loc s :
  validateLocation X loc = true ->
  guard_intact s ->
  key <> "__proto__" ->
  state_of (_updateLocation X key loc s) =
  set_locations
    (JsObject.set key
       (mkLocationDict loc (distance X loc (_center s))
          (PrimFloat.leb (distance X loc (_center s)) (_radius s))
          (encodeGeohash X loc (Some (g_GEOHASH_PRECISION X))))
       (_locations s)) s.
Proof.
  intros Hvalid Hg Hkey. rewrite (_updateLocation_eq key loc Hvalid Hg).
  cbn [state_of fst snd].
  now replace (String.eqb key "__proto__") with false
    by (symmetry; now apply String.eqb_neq).
Qed.

Lemma count_fired_of_fired t t' key loc dist callbacks :
  count_fired t key (fired t' key loc dist callbacks) =
  if EventType_eqb t' t then 1 else 0.
Proof.
  unfold count_fired, fired. cbn [filter is_Fire]. rewrite String.eqb_refl, andb_true_r.
  assert (Hcalls : filter (is_Fire t key)
            (map (fun cb => Call cb key (Some loc) (Some dist)) (callbacks_of t' callbacks))
            = []).
  { induction (callbacks_of t' callbacks) as [|cb l IH]; [reflexivity | exact IH]. }
  destruct (EventType_eqb t' t); cbn [List.length]; now rewrite Hcalls.
Qed.

Lemma about_fired t key loc dist callbacks :
  Forall (fun e => about key e = true) (fired t key loc dist callbacks).
Proof.
  unfold fired. constructor; [apply String.eqb_refl|].
  apply Forall_forall. intros e He. apply in_map_iff in He.
  destruct He as (cb & <- & _). apply String.eqb_refl.
Qed.

End LocationUpdates.

(** X4. [_updateLocation] on a valid location, for a key other than
    ["__proto__"] and a table with no row under ["hasOwnProperty"],
    returns; it stores the entry of the key afresh (location, distance to
    the current center, whether that is within the radius, geohash) and
    leaves the other entries alone; and it fires at most one event, for
    that key only: [key_entered] when the key is now inside and was not,
    [key_moved] when it was inside, still is, and a coordinate changed,
    [key_exited] when it was inside and no longer is. *)
Theorem _updateLocation_events (X : Collaborators) (key : string) (loc : Location)
    (s : State) :
  validateLocation X loc = true ->
  guard_intact s ->
  key <> "__proto__" ->
  let r := _updateLocation X key loc s in
  let was := in_query key s in
  let dist := distance X loc (_center s) in
  let now := PrimFloat.leb dist (_radius s) in
  let moved := match JsObject.get key (_locations s) with
               | Some d => coordinates_differ loc (location d)
               | None => false
               end in
  completion_of r = Normal tt /\
  JsObject.get key (_locations (state_of r)) =
    Some (mkLocationDict loc dist now (encodeGeohash X loc (Some (g_GEOHASH_PRECISION X)))) /\
  (forall k, k <> key ->
     JsObject.get k (_locations (state_of r)) = JsObject.get k (_locations s)) /\
  count_fired key_entered key (effects_of r) = (if now && negb was then 1 else 0) /\
  count_fired key_moved key (effects_of r) = (if now && was && moved then 1 else 0) /\
  count_fired key_exited key (effects_of r) = (if negb now && was then 1 else 0) /\
  Forall (fun e => about key e = true) (effects_of r).
Proof.
  intros Hvalid Hg Hkey r was dist now moved. unfold r.
  rewrite (@_updateLocation_stores X key loc s Hvalid Hg Hkey).
  rewrite (@_updateLocation_eq X key loc s Hvalid Hg).
  cbn [state_of completion_of effects_of fst snd]. state_simpl.
  fold was. fold dist. fold now. fold moved.
  split; [reflexivity|]. split; [apply JsObjectFacts.get_set_same|].
  split; [intros k Hk; now apply JsObjectFacts.get_set_other|].
  destruct now, was, moved; cbn [andb negb];
    rewrite ?count_fired_of_fired; cbn [EventType_eqb];
    repeat split; try reflexivity; try apply about_fired; constructor.
Qed.

Lemma _updateLocation_events_witness :
  let r := _updateLocation demo "b" origin demo_tracking in
  let was := in_query "b" demo_tracking in
  let dist := distance demo origin (_center demo_tracking) in
  let now := PrimFloat.leb dist (_radius demo_tracking) in
  let moved := match JsObject.get "b" (_locations demo_tracking) with
               | Some d => coordinates_differ origin (location d)
               | None => false
               end in
  completion_of r = Normal tt /\
  JsObject.get "b" (_locations (state_of r)) =
    Some (mkLocationDict origin dist now
            (encodeGeohash demo origin (Some (g_GEOHASH_PRECISION demo)))) /\
  (forall k, k <> "b" ->
     JsObject.get k (_locations (state_of r)) = JsObject.get k (_locations demo_tracking)) /\
  count_fired key_entered "b" (effects_of r) = (if now && negb was then 1 else 0) /\
  count_fired key_moved "b" (effects_of r) = (if now && was && moved then 1 else 0) /\
  count_fired key_exited "b" (effects_of r) = (if negb now && was then 1 else 0) /\
  Forall (fun e => about "b" e = true) (effects_of r).
Proof.
  apply (@_updateLocation_events demo "b" origin demo_tracking);
    [reflexivity | reflexivity | discriminate].
Defined.

(** X5. Delivering a valid location a second time, as happens when two
    registered ranges hold the same key, changes nothing and fires
    nothing, provided its coordinates are equal to themselves (that is,
    neither is [NaN]), the key is neither ["__proto__"] nor
    ["hasOwnProperty"], and the table has no row under ["hasOwnProperty"]. *)
Theorem _updateLocation_redelivery (X : Collaborators) (key : string) (loc : Location)
    (s : State) :
  validateLocation X loc = true ->
  PrimFloat.eqb (fst loc) (fst loc) = true ->
  PrimFloat.eqb (snd loc) (snd loc) = true ->
  guard_intact s ->
  key <> "__proto__" -> key <> "hasOwnProperty" ->
  let s1 := state_of (_updateLocation X key loc s) in
  _updateLocation X key loc s1 = (Normal tt, s1, []).
Proof.
  intros Hvalid Hlat Hlng Hg Hkey Hkey' s1. unfold s1.
  rewrite (@_updateLocation_stores X key loc s Hvalid Hg Hkey).
  match goal with
  | |- _updateLocation X key loc ?s2 = _ =>
      assert (Hg2 : guard_intact s2) by (now apply guard_intact_set);
      rewrite (@_updateLocation_eq X key loc s2 Hvalid Hg2)
  end.
  replace (String.eqb key "__proto__") with false
    by (symmetry; now apply String.eqb_neq).
  unfold in_query. state_simpl. cbn [andb].
  rewrite JsObjectFacts.get_set_same, JsObjectFacts.set_set_same.
  cbn [isInQuery location]. unfold coordinates_differ. rewrite Hlat, Hlng.
  cbn [negb orb]. rewrite andb_false_r.
  destruct (PrimFloat.leb (distance X loc (_center s)) (_radius s));
    cbn [andb negb]; destruct s; reflexivity.
Qed.

Lemma _updateLocation_redelivery_witness :
  let s1 := state_of (_updateLocation demo "a" (0%float, 2%float) demo_tracking) in
  _updateLocation demo "a" (0%float, 2%float) s1 = (Normal tt, s1, []).
Proof.
  apply (@_updateLocation_redelivery demo "a" (0%float, 2%float) demo_tracking);
    first [reflexivity | discriminate].
Defined.

(** ** The ready event *)

Section Ready.

Variable X : Collaborators.

Lemma _fireReadyEventCallbacks_eq s :
  _fireReadyEventCallbacks s = (Normal tt, s, ready_signal (_callbacks s)).
Proof.
  unfold _fireReadyEventCallbacks.
  erewrite bind_Normal by reflexivity. erewrite bind_Normal by reflexivity.
  cbn [state_of completion_of effects_of fst snd]. now rewrite for_each_perform.
Qed.

(** One value of a range arriving: the count goes up by one, and the ready
    state is fired exactly when the count is then the number of ranges
    awaited. *)
Lemma _checkIfShouldFireReadyEvent_eq s :
  let n := S (_numGeohashesToQueryProcessed s) in
  let all := Nat.eqb n (List.length (_geohashesToQuery s)) in
  _checkIfShouldFireReadyEvent s =
  (Normal tt, set_valueEventFired all (set_numGeohashesToQueryProcessed n s),
   if all then ready_signal (_callbacks s) else []).
Proof.
  intros n all. unfold _checkIfShouldFireReadyEvent.
  erewrite bind_Normal by reflexivity. erewrite bind_Normal by reflexivity.
  erewrite bind_Normal by reflexivity.
  cbn [state_of completion_of effects_of fst snd app]. state_simpl.
  fold n. fold all. destruct all; [|reflexivity].
  now rewrite _fireReadyEventCallbacks_eq.
Qed.

Lemma run_app (l1 l2 : list (Input X)) s :
  run (l1 ++ l2) s =
  (fst (run l2 (fst (run l1 s))), snd (run l1 s) ++ snd (run l2 (fst (run l1 s)))).
Proof.
  revert s. induction l1 as [|i l1 IH]; intros s; cbn [app run fst snd].
  - now destruct (run l2 s).
  - rewrite IH. cbn [fst snd]. now rewrite app_assoc.
Qed.

(** [k] values arriving in a row, while no more than the awaited number
    have arrived. *)
Lemma values_run k :
  forall s,
    _numGeohashesToQueryProcessed s + k <= List.length (_geohashesToQuery s) ->
    let m := _numGeohashesToQueryProcessed s + k in
    let all := Nat.eqb m (List.length (_geohashesToQuery s)) in
    run (repeat (@firebase_query_value X) k) s =
    (if Nat.eqb k 0 then s
     else set_valueEventFired all (set_numGeohashesToQueryProcessed m s),
     if Nat.ltb 0 k && all then ready_signal (_callbacks s) else []).
Proof.
  induction k as [|k IH]; intros s Hle; cbn [repeat run handle].
  - reflexivity.
  - rewrite _checkIfShouldFireReadyEvent_eq.
    cbn [state_of effects_of fst snd].
    rewrite IH by (state_simpl; lia). state_simpl. cbn [fst snd].
    change (Nat.eqb (S k) 0) with false. change (Nat.ltb 0 (S k)) with true.
    cbv iota. cbn [andb].
    replace (S (_numGeohashesToQueryProcessed s) + k)
      with (_numGeohashesToQueryProcessed s + S k) by lia.
    destruct k as [|k'].
    + replace (_numGeohashesToQueryProcessed s + 1)
        with (S (_numGeohashesToQueryProcessed s)) by lia.
      change (Nat.eqb 0 0) with true. change (Nat.ltb 0 0) with false.
      cbv iota. cbn [andb]. now rewrite app_nil_r.
    + replace (Nat.eqb (S (_numGeohashesToQueryProcessed s))
                       (List.length (_geohashesToQuery s))) with false
        by (symmetry; apply Nat.eqb_neq; lia).
      change (Nat.eqb (S k') 0) with false. change (Nat.ltb 0 (S k')) with true.
      cbv iota. cbn [andb app]. reflexivity.
Qed.

Lemma on_ready_eq callback s :
  on "ready" callback s =
  (Normal tt,
   set_callbacks (set_callbacks_of ready (cb_ready (_callbacks s) ++ [callback])
                    (_callbacks s)) s,
   if _valueEventFired s then [CallReady callback] else []).
Proof.
  unfold on. change (EventType_of_string "ready") with (Some ready). cbv iota beta.
  erewrite bind_Normal by reflexivity. erewrite bind_Normal by reflexivity.
  erewrite bind_Normal by reflexivity.
  cbn [state_of completion_of effects_of fst snd app callbacks_of]. state_simpl.
  now destruct (_valueEventFired s).
Qed.

Lemma count_ready_calls_signal callback callbacks :
  count_ready_calls callback (ready_signal callbacks) =
  count_occ Nat.eq_dec (cb_ready callbacks) callback.
Proof.
  unfold count_ready_calls, ready_signal. cbn [filter is_CallReady].
  induction (cb_ready callbacks) as [|cb l IH]; [reflexivity|].
  cbn [map filter is_CallReady count_occ].
  destruct (Nat.eq_dec cb callback) as [->|Hne].
  - rewrite Nat.eqb_refl. cbn [List.length]. now rewrite IH.
  - replace (Nat.eqb cb callback) with false by (symmetry; now apply Nat.eqb_neq).
    exact IH.
Qed.

End Ready.

(** X6. After a recomputation left [n] ranges awaited ([n] at least one)
    and the count at zero, the ready event fires when the [n]-th value
    arrives, and not before: the first [n - 1] values do nothing a client
    sees and leave the ready state unfired; the [n]-th fires the ready
    state and invokes every ready callback once, in registration order. *)
Theorem ready_fires_with_last_value (X : Collaborators) (s : State) :
  _numGeohashesToQueryProcessed s = 0 ->
  0 < List.length (_geohashesToQuery s) ->
  let n := List.length (_geohashesToQuery s) in
  (forall k, 0 < k < n ->
     snd (run (repeat (@firebase_query_value X) k) s) = [] /\
     _valueEventFired (fst (run (repeat (@firebase_query_value X) k) s)) = false) /\
  snd (run (repeat (@firebase_query_value X) n) s) = ready_signal (_callbacks s) /\
  _valueEventFired (fst (run (repeat (@firebase_query_value X) n) s)) = true.
Proof.
  intros Hzero Hpos n. split; [intros k Hk | ].
  - rewrite values_run by lia. rewrite Hzero. cbn [fst snd plus].
    replace (Nat.eqb k (List.length (_geohashesToQuery s))) with false
      by (symmetry; apply Nat.eqb_neq; unfold n in Hk; lia).
    rewrite andb_false_r.
    replace (Nat.eqb k 0) with false by (symmetry; apply Nat.eqb_neq; lia).
    split; reflexivity.
  - rewrite values_run by (unfold n; lia). rewrite Hzero. cbn [fst snd plus].
    unfold n. rewrite Nat.eqb_refl, andb_true_r.
    replace (Nat.ltb 0 (List.length (_geohashesToQuery s))) with true
      by (symmetry; apply Nat.ltb_lt; lia).
    replace (Nat.eqb (List.length (_geohashesToQuery s)) 0) with false
      by (symmetry; apply Nat.eqb_neq; lia).
    split; reflexivity.
Qed.

(** Nine ranges are awaited and two ready callbacks are registered: the
    first eight values are silent, the ninth calls both. *)
Lemma ready_fires_with_last_value_witness :
  List.length (_geohashesToQuery demo9_listening) = 9 /\
  ready_signal (_callbacks demo9_listening) = [FireReady; CallReady 3; CallReady 4] /\
  let n := List.length (_geohashesToQuery demo9_listening) in
  (forall k, 0 < k < n ->
     snd (run (repeat (@firebase_query_value demo9) k) demo9_listening) = [] /\
     _valueEventFired (fst (run (repeat (@firebase_query_value demo9) k) demo9_listening))
       = false) /\
  snd (run (repeat (@firebase_query_value demo9) n) demo9_listening)
    = ready_signal (_callbacks demo9_listening) /\
  _valueEventFired (fst (run (repeat (@firebase_query_value demo9) n) demo9_listening))
    = true.
Proof.
  split; [reflexivity|]. split; [reflexivity|].
  apply (@ready_fires_with_last_value demo9 demo9_listening);
    vm_compute; [reflexivity | lia].
Defined.

Lemma count_ready_calls_app callback (h1 h2 : list Effect) :
  count_ready_calls callback (h1 ++ h2) =
  count_ready_calls callback h1 + count_ready_calls callback h2.
Proof. apply count_app. Qed.

Lemma count_occ_last (callback : Callback) (l : list Callback) :
  ~ In callback l -> count_occ Nat.eq_dec (l ++ [callback]) callback = 1.
Proof.
  intros Hnew. rewrite count_occ_app. cbn [count_occ].
  destruct (Nat.eq_dec callback callback); [|congruence].
  pose proof (proj1 (count_occ_not_In Nat.eq_dec l callback) Hnew) as Hcount.
  unfold Callback in *. lia.
Qed.

(** X7. A ready callback registered while the values of the [n] awaited
    ranges arrive is invoked exactly once by the time the last one has
    arrived, whenever it is registered: before the first value, between
    two values, or after the last one (then at once, by [on] itself). *)
Theorem ready_listener_called_once (X : Collaborators) (callback : Callback) (k : nat)
    (s : State) :
  _numGeohashesToQueryProcessed s = 0 ->
  _valueEventFired s = false ->
  0 < List.length (_geohashesToQuery s) ->
  k <= List.length (_geohashesToQuery s) ->
  ~ In callback (cb_ready (_callbacks s)) ->
  count_ready_calls callback
    (snd (run (repeat (@firebase_query_value X) k
               ++ call_on "ready" callback
               :: repeat (@firebase_query_value X) (List.length (_geohashesToQuery s) - k))
              s)) = 1.
Proof.
  intros Hzero Hfalse Hpos Hk Hnew.
  rewrite run_app. cbn [run handle fst snd].
  rewrite (values_run X k s) by lia. rewrite Hzero. cbn [plus fst snd].
  rewrite on_ready_eq. cbn [state_of effects_of fst snd].
  rewrite !count_ready_calls_app.
  destruct (Nat.eq_dec k 0) as [->|Hk0].
  - change (Nat.eqb 0 0) with true. change (Nat.ltb 0 0) with false. cbv iota. cbn [andb].
    rewrite Hfalse, Nat.sub_0_r.
    rewrite values_run by (state_simpl; lia). state_simpl. rewrite Hzero.
    cbn [plus fst snd]. rewrite Nat.eqb_refl, andb_true_r.
    replace (Nat.ltb 0 (List.length (_geohashesToQuery s))) with true
      by (symmetry; apply Nat.ltb_lt; lia).
    rewrite count_ready_calls_signal. cbn [cb_ready set_callbacks_of].
    now rewrite count_occ_last.
  - replace (Nat.eqb k 0) with false by (symmetry; now apply Nat.eqb_neq).
    replace (Nat.ltb 0 k) with true by (symmetry; apply Nat.ltb_lt; lia).
    cbn [andb]. state_simpl.
    destruct (Nat.eqb_spec k (List.length (_geohashesToQuery s))) as [->|Hkn].
    + rewrite Nat.sub_diag. cbn [repeat run snd].
      rewrite count_ready_calls_signal.
      pose proof (proj1 (count_occ_not_In Nat.eq_dec _ callback) Hnew) as Hcount.
      unfold count_ready_calls. cbn [filter is_CallReady List.length].
      rewrite Nat.eqb_refl. cbn [List.length]. unfold Callback in *. lia.
    + rewrite values_run by (state_simpl; lia). state_simpl. cbn [fst snd].
      replace (k + (List.length (_geohashesToQuery s) - k))
        with (List.length (_geohashesToQuery s)) by lia.
      rewrite Nat.eqb_refl, andb_true_r.
      replace (Nat.ltb 0 (List.length (_geohashesToQuery s) - k)) with true
        by (symmetry; apply Nat.ltb_lt; lia).
      rewrite count_ready_calls_signal. cbn [cb_ready set_callbacks_of].
      now rewrite count_occ_last.
Qed.

Lemma ready_listener_called_once_witness :
  count_ready_calls 7
    (snd (run (repeat (@firebase_query_value demo) 1
               ++ call_on "ready" 7
               :: repeat (@firebase_query_value demo)
                    (List.length (_geohashesToQuery demo_query) - 1))
              demo_query)) = 1.
Proof.
  apply (@ready_listener_called_once demo 7 1 demo_query);
    vm_compute; try reflexivity; try lia; tauto.
Defined.

(** ** Registering and cancelling callbacks *)

Section Registrations.

Lemma index_of_last (callback : Callback) (l : list Callback) :
  ~ In callback l -> index_of Nat.eqb callback (l ++ [callback]) = Some (List.length l).
Proof.
  induction l as [|x l IH]; intros Hnew; cbn [app index_of List.length].
  - now rewrite Nat.eqb_refl.
  - replace (Nat.eqb x callback) with false
      by (symmetry; apply Nat.eqb_neq; intros ->; apply Hnew; now left).
    rewrite IH; [reflexivity|]. intros HIn. apply Hnew. now right.
Qed.

Lemma splice1_last (A : Type) (l : list A) (x : A) :
  splice1 (List.length l) (l ++ [x]) = l.
Proof.
  induction l as [|y l IH]; cbn [app splice1 List.length]; [reflexivity|].
  now rewrite IH.
Qed.

(** The first occurrence is the one [splice(indexOf(callback), 1)]
    removes. *)
Lemma splice1_index_of (callback : Callback) (l : list Callback) :
  In callback l ->
  exists i, index_of Nat.eqb callback l = Some i /\
    forall cb, count_occ Nat.eq_dec (splice1 i l) cb + (if Nat.eqb cb callback then 1 else 0)
               = count_occ Nat.eq_dec l cb.
Proof.
  induction l as [|x l IH]; intros HIn; [destruct HIn|].
  cbn [index_of]. destruct (Nat.eqb_spec x callback) as [->|Hne].
  - exists 0. split; [reflexivity|]. intros cb. cbn [splice1 count_occ].
    destruct (Nat.eq_dec callback cb) as [->|Hcb].
    + rewrite Nat.eqb_refl. lia.
    + replace (Nat.eqb cb callback) with false
        by (symmetry; apply Nat.eqb_neq; congruence). lia.
  - destruct IH as (i & Hi & Hcount); [destruct HIn; [congruence | assumption]|].
    exists (S i). rewrite Hi. split; [reflexivity|]. intros cb.
    cbn [splice1 count_occ]. specialize (Hcount cb).
    destruct (Nat.eq_dec x cb); lia.
Qed.

Lemma callbacks_of_set_same t l c : callbacks_of t (set_callbacks_of t l c) = l.
Proof. now destruct t. Qed.

Lemma callbacks_of_set_other t t' l c :
  t' <> t -> callbacks_of t' (set_callbacks_of t l c) = callbacks_of t' c.
Proof. destruct t, t'; intros Hne; reflexivity || congruence. Qed.

Lemma set_callbacks_of_restore t l c :
  set_callbacks_of t (callbacks_of t c) (set_callbacks_of t l c) = c.
Proof. now destruct t, c. Qed.

(** [on] with one of the four event names changes the list of that event
    and nothing else, whether the replay returns or throws. *)
Lemma on_state eventType t callback s :
  EventType_of_string eventType = Some t ->
  state_of (on eventType callback s) =
    set_callbacks (set_callbacks_of t (callbacks_of t (_callbacks s) ++ [callback])
                     (_callbacks s)) s.
Proof.
  intros Ht.
  set (s1 := set_callbacks (set_callbacks_of t (callbacks_of t (_callbacks s) ++ [callback])
                              (_callbacks s)) s).
  assert (Hwp : wp (on eventType callback) (fun _ s' _ => s' = s1) (fun s' _ => s' = s1)
                   s []).
  { unfold on. rewrite Ht. apply wp_bind, wp_modify. fold s1. apply wp_bind.
    - apply wp_mono with (Q := fun _ s' _ => s' = s1) (E := fun s' _ => s' = s1);
        [| intros [] s' h' Hs'; subst s' | intros s' h' HE; exact HE].
      + destruct t; try (apply wp_ret; reflexivity).
        apply wp_bind, wp_gets.
        apply (wp_for_each (fun _ s' (_ : list Effect) => s' = s1)); [|reflexivity].
        intros x l s' h' ->. apply wp_with_own_row; [intros _ | reflexivity].
        destruct (JsObject.get x (_locations s1)) as [d|]; [|reflexivity].
        destruct (isInQuery d); [now apply wp_perform | now apply wp_ret].
      + destruct t; try (apply wp_ret; reflexivity).
        apply wp_bind, wp_gets.
        destruct (_valueEventFired s1); [now apply wp_perform | now apply wp_ret]. }
  unfold wp in Hwp. unfold state_of.
  destruct (on eventType callback s) as [[[[]|e] s'] o]; cbn [fst snd]; now subst s'.
Qed.

End Registrations.

(** X8. Cancelling the registration [on] returned, for a callback that was
    not registered for the event before, undoes the registration: the
    instance is back in the state it had before [on], and the cancellation
    itself performs nothing. *)
Theorem registration_round_trip (eventType : string) (t : EventType)
    (callback : Callback) (s : State) :
  EventType_of_string eventType = Some t ->
  ~ In callback (callbacks_of t (_callbacks s)) ->
  registration_cancel t callback (state_of (on eventType callback s)) = (Normal tt, s, []).
Proof.
  intros Ht Hnew. rewrite (@on_state eventType t callback s Ht).
  unfold registration_cancel, modify. state_simpl.
  rewrite callbacks_of_set_same, index_of_last by exact Hnew.
  rewrite splice1_last, set_callbacks_of_restore. now destruct s.
Qed.

Lemma registration_round_trip_witness :
  registration_cancel key_moved 9 (state_of (on "key_moved" 9 demo_tracking))
  = (Normal tt, demo_tracking, []).
Proof.
  apply (@registration_round_trip "key_moved" key_moved 9 demo_tracking).
  - reflexivity.
  - vm_compute. tauto.
Defined.

(** X9. Cancelling the registration of a callback that is registered for
    the event removes one occurrence of it from the list of that event,
    removes no other callback, and leaves the lists of the other events
    alone. *)
Theorem registration_cancel_removes_one (t : EventType) (callback : Callback) (s : State) :
  In callback (callbacks_of t (_callbacks s)) ->
  let s' := state_of (registration_cancel t callback s) in
  (forall cb,
     count_occ Nat.eq_dec (callbacks_of t (_callbacks s')) cb
     + (if Nat.eqb cb callback then 1 else 0)
     = count_occ Nat.eq_dec (callbacks_of t (_callbacks s)) cb) /\
  (forall t', t' <> t ->
     callbacks_of t' (_callbacks s') = callbacks_of t' (_callbacks s)).
Proof.
  intros HIn s'. unfold s', registration_cancel, modify. cbn [state_of fst snd].
  state_simpl. destruct (splice1_index_of _ _ HIn) as (i & -> & Hcount). split.
  - intros cb. rewrite callbacks_of_set_same. apply Hcount.
  - intros t' Hne. now apply callbacks_of_set_other.
Qed.

Lemma registration_cancel_removes_one_witness :
  let s' := state_of (registration_cancel key_entered 1 demo_tracking) in
  (forall cb,
     count_occ Nat.eq_dec (callbacks_of key_entered (_callbacks s')) cb
     + (if Nat.eqb cb 1 then 1 else 0)
     = count_occ Nat.eq_dec (callbacks_of key_entered (_callbacks demo_tracking)) cb) /\
  (forall t', t' <> key_entered ->
     callbacks_of t' (_callbacks s') = callbacks_of t' (_callbacks demo_tracking)).
Proof.
  apply (@registration_cancel_removes_one key_entered 1 demo_tracking).
  vm_compute. tauto.
Defined.

(** ** The cleanup pass *)

Section CleanupPass.

Variable X : Collaborators.

(** After the pass nothing is scheduled any more, and every entry left in
    the location table has its geohash in a range left in the registry. *)
Lemma _cleanUpCurrentGeohashesQueried_sweeps s h :
  registry_well_formed s ->
  guard_intact s ->
  wp (_cleanUpCurrentGeohashesQueried X)
     (fun _ s' _ =>
        _geohashCleanupScheduled s' = false /\
        _cleanUpCurrentGeohashesQueriedTimeout s' = None /\
        forall k d, JsObject.get k (_locations s') = Some d ->
          held_by_range X (JsObject.keys (_currentGeohashesQueried s'))
            (Some (geohash d)))
     (fun _ _ => False) s h.
Proof.
  intros Hwf Hguard. unfold _cleanUpCurrentGeohashesQueried.
  apply wp_bind, wp_gets. apply wp_bind. eapply wp_mono.
  - apply (wp_for_each (fun _ s' (_ : list Effect) =>
                          registry_well_formed s' /\ guard_intact s')).
    + intros x l s1 h1 [Hwf1 Hg1]. apply wp_bind, wp_gets.
      destruct (JsObject.get x (_currentGeohashesQueried s1)) as [[|]|] eqn:Hx;
        try (apply wp_ret; split; assumption).
      assert (Hxwf : well_formed_query_string x).
      { unfold registry_well_formed in Hwf1. rewrite Forall_forall in Hwf1.
        apply Hwf1. eapply JsObjectFacts.get_Some_In; eauto. }
      apply wp_bind, wp__stringToQuery; auto. intros query.
      unfold _geoQueryOff. repeat (wp_step; cbv beta).
      split; [|exact Hg1].
      unfold registry_well_formed. state_simpl. now apply Forall_keys_delete.
    + split; assumption.
  - intros a s1 h1 [Hwf1 Hg1]. cbv beta in Hwf1.
    set (R1 := _currentGeohashesQueried s1).
    apply wp_bind, wp_gets. apply wp_bind. eapply wp_mono.
    + apply (wp_for_each
        (fun l s' (_ : list Effect) =>
           _currentGeohashesQueried s' = R1 /\ guard_intact s' /\
           forall k d, JsObject.get k (_locations s') = Some d ->
             In k l \/ held_by_range X (JsObject.keys R1) (Some (geohash d)))).
      * intros x l s2 h2 (HR & Hg2 & Hleft).
        apply wp_with_own_row;
          [intros _ | unfold guard_intact in Hg2; intros Hg'; congruence].
        destruct (JsObject.get x (_locations s2)) as [d|] eqn:Hx.
        -- assert (Hwf2 : registry_well_formed s2)
             by (unfold registry_well_formed; now rewrite HR).
           destruct (_geohashInSomeQuery_exact X (Some (geohash d)) Hwf2)
             as (b & Hb & Hiff).
           apply wp_bind. eapply wp_of_eq; [exact Hb|]. rewrite app_nil_r.
           destruct b.
           ++ apply wp_ret. split; [exact HR|]. split; [exact Hg2|]. intros k d' Hk.
              destruct (Hleft k d' Hk) as [[->|HIn]|Hheld]; auto.
              right. rewrite Hx in Hk. injection Hk as <-.
              rewrite <- HR. now apply Hiff.
           ++ apply wp_modify. state_simpl. split; [exact HR|].
              split; [now apply guard_intact_delete|]. intros k d' Hk.
              destruct (string_dec k x) as [->|Hne].
              ** now rewrite JsObjectFacts.get_delete_same in Hk.
              ** rewrite JsObjectFacts.get_delete_other in Hk by auto.
                 destruct (Hleft k d' Hk) as [[E|HIn]|Hheld]; auto. congruence.
        -- split; [exact HR|]. split; [exact Hg2|]. intros k d' Hk.
           destruct (Hleft k d' Hk) as [[->|HIn]|Hheld]; auto. congruence.
      * split; [reflexivity|]. split; [exact Hg1|]. intros k d Hk. left.
        unfold enumerable_keys. apply in_or_app. left.
        eapply JsObjectFacts.get_Some_In; eauto.
    + intros a2 s2 h2 (HR & Hg2 & Hleft).
      assert (Hheld : forall k d, JsObject.get k (_locations s2) = Some d ->
                held_by_range X (JsObject.keys R1) (Some (geohash d))).
      { intros k d Hk. destruct (Hleft k d Hk) as [[]|]; assumption. }
      apply wp_bind, wp_modify. apply wp_bind, wp_gets.
      state_simpl. destruct (_cleanUpCurrentGeohashesQueriedTimeout s2) eqn:Ht.
      * unfold clearTimeout. apply wp_bind, wp_perform, wp_modify.
        state_simpl. rewrite HR. auto.
      * apply wp_ret. state_simpl. rewrite HR. auto.
    + intros s' h' HE. exact HE.
  - intros s' h' HE. exact HE.
Qed.

End CleanupPass.

(** The cleanup pass on a registry whose keys decode: what it leaves of
    the registry and of the location table. *)
Lemma _cleanUpCurrentGeohashesQueried_spec (X : Collaborators) (s : State) :
  registry_well_formed s ->
  guard_intact s ->
  let r := _cleanUpCurrentGeohashesQueried X s in
  let s' := state_of r in
  completion_of r = Normal tt /\
  (forall q, JsObject.get q (_currentGeohashesQueried s') =
     match JsObject.get q (_currentGeohashesQueried s) with
     | Some true => Some true
     | _ => None
     end) /\
  (forall k d, JsObject.get k (_locations s') = Some d <->
     JsObject.get k (_locations s) = Some d /\
     held_by_range X (JsObject.keys (_currentGeohashesQueried s')) (Some (geohash d))).
Proof.
  intros Hwf Hguard r s'.
  pose proof (@_cleanUpCurrentGeohashesQueried_entries X s [] Hwf Hguard) as Hentries.
  pose proof (@_cleanUpCurrentGeohashesQueried_sweeps X s [] Hwf Hguard) as Hsweeps.
  unfold s', r, wp, state_of, completion_of in *.
  destruct (_cleanUpCurrentGeohashesQueried X s) as [[[[]|e] s1] o];
    cbn [fst snd] in *; [|destruct Hsweeps].
  destruct Hentries as (Hreg & _ & _ & Hsub & Hkeep).
  destruct Hsweeps as (_ & _ & Hheld).
  split; [reflexivity|]. split; [exact Hreg|].
  intros k d. split.
  - intros Hk. split; [now apply Hsub | now apply (Hheld k)].
  - intros [Hk (q & lo & hi & HIn & Hsplit & Hge & Hle)]. apply Hkeep; [exact Hk|].
    exists q, lo, hi. split; [|split; [exact Hsplit | split; assumption]].
    apply JsObjectFacts.In_keys_get in HIn. destruct HIn as [f Hf].
    rewrite Hreg in Hf.
    destruct (JsObject.get q (_currentGeohashesQueried s)) as [[|]|];
      congruence || discriminate.
Qed.

(** X10. On a registry whose keys decode and a location table with no row
    under ["hasOwnProperty"], the cleanup pass returns.  It
    leaves of the registry exactly the ranges flagged [true]; it leaves of
    the location table exactly the entries, unchanged, whose geohash lies
    in one of the ranges left; afterwards no cleanup is scheduled and no
    timeout is pending; and the pass fires no event and invokes no
    callback. *)
Theorem cleanup_pass (X : Collaborators) (s : State) :
  registry_well_formed s ->
  guard_intact s ->
  let r := _cleanUpCurrentGeohashesQueried X s in
  let s' := state_of r in
  completion_of r = Normal tt /\
  (forall q, JsObject.get q (_currentGeohashesQueried s') =
     match JsObject.get q (_currentGeohashesQueried s) with
     | Some true => Some true
     | _ => None
     end) /\
  (forall k d, JsObject.get k (_locations s') = Some d <->
     JsObject.get k (_locations s) = Some d /\
     held_by_range X (JsObject.keys (_currentGeohashesQueried s')) (Some (geohash d))) /\
  _geohashCleanupScheduled s' = false /\
  _cleanUpCurrentGeohashesQueriedTimeout s' = None /\
  Forall (fun e => client_visible e = false) (effects_of r).
Proof.
  intros Hwf Hguard r s'.
  destruct (@_cleanUpCurrentGeohashesQueried_spec X s Hwf Hguard) as (Hret & Hreg & Hloc).
  pose proof (@_cleanUpCurrentGeohashesQueried_sweeps X s [] Hwf Hguard) as Hsweeps.
  pose proof (quiet__cleanUpCurrentGeohashesQueried X s) as Hquiet.
  fold r in Hret, Hreg, Hloc, Hquiet. fold s' in Hreg, Hloc.
  assert (Hflags : _geohashCleanupScheduled s' = false /\
                   _cleanUpCurrentGeohashesQueriedTimeout s' = None).
  { unfold s', r, wp, state_of, completion_of in *.
    destruct (_cleanUpCurrentGeohashesQueried X s) as [[[[]|e] s1] o];
      cbn [fst snd] in *; [tauto | discriminate Hret]. }
  destruct Hflags as [Hflag Htimeout].
  split; [exact Hret|]. split; [exact Hreg|]. split; [exact Hloc|].
  split; [exact Hflag|]. split; [exact Htimeout | exact Hquiet].
Qed.

Lemma cleanup_pass_witness :
  let r := _cleanUpCurrentGeohashesQueried demo demo_moved in
  let s' := state_of r in
  completion_of r = Normal tt /\
  (forall q, JsObject.get q (_currentGeohashesQueried s') =
     match JsObject.get q (_currentGeohashesQueried demo_moved) with
     | Some true => Some true
     | _ => None
     end) /\
  (forall k d, JsObject.get k (_locations s') = Some d <->
     JsObject.get k (_locations demo_moved) = Some d /\
     held_by_range demo (JsObject.keys (_currentGeohashesQueried s'))
       (Some (geohash d))) /\
  _geohashCleanupScheduled s' = false /\
  _cleanUpCurrentGeohashesQueriedTimeout s' = None /\
  Forall (fun e => client_visible e = false) (effects_of r).
Proof.
  apply (@cleanup_pass demo demo_moved); [well_formed_by_evaluation | reflexivity].
Defined.

(** ** Recomputing the coverage *)

Section Recomputation.

Variable X : Collaborators.

Lemma indexOf_Some_In x l i : indexOf x l = Some i -> In x l.
Proof.
  unfold indexOf. revert i. induction l as [|y l IH]; intros i; cbn [index_of];
    [discriminate|].
  destruct (String.eqb_spec y x) as [->|Hne]; [now left|].
  destruct (index_of String.eqb x l) as [j|]; [|discriminate].
  intros _. right. now apply (IH j).
Qed.

(** The recomputation, for a coverage whose bounds hold no colon: the
    flags of the registry afterwards, the ranges newly awaited, and what
    it leaves alone. *)
Lemma _listenForNewGeohashes_flags s h :
  NoDup (JsObject.keys (_currentGeohashesQueried s)) ->
  (forall lo hi,
     In (lo, hi) (geohashQueries X (_center s) (PrimFloat.mul (_radius s) 1000%float)) ->
     no_colon lo = true /\ no_colon hi = true) ->
  let L0 := filter_first_occurrences
              (map _queryToString
                 (geohashQueries X (_center s) (PrimFloat.mul (_radius s) 1000%float))) in
  wp (_listenForNewGeohashes X)
     (fun _ s' _ =>
        (forall q, In q L0 -> JsObject.get q (_currentGeohashesQueried s') = Some true) /\
        (forall q, ~ In q L0 ->
           JsObject.get q (_currentGeohashesQueried s') =
           option_map (fun _ => false) (JsObject.get q (_currentGeohashesQueried s))) /\
        (forall q, In q (_geohashesToQuery s') <->
           In q L0 /\ ~ In q (JsObject.keys (_currentGeohashesQueried s))) /\
        NoDup (_geohashesToQuery s') /\
        _numGeohashesToQueryProcessed s' = 0 /\
        _locations s' = _locations s /\ _callbacks s' = _callbacks s /\
        _valueEventFired s' = _valueEventFired s)
     (fun _ _ => False) s h.
Proof.
  intros HK Hbounds L0. unfold _listenForNewGeohashes.
  apply wp_bind, wp_modify, wp_bind, wp_modify, wp_bind, wp_gets. state_simpl.
  set (K := JsObject.keys (_currentGeohashesQueried s)) in *.
  set (R0 := _currentGeohashesQueried s) in *.
  fold L0.
  assert (HL0 : forall y, In y L0 -> well_formed_query_string y).
  { intros y Hy. apply filter_first_occurrences_In in Hy.
    apply in_map_iff in Hy. destruct Hy as ([lo hi] & <- & Hq).
    destruct (Hbounds _ _ Hq) as [Hlo Hhi].
    exists lo, hi. now apply split__queryToString. }
  apply wp_bind. eapply wp_mono.
  - apply (wp_for_each
      (fun l s' (_ : list Effect) =>
         (_locations s' = _locations s /\ _callbacks s' = _callbacks s /\
          _valueEventFired s' = _valueEventFired s) /\
         NoDup l /\ (forall y, In y l -> In y K) /\
         NoDup (_geohashesToQuery s') /\
         (forall y, In y (_geohashesToQuery s') <-> In y L0 /\ (In y K -> In y l)) /\
         (forall q, In q l -> JsObject.get q (_currentGeohashesQueried s')
                              = JsObject.get q R0) /\
         (forall q, In q K -> ~ In q l ->
            (In q L0 -> JsObject.get q (_currentGeohashesQueried s') = Some true) /\
            (~ In q L0 -> JsObject.get q (_currentGeohashesQueried s') = Some false)) /\
         (forall q, ~ In q K -> JsObject.get q (_currentGeohashesQueried s') = None))).
    + intros x l s1 h1 (Hframe & Hl & HlK & Hnd & HtoQ & Hrest & Hdone & Hout).
      inversion Hl as [|? ? Hxl Hl']; subst.
      assert (HxK : In x K) by (apply HlK; now left).
      apply wp_bind, wp_gets.
      destruct (indexOf x (_geohashesToQuery s1)) as [i|] eqn:Hi.
      * apply wp_bind, wp_modify, wp_modify. state_simpl.
        destruct (@indexOf_Some_splice x (_geohashesToQuery s1) i Hi Hnd) as [Hnd' Hiff].
        assert (HxL0 : In x L0).
        { apply indexOf_Some_In in Hi. now apply HtoQ in Hi. }
        split; [exact Hframe|]. split; [exact Hl'|].
        split; [intros y Hy; apply HlK; now right|]. split; [exact Hnd'|].
        split; [|split; [|split]].
        -- intros y. rewrite Hiff, HtoQ. split.
           ++ intros [[HyL Hyl] Hne]. split; auto. intros HyK.
              destruct (Hyl HyK) as [E|HIn]; [congruence | exact HIn].
           ++ intros [HyL Hyl]. assert (Hne : y <> x).
              { intros ->. auto. }
              repeat split; auto. intros HyK. right. auto.
        -- intros q Hq. rewrite JsObjectFacts.get_set_other.
           ++ apply Hrest. now right.
           ++ intros ->. auto.
        -- intros q HqK Hql. destruct (string_dec q x) as [->|Hne].
           ++ rewrite JsObjectFacts.get_set_same. split; [reflexivity | tauto].
           ++ rewrite JsObjectFacts.get_set_other by auto. apply Hdone; auto.
              intros [E|HIn]; [congruence | auto].
        -- intros q Hq. rewrite JsObjectFacts.get_set_other; [now apply Hout|].
           intros ->. auto.
      * apply wp_modify. state_simpl. apply indexOf_None in Hi.
        assert (HxL0 : ~ In x L0).
        { intros HxL0. apply Hi, HtoQ. split; auto. intros _. now left. }
        split; [exact Hframe|]. split; [exact Hl'|].
        split; [intros y Hy; apply HlK; now right|]. split; [exact Hnd|].
        split; [|split; [|split]].
        -- intros y. rewrite HtoQ. split.
           ++ intros [HyL Hyl]. split; auto. intros HyK.
              destruct (Hyl HyK) as [E|HIn]; [congruence | exact HIn].
           ++ intros [HyL Hyl]. split; auto. intros HyK. right. auto.
        -- intros q Hq. rewrite JsObjectFacts.get_set_other.
           ++ apply Hrest. now right.
           ++ intros ->. auto.
        -- intros q HqK Hql. destruct (string_dec q x) as [->|Hne].
           ++ rewrite JsObjectFacts.get_set_same. split; [tauto | reflexivity].
           ++ rewrite JsObjectFacts.get_set_other by auto. apply Hdone; auto.
              intros [E|HIn]; [congruence | auto].
        -- intros q Hq. rewrite JsObjectFacts.get_set_other; [now apply Hout|].
           intros ->. auto.
    + state_simpl. split; [auto|]. split; [exact HK|]. split; [auto|].
      split; [apply filter_first_occurrences_NoDup|].
      split; [intros y; tauto|]. split; [reflexivity|]. split; [tauto|].
      intros q Hq. change (JsObject.get q R0 = None).
      destruct (JsObject.get q R0) eqn:E; [|reflexivity].
      exfalso. apply Hq. eapply JsObjectFacts.get_Some_In; eauto.
  - intros a s1 h1 (Hframe & _ & _ & Hnd & HtoQ & _ & Hdone & Hout).
    set (R1 := _currentGeohashesQueried s1).
    set (T1 := _geohashesToQuery s1).
    apply wp_bind, wp_gets, wp_bind, wp_gets, wp_bind.
    apply wp_mono with
      (Q := fun _ s' (_ : list Effect) =>
         (_locations s' = _locations s /\ _callbacks s' = _callbacks s /\
          _valueEventFired s' = _valueEventFired s) /\
         _currentGeohashesQueried s' = R1 /\ _geohashesToQuery s' = T1)
      (E := fun _ _ => False).
    + wp_branches.
      * unfold setTimeout. repeat (wp_step; cbv beta). state_simpl. auto.
      * apply wp_ret. auto.
    + intros [] s2 h2 (Hframe2 & HR2 & HT2).
      apply wp_bind, wp_modify, wp_bind, wp_gets. state_simpl. rewrite HT2.
      eapply wp_mono.
      * apply (wp_for_each
          (fun l s' (_ : list Effect) =>
             (_locations s' = _locations s /\ _callbacks s' = _callbacks s /\
              _valueEventFired s' = _valueEventFired s) /\
             _geohashesToQuery s' = T1 /\ _numGeohashesToQueryProcessed s' = 0 /\
             NoDup l /\ (forall y, In y l -> In y T1) /\
             (forall q, In q T1 -> ~ In q l ->
                JsObject.get q (_currentGeohashesQueried s') = Some true) /\
             (forall q, ~ In q T1 \/ In q l ->
                JsObject.get q (_currentGeohashesQueried s') = JsObject.get q R1))).
        -- intros x l s3 h3 (Hframe3 & HT3 & Hnum3 & Hl3 & Hsub3 & Hnew3 & Hold3).
           inversion Hl3 as [|? ? Hxl Hl3']; subst.
           assert (HxT : In x T1) by (apply Hsub3; now left).
           apply wp_bind, wp__stringToQuery.
           { apply HL0. now apply HtoQ in HxT. }
           intros query. repeat (wp_step; cbv beta). state_simpl.
           split; [exact Hframe3|]. split; [exact HT3|]. split; [exact Hnum3|].
           split; [exact Hl3'|]. split; [intros y Hy; apply Hsub3; now right|].
           split.
           ++ intros q HqT Hql. destruct (string_dec q x) as [->|Hne].
              ** apply JsObjectFacts.get_set_same.
              ** rewrite JsObjectFacts.get_set_other by auto. apply Hnew3; auto.
                 intros [E|HIn]; [congruence | auto].
           ++ intros q Hq. rewrite JsObjectFacts.get_set_other.
              ** apply Hold3. destruct Hq; [now left | right; now right].
              ** intros ->. destruct Hq; auto.
        -- state_simpl. split; [exact Hframe2|]. split; [exact HT2|].
           split; [reflexivity|]. split; [exact Hnd|]. split; [auto|].
           split; [tauto|]. intros q _. now rewrite HR2.
      * intros a3 s3 h3 (Hframe3 & HT3 & Hnum3 & _ & _ & Hnew3 & Hold3).
        assert (HT : forall q, In q T1 <-> In q L0 /\ ~ In q K).
        { intros q. unfold T1. rewrite HtoQ. cbn [In]. tauto. }
        split; [|split; [|split; [|split; [|split; [exact Hnum3 | exact Hframe3]]]]].
        -- intros q Hq. destruct (in_dec string_dec q K) as [HqK|HqK].
           ++ rewrite Hold3 by (left; rewrite HT; tauto).
              apply (Hdone q HqK); auto.
           ++ apply Hnew3; [apply HT|]; auto.
        -- intros q Hq. rewrite Hold3 by (left; rewrite HT; tauto).
           destruct (in_dec string_dec q K) as [HqK|HqK].
           ++ destruct (JsObjectFacts.In_keys_get _ _ HqK) as [f Hf].
              fold R0 in Hf. rewrite Hf. cbn [option_map].
              apply (Hdone q HqK); auto.
           ++ unfold R1. rewrite (Hout q HqK).
              destruct (JsObject.get q R0) eqn:E; [|reflexivity].
              exfalso. apply HqK. eapply JsObjectFacts.get_Some_In; eauto.
        -- intros q. rewrite HT3. apply HT.
        -- now rewrite HT3.
      * intros s' h' HE. exact HE.
    + auto.
  - intros s' h' HE. exact HE.
Qed.

End Recomputation.

(** X11. When the bounds of the coverage of the current criteria hold no
    colon, [_listenForNewGeohashes] returns, and afterwards the registry
    holds every range of the coverage flagged [true] and every other range
    it held before flagged [false], and no other range; the ranges awaited
    are the ranges of the coverage that were not registered before, each
    once; the count of values processed is zero; the location table and
    the callbacks are as before; and no event fired. *)
Theorem recomputation_flags (X : Collaborators) (s : State) :
  NoDup (JsObject.keys (_currentGeohashesQueried s)) ->
  (forall lo hi,
     In (lo, hi) (geohashQueries X (_center s) (PrimFloat.mul (_radius s) 1000%float)) ->
     no_colon lo = true /\ no_colon hi = true) ->
  let r := _listenForNewGeohashes X s in
  let s' := state_of r in
  let L := map _queryToString
             (geohashQueries X (_center s) (PrimFloat.mul (_radius s) 1000%float)) in
  completion_of r = Normal tt /\
  (forall q, In q L -> JsObject.get q (_currentGeohashesQueried s') = Some true) /\
  (forall q, ~ In q L ->
     JsObject.get q (_currentGeohashesQueried s') =
     option_map (fun _ => false) (JsObject.get q (_currentGeohashesQueried s))) /\
  (forall q, In q (_geohashesToQuery s') <->
     In q L /\ ~ In q (JsObject.keys (_currentGeohashesQueried s))) /\
  NoDup (_geohashesToQuery s') /\
  _numGeohashesToQueryProcessed s' = 0 /\
  _locations s' = _locations s /\ _callbacks s' = _callbacks s /\
  Forall (fun e => client_visible e = false) (effects_of r).
Proof.
  intros HK Hbounds r s' L.
  pose proof (@_listenForNewGeohashes_flags X s [] HK Hbounds) as Hflags.
  pose proof (quiet__listenForNewGeohashes X s) as Hquiet.
  assert (HL : forall q, In q (filter_first_occurrences L) <-> In q L).
  { intros q. split;
      [apply filter_first_occurrences_In | apply In_filter_first_occurrences]. }
  unfold s', r, wp, state_of, completion_of, effects_of in *. cbv zeta in Hflags.
  fold L in Hflags.
  destruct (_listenForNewGeohashes X s) as [[[[]|e] s1] o];
    cbn [fst snd] in *; [|destruct Hflags].
  destruct Hflags as (Htrue & Hfalse & HtoQ & Hnd & Hnum & Hloc & Hcb & _).
  split; [reflexivity|]. split; [intros q Hq; apply Htrue; now apply HL|].
  split; [intros q Hq; apply Hfalse; now rewrite HL|].
  split; [intros q; rewrite HtoQ, HL; tauto|]. auto.
Qed.

Lemma recomputation_flags_witness :
  let r := _listenForNewGeohashes demo demo_moved in
  let s' := state_of r in
  let L := map _queryToString
             (geohashQueries demo (_center demo_moved)
                (PrimFloat.mul (_radius demo_moved) 1000%float)) in
  completion_of r = Normal tt /\
  (forall q, In q L -> JsObject.get q (_currentGeohashesQueried s') = Some true) /\
  (forall q, ~ In q L ->
     JsObject.get q (_currentGeohashesQueried s') =
     option_map (fun _ => false) (JsObject.get q (_currentGeohashesQueried demo_moved))) /\
  (forall q, In q (_geohashesToQuery s') <->
     In q L /\ ~ In q (JsObject.keys (_currentGeohashesQueried demo_moved))) /\
  NoDup (_geohashesToQuery s') /\
  _numGeohashesToQueryProcessed s' = 0 /\
  _locations s' = _locations demo_moved /\ _callbacks s' = _callbacks demo_moved /\
  Forall (fun e => client_visible e = false) (effects_of r).
Proof.
  apply (@recomputation_flags demo demo_moved).
  - vm_compute.
    repeat (constructor;
            [intros H; repeat (destruct H as [H|H]; [discriminate H|]); exact H|]).
    constructor.
  - vm_compute. intros lo hi [E|[]]. injection E as <- <-. split; reflexivity.
Defined.

(** ** Cancelling the query *)

Section Cancelling.

Lemma cancel_releases s h :
  registry_well_formed s ->
  wp cancel
     (fun _ s' h' =>
        _callbacks s' = no_callbacks /\ _locations s' = JsObject.empty /\
        _currentGeohashesQueried s' = JsObject.empty /\
        (forall q lo hi ev,
           In q (JsObject.keys (_currentGeohashesQueried s)) ->
           split ":" q = [lo; hi] -> In (FirebaseOff lo hi ev) h') /\
        In (ClearInterval (_cleanUpCurrentGeohashesQueriedInterval s)) h')
     (fun _ _ => False) s h.
Proof.
  intros Hwf. unfold cancel.
  apply wp_bind, wp_modify, wp_bind, wp_gets. state_simpl.
  set (K := JsObject.keys (_currentGeohashesQueried s)).
  apply wp_bind. eapply wp_mono.
  - apply (wp_for_each
      (fun l s' h' =>
         (_callbacks s' = no_callbacks /\
          _cleanUpCurrentGeohashesQueriedInterval s'
          = _cleanUpCurrentGeohashesQueriedInterval s) /\
         registry_well_formed s' /\
         (forall q, In q (JsObject.keys (_currentGeohashesQueried s')) -> In q l) /\
         (forall q, In q K ->
            (In q (JsObject.keys (_currentGeohashesQueried s')) /\ In q l) \/
            (forall lo hi ev, split ":" q = [lo; hi] -> In (FirebaseOff lo hi ev) h')))).
    + intros x l s1 h1 (Hframe & Hwf1 & Hsub & Hoff). apply wp_bind, wp_gets.
      destruct (JsObject.hasOwnProperty x (_currentGeohashesQueried s1)) eqn:Hx.
      * apply JsObjectFacts.hasOwnProperty_In in Hx.
        assert (Hxwf : well_formed_query_string x).
        { unfold registry_well_formed in Hwf1. rewrite Forall_forall in Hwf1. auto. }
        destruct Hxwf as (a & b & Hsplit).
        apply wp_bind. eapply wp_of_eq; [apply _stringToQuery_well_formed; exact Hsplit|].
        rewrite app_nil_r. unfold _geoQueryOff. repeat (wp_step; cbv beta).
        state_simpl. cbn [fst snd]. split; [exact Hframe|]. split; [|split].
        -- unfold registry_well_formed. state_simpl. now apply Forall_keys_delete.
        -- intros q Hq. apply JsObjectFacts.keys_delete_In in Hq.
           destruct Hq as [Hne Hq]. destruct (Hsub q Hq) as [E|HIn]; [congruence | exact HIn].
        -- intros q Hq. destruct (string_dec q x) as [->|Hne].
           ++ right. intros lo hi ev Hq'. rewrite Hsplit in Hq'. injection Hq' as <- <-.
              rewrite <- !app_assoc. apply in_or_app. right.
              destruct ev; cbn [app In]; auto.
           ++ destruct (Hoff q Hq) as [[Hkeys [E|HIn]]|Hdone]; [congruence | |].
              ** left. split; [|exact HIn]. apply JsObjectFacts.keys_delete_In. auto.
              ** right. intros lo hi ev Hq'. rewrite <- !app_assoc.
                 apply in_or_app. left. now apply Hdone.
      * apply wp_ret. split; [exact Hframe|]. split; [exact Hwf1|].
        assert (Hnot : ~ In x (JsObject.keys (_currentGeohashesQueried s1))).
        { intros HIn. apply JsObjectFacts.hasOwnProperty_In in HIn. congruence. }
        split.
        -- intros q Hq. destruct (Hsub q Hq) as [E|HIn]; [congruence | exact HIn].
        -- intros q Hq. destruct (Hoff q Hq) as [[Hkeys [E|HIn]]|Hdone]; auto.
           congruence.
    + split; [auto|]. split; [exact Hwf|]. split; [auto|]. intros q Hq. left. auto.
  - intros a s1 h1 ((Hcb & Hint) & _ & Hsub & Hoff).
    repeat (wp_step; cbv beta). state_simpl.
    split; [exact Hcb|]. split; [reflexivity|]. split; [|split].
    + apply JsObjectFacts.keys_nil.
      destruct (JsObject.keys (_currentGeohashesQueried s1)) as [|q l] eqn:E;
        [reflexivity|]. destruct (Hsub q). now left.
    + intros q lo hi ev Hq Hsplit. apply in_or_app. left.
      destruct (Hoff q Hq) as [[_ []]|Hdone]. now apply Hdone.
    + apply in_or_app. right. rewrite Hint. now left.
  - intros s' h' HE. exact HE.
Qed.

End Cancelling.

(** X12. On a registry whose keys decode, [cancel] returns; it leaves no
    callback registered, an empty location table and an empty registry; it
    has detached the three child listeners of every range that was
    registered, and cleared the cleanup interval. *)
Theorem cancel_releases_everything (s : State) :
  registry_well_formed s ->
  let r := cancel s in
  let s' := state_of r in
  completion_of r = Normal tt /\
  _callbacks s' = no_callbacks /\ _locations s' = JsObject.empty /\
  _currentGeohashesQueried s' = JsObject.empty /\
  (forall q lo hi ev,
     In q (JsObject.keys (_currentGeohashesQueried s)) ->
     split ":" q = [lo; hi] -> In (FirebaseOff lo hi ev) (effects_of r)) /\
  In (ClearInterval (_cleanUpCurrentGeohashesQueriedInterval s)) (effects_of r).
Proof.
  intros Hwf r s'. pose proof (@cancel_releases s [] Hwf) as Hwp.
  unfold s', r, wp, state_of, completion_of, effects_of in *.
  destruct (cancel s) as [[[[]|e] s1] o]; cbn [fst snd app] in *; [|destruct Hwp].
  split; [reflexivity | exact Hwp].
Qed.

Lemma cancel_releases_everything_witness :
  let r := cancel demo_moved in
  let s' := state_of r in
  completion_of r = Normal tt /\
  _callbacks s' = no_callbacks /\ _locations s' = JsObject.empty /\
  _currentGeohashesQueried s' = JsObject.empty /\
  (forall q lo hi ev,
     In q (JsObject.keys (_currentGeohashesQueried demo_moved)) ->
     split ":" q = [lo; hi] -> In (FirebaseOff lo hi ev) (effects_of r)) /\
  In (ClearInterval (_cleanUpCurrentGeohashesQueriedInterval demo_moved)) (effects_of r).
Proof.
  apply (@cancel_releases_everything demo_moved). well_formed_by_evaluation.
Defined.

(** ** The listeners attached to the ranges *)

Section RangeKeys.

Lemma colons_one lo hi :
  colons (_queryToString (lo, hi)) = 1 -> no_colon lo = true /\ no_colon hi = true.
Proof.
  unfold _queryToString. cbn [fst snd]. rewrite colons_append.
  change (colons (":" ++ hi)) with (1 + colons hi).
  intros H. rewrite !no_colon_colons. lia.
Qed.

(** A key that decodes is the encoding of the bounds it decodes to, and of
    no other bounds. *)
Lemma _queryToString_decoded lo hi a b :
  split ":" (_queryToString (lo, hi)) = [a; b] -> lo = a /\ hi = b.
Proof.
  intros Hsplit.
  assert (Hone : colons (_queryToString (lo, hi)) = 1).
  { pose proof (split_length (_queryToString (lo, hi))) as Hlen.
    rewrite Hsplit in Hlen. cbn [List.length] in Hlen. lia. }
  destruct (colons_one lo hi Hone) as [Hlo Hhi].
  rewrite (split__queryToString lo hi Hlo Hhi) in Hsplit.
  now injection Hsplit.
Qed.

Lemma split_one s b : split ":" s = [b] -> s = b.
Proof.
  revert b. induction s as [|c s IH]; intros b; cbn [split].
  - now intros [= <-].
  - pose proof (split_length s) as Hlen.
    destruct (Ascii.eqb c ":").
    + intros [= <- Hs]. rewrite Hs in Hlen. discriminate Hlen.
    + destruct (split ":" s) as [|p ps]; [discriminate Hlen|].
      intros [= <- ->]. now rewrite (IH p eq_refl).
Qed.

Lemma split_two s a b : split ":" s = [a; b] -> s = _queryToString (a, b).
Proof.
  unfold _queryToString. cbn [fst snd].
  revert a b. induction s as [|c s IH]; intros a b; cbn [split]; [discriminate|].
  destruct (Ascii.eqb_spec c ":") as [->|Hc].
  - intros [= <- Hs]. apply split_one in Hs. now subst.
  - destruct (split ":" s) as [|p ps]; [discriminate|].
    intros [= <- ->]. now rewrite (IH p b eq_refl).
Qed.

(** The key of a range is [x] exactly when the range is the one [x]
    decodes to. *)
Lemma _queryToString_eqb x a b lo hi :
  split ":" x = [a; b] ->
  String.eqb (_queryToString (lo, hi)) x = String.eqb lo a && String.eqb hi b.
Proof.
  intros Hsplit.
  destruct (String.eqb_spec (_queryToString (lo, hi)) x) as [E|E].
  - subst x. apply _queryToString_decoded in Hsplit. destruct Hsplit as [-> ->].
    now rewrite !String.eqb_refl.
  - destruct (String.eqb_spec lo a) as [->|]; [|reflexivity].
    destruct (String.eqb_spec hi b) as [->|]; [|reflexivity].
    exfalso. apply E. symmetry. now apply split_two.
Qed.

End RangeKeys.

Section ListenerBalance.

Lemma balanced_quiet s h e :
  (forall lo hi ev, is_on lo hi ev e = false) ->
  (forall lo hi ev, is_off lo hi ev e = false) ->
  listeners_balanced s h -> listeners_balanced s (h ++ [e]).
Proof.
  intros Hon Hoff Hb lo hi ev. rewrite !count_app. cbn [filter].
  rewrite Hon, Hoff. cbn [List.length]. rewrite (Hb lo hi ev). lia.
Qed.

Lemma balanced_same_keys s s' h :
  JsObject.keys (_currentGeohashesQueried s') = JsObject.keys (_currentGeohashesQueried s) ->
  listeners_balanced s h -> listeners_balanced s' h.
Proof.
  intros Hkeys Hb lo hi ev.
  rewrite (JsObjectFacts.hasOwnProperty_keys _ _ _ Hkeys). apply Hb.
Qed.

(** Registering a range that was not registered and attaching its three
    listeners. *)
Lemma balanced_attach s h x a b :
  split ":" x = [a; b] ->
  JsObject.hasOwnProperty x (_currentGeohashesQueried s) = false ->
  listeners_balanced s h ->
  listeners_balanced
    (set_currentGeohashesQueried (JsObject.set x true (_currentGeohashesQueried s)) s)
    (((h ++ [FirebaseOn a b child_added]) ++ [FirebaseOn a b child_removed])
     ++ [FirebaseOn a b child_changed]).
Proof.
  intros Hsplit Hnew Hb lo hi ev. state_simpl.
  rewrite JsObjectFacts.hasOwnProperty_set, (@_queryToString_eqb x a b lo hi Hsplit).
  rewrite !count_app. cbn [filter is_on is_off List.length].
  specialize (Hb lo hi ev). rewrite (String.eqb_sym lo a), (String.eqb_sym hi b).
  destruct (String.eqb_spec a lo) as [<-|]; [destruct (String.eqb_spec b hi) as [<-|]|];
    cbn [andb orb List.length]; try lia.
  rewrite <- (@split_two x a b Hsplit), Hnew in Hb.
  destruct ev; cbn [ChildEvent_eqb List.length]; lia.
Qed.

(** Detaching the three listeners of a registered range and deleting it
    from the registry. *)
Lemma balanced_detach s h x a b :
  split ":" x = [a; b] ->
  JsObject.hasOwnProperty x (_currentGeohashesQueried s) = true ->
  listeners_balanced s h ->
  listeners_balanced
    (set_currentGeohashesQueried (JsObject.delete x (_currentGeohashesQueried s)) s)
    (((h ++ [FirebaseOff a b child_added]) ++ [FirebaseOff a b child_removed])
     ++ [FirebaseOff a b child_changed]).
Proof.
  intros Hsplit Hold Hb lo hi ev. state_simpl.
  rewrite JsObjectFacts.hasOwnProperty_delete, (@_queryToString_eqb x a b lo hi Hsplit).
  rewrite !count_app. cbn [filter is_on is_off List.length].
  specialize (Hb lo hi ev). rewrite (String.eqb_sym lo a), (String.eqb_sym hi b).
  destruct (String.eqb_spec a lo) as [<-|]; [destruct (String.eqb_spec b hi) as [<-|]|];
    cbn [andb negb List.length]; try lia.
  rewrite <- (@split_two x a b Hsplit), Hold in Hb.
  destruct ev; cbn [ChildEvent_eqb List.length]; lia.
Qed.

End ListenerBalance.

(** Statements that leave the registry alone and attach or detach no
    listener. *)
Ltac listeners_leaf :=
  first
    [ apply keeps_modify; intros ? ? ?; assumption
    | apply keeps_perform;
      let Hwf := fresh "Hwf" in
      let Hb := fresh "Hb" in
      intros ? ? [Hwf Hb]; split;
      [ exact Hwf
      | apply balanced_quiet; [intros; reflexivity | intros; reflexivity | exact Hb] ] ].

Section ListenersKept.

Variable X : Collaborators.

Lemma listeners__listenForNewGeohashes :
  keeps listeners_registered (_listenForNewGeohashes X).
Proof.
  apply wp_keeps. intros s h [Hwf Hb]. unfold _listenForNewGeohashes.
  apply wp_bind, wp_modify, wp_bind, wp_modify, wp_bind, wp_gets. state_simpl.
  set (K := JsObject.keys (_currentGeohashesQueried s)).
  apply wp_bind. eapply wp_mono.
  - apply (wp_for_each
      (fun l s' h' =>
         h' = h /\ JsObject.keys (_currentGeohashesQueried s') = K /\ incl l K /\
         NoDup (_geohashesToQuery s') /\
         (forall y, In y (_geohashesToQuery s') -> In y K -> In y l))).
    + intros x l s1 h1 (-> & HK1 & Hincl & Hnd & HtoQ).
      assert (HxK : In x (JsObject.keys (_currentGeohashesQueried s1)))
        by (rewrite HK1; apply Hincl; now left).
      apply wp_bind, wp_gets.
      destruct (indexOf x (_geohashesToQuery s1)) as [i|] eqn:Hi.
      * apply wp_bind, wp_modify, wp_modify. state_simpl.
        destruct (@indexOf_Some_splice x (_geohashesToQuery s1) i Hi Hnd) as [Hnd' Hiff].
        split; [reflexivity|]. split; [now rewrite keys_set_existing|].
        split; [intros y Hy; apply Hincl; now right|]. split; [exact Hnd'|].
        intros y Hy HyK. apply Hiff in Hy. destruct Hy as [Hy Hne].
        destruct (HtoQ y Hy HyK) as [E|HIn]; [congruence | exact HIn].
      * apply wp_modify. state_simpl. apply indexOf_None in Hi.
        split; [reflexivity|]. split; [now rewrite keys_set_existing|].
        split; [intros y Hy; apply Hincl; now right|]. split; [exact Hnd|].
        intros y Hy HyK. destruct (HtoQ y Hy HyK) as [E|HIn]; [congruence | exact HIn].
    + state_simpl. split; [reflexivity|]. split; [reflexivity|].
      split; [apply incl_refl|]. split; [apply filter_first_occurrences_NoDup | auto].
  - intros a s1 h1 (-> & HK1 & _ & Hnd & HtoQ).
    assert (HJ1 : listeners_registered s1 h).
    { split.
      - unfold registry_well_formed. rewrite HK1. exact Hwf.
      - eapply balanced_same_keys; [exact HK1 | exact Hb]. }
    apply wp_bind, wp_gets, wp_bind, wp_gets, wp_bind.
    apply wp_mono with
      (Q := fun _ s' h' =>
         listeners_registered s' h' /\
         _currentGeohashesQueried s' = _currentGeohashesQueried s1 /\
         _geohashesToQuery s' = _geohashesToQuery s1)
      (E := listeners_registered).
    + wp_branches.
      * unfold setTimeout. repeat (wp_step; cbv beta). state_simpl.
        split; [|auto]. destruct HJ1 as [Hwf1 Hb1]. split; [exact Hwf1|].
        apply balanced_quiet; [intros; reflexivity | intros; reflexivity | exact Hb1].
      * apply wp_ret. auto.
    + intros [] s2 h2 (HJ2 & HR2 & HT2).
      apply wp_bind, wp_modify, wp_bind, wp_gets. state_simpl. rewrite HT2.
      eapply wp_mono.
      * apply (wp_for_each
          (fun l s' h' =>
             listeners_registered s' h' /\ NoDup l /\
             forall y, In y l -> ~ In y (JsObject.keys (_currentGeohashesQueried s')))).
        -- intros x l s3 h3 (HJ3 & Hl3 & Hnew3).
           inversion Hl3 as [|? ? Hxl Hl3']; subst.
           apply wp_bind, wp__stringToQuery_cases; [|exact HJ3].
           intros lo0 hi0 Hsplit. repeat (wp_step; cbv beta). state_simpl. cbn [fst snd].
           destruct HJ3 as [Hwf3 Hb3]. split; [split|split].
           ++ unfold registry_well_formed. state_simpl.
              apply Forall_keys_set; [exists lo0, hi0; exact Hsplit | exact Hwf3].
           ++ apply balanced_quiet; [intros; reflexivity | intros; reflexivity |].
              apply balanced_attach; auto.
              destruct (JsObject.hasOwnProperty x (_currentGeohashesQueried s3)) eqn:E;
                [|reflexivity].
              apply JsObjectFacts.hasOwnProperty_In in E.
              exfalso. apply (Hnew3 x); [now left | exact E].
           ++ exact Hl3'.
           ++ intros y Hy HIn. apply JsObjectFacts.keys_set_In in HIn.
              destruct HIn as [->|HIn]; [auto|]. apply (Hnew3 y); [now right | exact HIn].
        -- state_simpl. split; [exact HJ2|]. split; [exact Hnd|].
           intros y Hy HIn. rewrite HR2, HK1 in HIn. destruct (HtoQ y Hy HIn).
      * intros a3 s3 h3 (HJ3 & _). exact HJ3.
      * intros s' h' HE. exact HE.
    + intros s' h' HE. exact HE.
  - intros s' h' HE. exact HE.
Qed.

(** The body the cleanup pass and [cancel] run for a range they drop. *)
Lemma listeners_drop x s h :
  listeners_registered s h ->
  JsObject.hasOwnProperty x (_currentGeohashesQueried s) = true ->
  wp (query <- _stringToQuery x ;;
      _geoQueryOff query ;;
      modify (fun s => set_currentGeohashesQueried
                         (JsObject.delete x (_currentGeohashesQueried s)) s))
     (fun _ => listeners_registered) listeners_registered s h.
Proof.
  intros [Hwf Hb] Hx.
  assert (Hxwf : well_formed_query_string x).
  { unfold registry_well_formed in Hwf. rewrite Forall_forall in Hwf.
    apply Hwf. now apply JsObjectFacts.hasOwnProperty_In. }
  destruct Hxwf as (a & b & Hsplit).
  apply wp_bind. eapply wp_of_eq; [apply _stringToQuery_well_formed; exact Hsplit|].
  rewrite app_nil_r. unfold _geoQueryOff. repeat (wp_step; cbv beta).
  cbn [fst snd]. split.
  - unfold registry_well_formed. state_simpl. now apply Forall_keys_delete.
  - now apply balanced_detach.
Qed.

Ltac listeners_statements :=
  repeat first
    [ progress cbv zeta
    | apply listeners__listenForNewGeohashes
    | progress unfold _childAddedCallback, _childChangedCallback, _childRemovedCallback,
        _childRemovedCallback_value, _checkIfShouldFireReadyEvent, interval_callback,
        _updateLocation, updateCriteria, registration_cancel, constructor,
        _fireCallbacksForKey, _fireReadyEventCallbacks, setTimeout, clearTimeout,
        with_own_row, _locations_hasOwnProperty, _locations_assign
    | apply keeps__stringToQuery
    | apply keeps_pure; intros ?; apply _geohashInSomeQuery_pure
    | listeners_leaf
    | keeps_step ].

Lemma listeners__cleanUpCurrentGeohashesQueried :
  keeps listeners_registered (_cleanUpCurrentGeohashesQueried X).
Proof.
  unfold _cleanUpCurrentGeohashesQueried.
  apply keeps_bind; [apply keeps_gets | intros queryStrs].
  apply keeps_bind; [| intros _; listeners_statements].
  apply keeps_for_each. intros x _. apply wp_keeps. intros s h HJ.
  apply wp_bind, wp_gets.
  destruct (JsObject.get x (_currentGeohashesQueried s)) as [[|]|] eqn:Hx;
    try (apply wp_ret; exact HJ).
  apply listeners_drop; [exact HJ|]. unfold JsObject.hasOwnProperty. now rewrite Hx.
Qed.

Lemma listeners_cancel : keeps listeners_registered cancel.
Proof.
  unfold cancel.
  apply keeps_bind; [listeners_leaf | intros _].
  apply keeps_bind; [apply keeps_gets | intros queryStrs].
  apply keeps_bind; [| intros _; listeners_statements].
  apply keeps_for_each. intros x _. apply wp_keeps. intros s h HJ.
  apply wp_bind, wp_gets.
  destruct (JsObject.hasOwnProperty x (_currentGeohashesQueried s)) eqn:Hx;
    [| apply wp_ret; exact HJ].
  now apply listeners_drop.
Qed.

Lemma listeners_handle (i : Input X) : keeps listeners_registered (handle i).
Proof.
  destruct i; cbn [handle];
    try apply listeners__cleanUpCurrentGeohashesQueried;
    try apply listeners_cancel;
    try (listeners_statements; fail).
  - unfold interval_callback. apply keeps_bind; [apply keeps_gets | intros scheduled].
    destruct scheduled; [apply keeps_ret | apply listeners__cleanUpCurrentGeohashesQueried].
  - unfold on. destruct (EventType_of_string eventType) as [t|]; [|apply keeps_throw].
    apply keeps_bind; [listeners_leaf | intros _].
    apply keeps_bind; [|intros _]; destruct t; listeners_statements.
Qed.

Lemma listeners_constructor (c : Criteria) : keeps listeners_registered (constructor X c).
Proof.
  unfold constructor. listeners_statements;
    destruct (center c); listeners_statements;
    destruct (radius c); listeners_statements.
Qed.

(** The invariant of the listeners holds at every moment of the life of
    an instance. *)
Lemma listeners_registered_reachable (c : Criteria) s0 o0 (inputs : list (Input X)) :
  GeoQuery X c = Some (s0, o0) ->
  listeners_registered (fst (run inputs s0)) (o0 ++ snd (run inputs s0)).
Proof.
  intros Hnew.
  assert (H0 : listeners_registered s0 o0).
  { pose proof (listeners_constructor c) as Hk. unfold keeps in Hk.
    specialize (Hk declared []).
    unfold GeoQuery in Hnew. unfold state_of, effects_of in Hk.
    destruct (constructor X c declared) as [[[a|e] s1] o1]; [|discriminate].
    injection Hnew as <- <-. apply Hk. split; [constructor|].
    intros lo hi ev. reflexivity. }
  exact (@keeps_run X listeners_registered listeners_handle inputs s0 o0 H0).
Qed.

End ListenersKept.

(** X13. At every moment of the life of an instance, for every range and
    each of the three child events: the listener has been attached to the
    range exactly once more than it has been detached from it when the
    range is in the registry, and exactly as often when it is not.  So a
    registered range has one listener per child event, never two, and
    what the cleanup pass and [cancel] drop from the registry is
    detached. *)
Theorem listeners_match_registry (X : Collaborators) (c : Criteria) (s0 : State)
    (o0 : list Effect) (inputs : list (Input X)) :
  GeoQuery X c = Some (s0, o0) ->
  listeners_balanced (fst (run inputs s0)) (o0 ++ snd (run inputs s0)).
Proof.
  intros Hnew. exact (proj2 (@listeners_registered_reachable X c s0 o0 inputs Hnew)).
Qed.

Lemma listeners_match_registry_witness :
  listeners_balanced
    (fst (run [firebase_child_added (demo_snapshot "a" (Some origin));
               call_updateCriteria (mkCriteria (Some ((-1)%float, (-1)%float)) None);
               timeout_elapsed;
               call_updateCriteria (mkCriteria (Some origin) None);
               call_cancel]
              demo_query))
    (effects_of (constructor demo (mkCriteria (Some origin) (Some 1%float)) declared)
     ++ snd (run [firebase_child_added (demo_snapshot "a" (Some origin));
                  call_updateCriteria (mkCriteria (Some ((-1)%float, (-1)%float)) None);
                  timeout_elapsed;
                  call_updateCriteria (mkCriteria (Some origin) None);
                  call_cancel]
                 demo_query)).
Proof.
  apply (@listeners_match_registry demo (mkCriteria (Some origin) (Some 1%float))).
  vm_compute. reflexivity.
Defined.

(** ** Changing the criteria *)

Section CriteriaEvents.

Variable X : Collaborators.

(** The recomputation touches neither the location table, nor the
    criteria, nor the callbacks, nor the ready state, also when it
    throws. *)
Lemma _listenForNewGeohashes_frame (s : State) :
  let s' := state_of (_listenForNewGeohashes X s) in
  _locations s' = _locations s /\ _center s' = _center s /\ _radius s' = _radius s /\
  _callbacks s' = _callbacks s /\ _valueEventFired s' = _valueEventFired s.
Proof.
  assert (Hk : keeps (fun s' (_ : list Effect) =>
                        _locations s' = _locations s /\ _center s' = _center s /\
                        _radius s' = _radius s /\ _callbacks s' = _callbacks s /\
                        _valueEventFired s' = _valueEventFired s)
                     (_listenForNewGeohashes X)).
  { keeps_statements ltac:(first
      [ apply keeps_modify; intros ? ? ?; assumption
      | apply keeps_perform; intros ? ? ?; assumption ]). }
  apply (Hk s []). repeat split.
Qed.

Lemma reassessment_effects_fired callbacks c r key d :
  reassessment_effects X callbacks c r (key, d) =
  let dist := distance X (location d) c in
  let now := PrimFloat.leb dist r in
  if isInQuery d && negb now then fired key_exited key (location d) dist callbacks
  else if negb (isInQuery d) && now then fired key_entered key (location d) dist callbacks
  else [].
Proof. reflexivity. Qed.

Lemma is_Fire_visible t key e : is_Fire t key e = true -> client_visible e = true.
Proof. now destruct e. Qed.

Lemma is_Fire_about t key e : is_Fire t key e = true -> about key e = true.
Proof.
  destruct e; try discriminate. cbn [is_Fire about]. intros H.
  apply andb_prop in H. tauto.
Qed.

Lemma about_visible key e : about key e = true -> client_visible e = true.
Proof. now destruct e. Qed.

Lemma Forall_flat_map (A B : Type) (P : B -> Prop) (f : A -> list B) (l : list A) :
  (forall x, In x l -> Forall P (f x)) -> Forall P (flat_map f l).
Proof.
  induction l as [|x l IH]; intros H; cbn [flat_map]; [constructor|].
  apply Forall_app. split; [apply H; now left | apply IH; intros y Hy; apply H; now right].
Qed.

End CriteriaEvents.

(** X14. [updateCriteria] with criteria that validate, on a table without
    duplicate keys and with no row under ["hasOwnProperty"]: [center()] and [radius()] afterwards return the new
    center and the new non-zero radius where given, the old ones where
    not; every entry is stored again with its distance to the center now
    in force and with [isInQuery] saying whether that is within the radius
    now in force; for an entry, [key_entered] fires once when it was
    outside and is inside now, [key_exited] once when it was inside and is
    outside now, otherwise neither, and [key_moved] never; nothing fires
    for a key that is not in the table. *)
Theorem updateCriteria_events (X : Collaborators) (newQueryCriteria : Criteria)
    (s : State) (key : string) :
  validateCriteria X newQueryCriteria false = true ->
  NoDup (JsObject.keys (_locations s)) ->
  guard_intact s ->
  let r := updateCriteria X newQueryCriteria s in
  let s' := state_of r in
  (forall c, center newQueryCriteria = Some c -> completion_of (this_center s') = Normal c) /\
  (center newQueryCriteria = None -> completion_of (this_center s') = Normal (_center s)) /\
  (forall x, radius newQueryCriteria = Some x -> js_truthy x = true ->
     completion_of (this_radius s') = Normal x) /\
  (radius newQueryCriteria = None -> completion_of (this_radius s') = Normal (_radius s)) /\
  match JsObject.get key (_locations s) with
  | Some d =>
      let dist := distance X (location d) (_center s') in
      let now := PrimFloat.leb dist (_radius s') in
      JsObject.get key (_locations s') =
        Some (mkLocationDict (location d) dist now (geohash d)) /\
      count_fired key_entered key (effects_of r)
        = (if negb (isInQuery d) && now then 1 else 0) /\
      count_fired key_exited key (effects_of r)
        = (if isInQuery d && negb now then 1 else 0) /\
      count_fired key_moved key (effects_of r) = 0
  | None =>
      JsObject.get key (_locations s') = None /\
      Forall (fun e => about key e = false) (effects_of r)
  end.
Proof.
  intros Hvalid Hnd Hg r s'. unfold s', r.
  rewrite (@updateCriteria_eq X newQueryCriteria s Hvalid Hnd Hg).
  cbn [state_of completion_of effects_of fst snd].
  set (c' := match center newQueryCriteria with Some c => c | None => _center s end).
  set (r' := match radius newQueryCriteria with
             | Some x => if js_truthy x then x else _radius s
             | None => _radius s
             end).
  set (s1 := set_valueEventFired false _).
  destruct (_listenForNewGeohashes_frame X s1) as (Hloc & Hc & Hr & _).
  cbv zeta in Hloc, Hc, Hr.
  pose proof (quiet__listenForNewGeohashes X s1) as Hquiet.
  unfold this_center, this_radius, gets, completion_of. cbn [fst snd].
  rewrite Hloc, Hc, Hr. unfold s1. state_simpl.
  split; [intros c Hcenter; unfold c'; now rewrite Hcenter|].
  split; [intros Hcenter; unfold c'; now rewrite Hcenter|].
  split; [intros x Hradius Hx; unfold r'; now rewrite Hradius, Hx|].
  split; [intros Hradius; unfold r'; now rewrite Hradius|].
  rewrite JsObjectFacts.get_map_values.
  assert (Hcount : forall t,
            count_fired t key
              (flat_map (reassessment_effects X (_callbacks s) c' r') (_locations s)
               ++ effects_of (_listenForNewGeohashes X s1)) =
            match JsObject.get key (_locations s) with
            | Some d => count_fired t key
                          (reassessment_effects X (_callbacks s) c' r' (key, d))
            | None => 0
            end).
  { intros t. unfold count_fired. rewrite count_app.
    rewrite (@count_reassessment X (is_Fire t key) key) by (apply is_Fire_about || exact Hnd).
    rewrite (count_none (is_Fire t key) client_visible) by (apply is_Fire_visible || exact Hquiet).
    apply Nat.add_0_r. }
  destruct (JsObject.get key (_locations s)) as [d|] eqn:Hget; cbn [option_map].
  - split; [reflexivity|]. rewrite !Hcount, reassessment_effects_fired. cbv zeta.
    destruct (isInQuery d), (PrimFloat.leb (distance X (location d) c') r');
      cbn [andb negb]; rewrite ?count_fired_of_fired; repeat split; reflexivity.
  - split; [reflexivity|]. apply Forall_app. split.
    + apply Forall_flat_map. intros [k d] HIn.
      apply reassessment_effects_about. cbn [fst]. intros <-.
      apply (JsObjectFacts.get_In_NoDup _ _ _ Hnd) in HIn. congruence.
    + apply Forall_forall. intros e He. rewrite Forall_forall in Hquiet.
      specialize (Hquiet e He). destruct (about key e) eqn:E; [|reflexivity].
      apply about_visible in E. congruence.
Qed.

Lemma updateCriteria_events_witness :
  let r := updateCriteria demo (mkCriteria None (Some 500%float)) demo_tracking in
  let s' := state_of r in
  (forall c, center (mkCriteria None (Some 500%float)) = Some c ->
     completion_of (this_center s') = Normal c) /\
  (center (mkCriteria None (Some 500%float)) = None ->
     completion_of (this_center s') = Normal (_center demo_tracking)) /\
  (forall x, radius (mkCriteria None (Some 500%float)) = Some x -> js_truthy x = true ->
     completion_of (this_radius s') = Normal x) /\
  (radius (mkCriteria None (Some 500%float)) = None ->
     completion_of (this_radius s') = Normal (_radius demo_tracking)) /\
  match JsObject.get "b" (_locations demo_tracking) with
  | Some d =>
      let dist := distance demo (location d) (_center s') in
      let now := PrimFloat.leb dist (_radius s') in
      JsObject.get "b" (_locations s') =
        Some (mkLocationDict (location d) dist now (geohash d)) /\
      count_fired key_entered "b" (effects_of r)
        = (if negb (isInQuery d) && now then 1 else 0) /\
      count_fired key_exited "b" (effects_of r)
        = (if isInQuery d && negb now then 1 else 0) /\
      count_fired key_moved "b" (effects_of r) = 0
  | None =>
      JsObject.get "b" (_locations s') = None /\
      Forall (fun e => about "b" e = false) (effects_of r)
  end.
Proof.
  apply (@updateCriteria_events demo (mkCriteria None (Some 500%float)) demo_tracking "b").
  - reflexivity.
  - vm_compute.
    repeat (constructor;
            [intros H; repeat (destruct H as [H|H]; [discriminate H|]); exact H|]).
    constructor.
  - reflexivity.
Defined.

(** ** What an instance never runs into *)

Section NoInternalError.

Variable X : Collaborators.

Lemma normal_of_wp (m : M unit) (Q : unit -> State -> list Effect -> Prop) s h :
  wp m Q (fun _ _ => False) s h -> completion_of (m s) = Normal tt.
Proof.
  unfold wp, completion_of. destruct (m s) as [[[[]|e] s'] o]; [reflexivity | tauto].
Qed.

Lemma handle_returns (i : Input X) s :
  registry_well_formed s -> guard_intact s -> checks_argument i = false ->
  wp (handle i) (fun _ _ _ => True) (fun _ _ => False) s [].
Proof.
  intros Hwf Hg Hi. destruct i; try discriminate Hi; cbn [handle].
  - unfold _childRemovedCallback. cbv zeta.
    apply wp_bind, wp__locations_hasOwnProperty;
      [intros _ | unfold guard_intact in Hg; congruence].
    destruct (JsObject.hasOwnProperty _ _); [now apply wp_perform | now apply wp_ret].
  - unfold _childRemovedCallback_value. cbv zeta.
    apply wp_bind, wp__geohashInSomeQuery; [exact Hwf|].
    intros [|]; [now apply wp_ret|].
    apply wp_bind, wp_gets, wp_bind, wp_modify.
    destruct (_locations_get key s) as [d|]; [|now apply wp_ret].
    destruct (isInQuery d); [|now apply wp_ret].
    apply wp_bind, wp_gets. now apply wp__fireCallbacksForKey.
  - eapply wp_of_eq; [apply _checkIfShouldFireReadyEvent_eq | exact I].
  - eapply wp_mono;
      [apply _cleanUpCurrentGeohashesQueried_sweeps; assumption | auto | auto].
  - unfold interval_callback. apply wp_bind, wp_gets.
    destruct (_geohashCleanupScheduled s); [now apply wp_ret|].
    eapply wp_mono;
      [apply _cleanUpCurrentGeohashesQueried_sweeps; assumption | auto | auto].
  - unfold registration_cancel. now apply wp_modify.
  - eapply wp_mono; [apply cancel_releases; exact Hwf | auto | auto].
Qed.

End NoInternalError.

(** X15. In no state an instance goes through, the location table having
    no row under ["hasOwnProperty"], does the arrival of a removal, of the
    value read for a removed key, or of the value of a range, the elapsing
    of the cleanup timeout or interval, the cancellation of a
    registration, or [cancel], end in an exception: the "invalid internal
    state" error of [_stringToQuery] is out of reach of these, since every
    key of the registry decodes. *)
Theorem internal_state_error_unreachable (X : Collaborators) (c : Criteria) (s0 : State)
    (o0 : list Effect) (inputs : list (Input X)) (i : Input X) :
  GeoQuery X c = Some (s0, o0) ->
  checks_argument i = false ->
  guard_intact (fst (run inputs s0)) ->
  completion_of (handle i (fst (run inputs s0))) = Normal tt.
Proof.
  intros Hnew Hi Hg.
  destruct (@listeners_registered_reachable X c s0 o0 inputs Hnew) as [Hwf _].
  eapply normal_of_wp. apply handle_returns; [exact Hwf | exact Hg | exact Hi].
Qed.

Lemma internal_state_error_unreachable_witness :
  completion_of
    (@handle demo timeout_elapsed
       (fst (run [firebase_child_added (demo_snapshot "a" (Some origin));
                  call_updateCriteria (mkCriteria (Some ((-1)%float, (-1)%float)) None)]
                 demo_query))) = Normal tt.
Proof.
  apply (@internal_state_error_unreachable demo
           (mkCriteria (Some origin) (Some 1%float)) demo_query
           (effects_of (constructor demo (mkCriteria (Some origin) (Some 1%float))
                          declared))).
  - vm_compute. reflexivity.
  - reflexivity.
  - reflexivity.
Defined.

(** X16. In every state of an instance that was delivered no child named
    ["hasOwnProperty"], every entry of the location table holds, as
    [distanceFromCenter], the distance of its location from the center the
    instance then has. *)
Theorem distances_stay_current (X : Collaborators) (c : Criteria) (s0 : State)
    (o0 : list Effect) (inputs : list (Input X)) (key : string) (d : LocationDict) :
  GeoQuery X c = Some (s0, o0) ->
  Forall (fun i => delivers "hasOwnProperty" i = false) inputs ->
  JsObject.get key (_locations (fst (run inputs s0))) = Some d ->
  distanceFromCenter d = distance X (location d) (_center (fst (run inputs s0))).
Proof.
  intros Hnew Hinputs Hget.
  destruct (@well_formed_reachable X c s0 o0 inputs Hnew Hinputs)
    as (_ & _ & _ & Hcurrent & _).
  now apply Hcurrent in Hget.
Qed.

Lemma distances_stay_current_witness :
  distanceFromCenter
    (mkLocationDict (0%float, 2%float) 444%float false "s")
  = distance demo
      (location (mkLocationDict (0%float, 2%float) 444%float false "s"))
      (_center
         (fst (run [firebase_child_added (demo_snapshot "b" (Some (0%float, 2%float)));
                    call_updateCriteria (mkCriteria (Some ((-1)%float, (-1)%float)) None)]
                   demo_query))).
Proof.
  apply (@distances_stay_current demo (mkCriteria (Some origin) (Some 1%float)) demo_query
           (effects_of (constructor demo (mkCriteria (Some origin) (Some 1%float))
                          declared))
           [firebase_child_added (demo_snapshot "b" (Some (0%float, 2%float)));
            call_updateCriteria (mkCriteria (Some ((-1)%float, (-1)%float)) None)]
           "b").
  - vm_compute. reflexivity.
  - repeat constructor.
  - vm_compute. reflexivity.
Defined.

(** ** Passes one after the other *)

Section Passes.

Variable X : Collaborators.

Lemma In_keys_iff (V : Type) (o o' : JsObject.t V) :
  (forall q, JsObject.get q o' = JsObject.get q o) ->
  forall q, In q (JsObject.keys o) -> In q (JsObject.keys o').
Proof.
  intros Hget q HIn. apply JsObjectFacts.In_keys_get in HIn. destruct HIn as [v Hv].
  rewrite <- Hget in Hv. eapply JsObjectFacts.get_Some_In; eauto.
Qed.

Lemma held_by_range_incl (l l' : list string) g :
  (forall q, In q l -> In q l') -> held_by_range X l g -> held_by_range X l' g.
Proof.
  intros Hincl (q & lo & hi & HIn & Hrest). exists q, lo, hi. split; auto.
Qed.

End Passes.

(** X18. A second cleanup pass, run right after a first one on a table
    with no row under ["hasOwnProperty"], finds nothing to do: it returns,
    and the registry and the location table give the same answer for every
    key as after the first pass. *)
Theorem cleanup_pass_twice (X : Collaborators) (s : State) :
  registry_well_formed s ->
  guard_intact s ->
  let s1 := state_of (_cleanUpCurrentGeohashesQueried X s) in
  let r2 := _cleanUpCurrentGeohashesQueried X s1 in
  completion_of r2 = Normal tt /\
  (forall q, JsObject.get q (_currentGeohashesQueried (state_of r2))
             = JsObject.get q (_currentGeohashesQueried s1)) /\
  (forall k, JsObject.get k (_locations (state_of r2)) = JsObject.get k (_locations s1)).
Proof.
  intros Hwf Hg s1 r2.
  destruct (@_cleanUpCurrentGeohashesQueried_spec X s Hwf Hg)
    as (_ & Hreg1 & Hloc1). fold s1 in Hreg1, Hloc1.
  assert (Hg1 : guard_intact s1).
  { unfold guard_intact, JsObject.hasOwnProperty in *.
    destruct (JsObject.get "hasOwnProperty" (_locations s1)) as [d|] eqn:E; [|reflexivity].
    apply Hloc1 in E. destruct E as [E _]. now rewrite E in Hg. }
  assert (Hwf1 : registry_well_formed s1).
  { unfold registry_well_formed in *. rewrite Forall_forall in *. intros q Hq.
    apply Hwf. apply JsObjectFacts.In_keys_get in Hq. destruct Hq as [f Hf].
    rewrite Hreg1 in Hf.
    destruct (JsObject.get q (_currentGeohashesQueried s)) as [[|]|] eqn:E;
      try discriminate Hf.
    eapply JsObjectFacts.get_Some_In; eauto. }
  destruct (@_cleanUpCurrentGeohashesQueried_spec X s1 Hwf1 Hg1)
    as (Hret & Hreg2 & Hloc2). fold r2 in Hret, Hreg2, Hloc2.
  assert (Hsame : forall q, JsObject.get q (_currentGeohashesQueried (state_of r2))
                            = JsObject.get q (_currentGeohashesQueried s1)).
  { intros q. rewrite Hreg2, (Hreg1 q).
    now destruct (JsObject.get q (_currentGeohashesQueried s)) as [[|]|]. }
  split; [exact Hret|]. split; [exact Hsame|]. intros k.
  destruct (JsObject.get k (_locations s1)) as [d|] eqn:Hk.
  - apply Hloc2. split; [exact Hk|].
    apply (@held_by_range_incl X (JsObject.keys (_currentGeohashesQueried s1))).
    + apply In_keys_iff. exact Hsame.
    + now apply (Hloc1 k).
  - destruct (JsObject.get k (_locations (state_of r2))) as [d|] eqn:Hk2; [|reflexivity].
    apply Hloc2 in Hk2. destruct Hk2 as [Hk2 _]. congruence.
Qed.

Lemma cleanup_pass_twice_witness :
  let s1 := state_of (_cleanUpCurrentGeohashesQueried demo demo_moved) in
  let r2 := _cleanUpCurrentGeohashesQueried demo s1 in
  completion_of r2 = Normal tt /\
  (forall q, JsObject.get q (_currentGeohashesQueried (state_of r2))
             = JsObject.get q (_currentGeohashesQueried s1)) /\
  (forall k, JsObject.get k (_locations (state_of r2)) = JsObject.get k (_locations s1)).
Proof.
  apply (@cleanup_pass_twice demo demo_moved);
    [well_formed_by_evaluation | reflexivity].
Defined.

(** X19. A recomputation followed by a cleanup pass leaves registered
    exactly the ranges of the coverage of the current criteria, each
    flagged [true], when the registry decoded and had no key twice, the
    bounds of the coverage hold no colon, and the location table has no row
    under ["hasOwnProperty"].  Both steps return. *)
Theorem recomputation_then_cleanup (X : Collaborators) (s : State) :
  registry_well_formed s ->
  NoDup (JsObject.keys (_currentGeohashesQueried s)) ->
  guard_intact s ->
  (forall lo hi,
     In (lo, hi) (geohashQueries X (_center s) (PrimFloat.mul (_radius s) 1000%float)) ->
     no_colon lo = true /\ no_colon hi = true) ->
  let r1 := _listenForNewGeohashes X s in
  let r2 := _cleanUpCurrentGeohashesQueried X (state_of r1) in
  let L := map _queryToString
             (geohashQueries X (_center s) (PrimFloat.mul (_radius s) 1000%float)) in
  completion_of r1 = Normal tt /\ completion_of r2 = Normal tt /\
  (forall q, In q L ->
     JsObject.get q (_currentGeohashesQueried (state_of r2)) = Some true) /\
  (forall q, ~ In q L ->
     JsObject.get q (_currentGeohashesQueried (state_of r2)) = None).
Proof.
  intros Hwf HK Hg Hbounds r1 r2 L.
  pose proof (@_listenForNewGeohashes_flags X s [] HK Hbounds) as Hflags.
  assert (Hg1 : guard_intact (state_of (_listenForNewGeohashes X s))).
  { destruct (_listenForNewGeohashes_frame X s) as (Hloc & _).
    unfold guard_intact. cbv zeta in Hloc. now rewrite Hloc. }
  assert (HL : forall q, In q (filter_first_occurrences L) <-> In q L).
  { intros q. split;
      [apply filter_first_occurrences_In | apply In_filter_first_occurrences]. }
  cbv zeta in Hflags. fold L in Hflags. unfold wp in Hflags.
  unfold r2, r1, state_of, completion_of in *.
  destruct (_listenForNewGeohashes X s) as [[[[]|e] s1] o1];
    cbn [fst snd] in *; [|destruct Hflags].
  destruct Hflags as (Htrue & Hfalse & _).
  assert (Hwf1 : registry_well_formed s1).
  { unfold registry_well_formed in *. rewrite Forall_forall in *. intros q Hq.
    destruct (in_dec string_dec q L) as [HqL|HqL].
    - apply in_map_iff in HqL. destruct HqL as ([lo hi] & <- & Hin).
      destruct (Hbounds lo hi Hin) as [Hlo Hhi].
      exists lo, hi. now apply split__queryToString.
    - apply Hwf. apply JsObjectFacts.In_keys_get in Hq. destruct Hq as [f Hf].
      rewrite Hfalse in Hf by (now rewrite HL).
      destruct (JsObject.get q (_currentGeohashesQueried s)) eqn:E; [|discriminate Hf].
      eapply JsObjectFacts.get_Some_In; eauto. }
  destruct (@_cleanUpCurrentGeohashesQueried_spec X s1 Hwf1 Hg1) as (Hret & Hreg & _).
  unfold state_of, completion_of in Hret, Hreg.
  split; [reflexivity|]. split; [exact Hret|]. split.
  - intros q Hq. rewrite Hreg, Htrue by (now apply HL). reflexivity.
  - intros q Hq. rewrite Hreg, Hfalse by (now rewrite HL).
    now destruct (JsObject.get q (_currentGeohashesQueried s)).
Qed.

Lemma recomputation_then_cleanup_witness :
  let r1 := _listenForNewGeohashes demo demo_moved in
  let r2 := _cleanUpCurrentGeohashesQueried demo (state_of r1) in
  let L := map _queryToString
             (geohashQueries demo (_center demo_moved)
                (PrimFloat.mul (_radius demo_moved) 1000%float)) in
  completion_of r1 = Normal tt /\ completion_of r2 = Normal tt /\
  (forall q, In q L ->
     JsObject.get q (_currentGeohashesQueried (state_of r2)) = Some true) /\
  (forall q, ~ In q L ->
     JsObject.get q (_currentGeohashesQueried (state_of r2)) = None).
Proof.
  apply (@recomputation_then_cleanup demo demo_moved).
  - well_formed_by_evaluation.
  - vm_compute.
    repeat (constructor;
            [intros H; repeat (destruct H as [H|H]; [discriminate H|]); exact H|]).
    constructor.
  - reflexivity.
  - vm_compute. intros lo hi [E|[]]. injection E as <- <-. split; reflexivity.
Defined.

(** ** Construction *)

Section Construction.

Variable X : Collaborators.

(** The constructor with both criteria given and accepted: the interval is
    set first, then the criteria are stored and the coverage computed. *)
Lemma constructor_eq c0 r0 :
  validateCriteria X (mkCriteria (Some c0) (Some r0)) true = true ->
  let s1 := set_center_radius c0 r0
              (set_cleanUpInterval 0 (set_next_timer_handle 1 declared)) in
  constructor X (mkCriteria (Some c0) (Some r0)) declared =
  (completion_of (_listenForNewGeohashes X s1), state_of (_listenForNewGeohashes X s1),
   SetInterval 0 10000%N :: effects_of (_listenForNewGeohashes X s1)).
Proof.
  intros Hvalid s1. unfold constructor.
  erewrite bind_Normal by reflexivity. erewrite bind_Normal by reflexivity.
  erewrite bind_Normal by reflexivity. erewrite bind_Normal by reflexivity.
  cbn [state_of completion_of effects_of fst snd app]. rewrite Hvalid.
  cbn [center radius]. erewrite bind_Normal by reflexivity.
  cbn [state_of completion_of effects_of fst snd app]. reflexivity.
Qed.

End Construction.

(** X20. [new GeoQuery] on a Firebase reference, with a center and a
    radius that validate and a coverage whose bounds hold no colon,
    returns an instance.  Its
    [center()] and [radius()] return the criteria given; it tracks no
    location, has no callback, and its ready state is not fired; its
    registry holds exactly the ranges of the coverage, flagged [true],
    all of them awaited with the count at zero; and the first thing the
    constructor did was to set the cleanup interval, of ten seconds. *)
Theorem construction (X : Collaborators) (c0 : Location) (r0 : float) :
  validateCriteria X (mkCriteria (Some c0) (Some r0)) true = true ->
  (forall lo hi, In (lo, hi) (geohashQueries X c0 (PrimFloat.mul r0 1000%float)) ->
     no_colon lo = true /\ no_colon hi = true) ->
  let L := map _queryToString (geohashQueries X c0 (PrimFloat.mul r0 1000%float)) in
  exists s0 o0,
    GeoQuery X (mkCriteria (Some c0) (Some r0)) = Some (s0, SetInterval 0 10000%N :: o0) /\
    completion_of (this_center s0) = Normal c0 /\
    completion_of (this_radius s0) = Normal r0 /\
    _locations s0 = JsObject.empty /\ _callbacks s0 = no_callbacks /\
    _valueEventFired s0 = false /\
    (forall q, In q L -> JsObject.get q (_currentGeohashesQueried s0) = Some true) /\
    (forall q, ~ In q L -> JsObject.get q (_currentGeohashesQueried s0) = None) /\
    (forall q, In q (_geohashesToQuery s0) <-> In q L) /\
    _numGeohashesToQueryProcessed s0 = 0.
Proof.
  intros Hvalid Hbounds L. unfold GeoQuery.
  rewrite (constructor_eq X c0 r0 Hvalid). cbv zeta.
  set (s1 := set_center_radius c0 r0 _).
  assert (HK : NoDup (JsObject.keys (_currentGeohashesQueried s1))) by constructor.
  pose proof (@_listenForNewGeohashes_flags X s1 [] HK Hbounds) as Hflags.
  destruct (_listenForNewGeohashes_frame X s1) as (_ & Hc & Hr & _).
  assert (HL : forall q, In q (filter_first_occurrences L) <-> In q L).
  { intros q. split;
      [apply filter_first_occurrences_In | apply In_filter_first_occurrences]. }
  cbv zeta in Hflags, Hc, Hr. unfold wp in Hflags.
  change (geohashQueries X (_center s1) (PrimFloat.mul (_radius s1) 1000%float))
    with (geohashQueries X c0 (PrimFloat.mul r0 1000%float)) in Hflags.
  fold L in Hflags.
  unfold state_of, completion_of, effects_of in *.
  destruct (_listenForNewGeohashes X s1) as [[[[]|e] s0] o0];
    cbn [fst snd] in *; [|destruct Hflags].
  destruct Hflags as (Htrue & Hfalse & HtoQ & _ & Hnum & Hloc & Hcb & Hfired).
  exists s0, o0. split; [reflexivity|].
  unfold this_center, this_radius, gets. cbn [fst snd].
  rewrite Hc, Hr. split; [reflexivity|]. split; [reflexivity|].
  split; [exact Hloc|]. split; [exact Hcb|]. split; [exact Hfired|].
  split; [intros q Hq; apply Htrue; now apply HL|].
  split; [intros q Hq; rewrite Hfalse by (now rewrite HL); reflexivity|].
  split; [|exact Hnum].
  intros q. rewrite HtoQ, HL. cbn [In]. tauto.
Qed.

Lemma construction_witness :
  let L := map _queryToString
             (geohashQueries demo origin (PrimFloat.mul 1%float 1000%float)) in
  exists s0 o0,
    GeoQuery demo (mkCriteria (Some origin) (Some 1%float))
      = Some (s0, SetInterval 0 10000%N :: o0) /\
    completion_of (this_center s0) = Normal origin /\
    completion_of (this_radius s0) = Normal 1%float /\
    _locations s0 = JsObject.empty /\ _callbacks s0 = no_callbacks /\
    _valueEventFired s0 = false /\
    (forall q, In q L -> JsObject.get q (_currentGeohashesQueried s0) = Some true) /\
    (forall q, ~ In q L -> JsObject.get q (_currentGeohashesQueried s0) = None) /\
    (forall q, In q (_geohashesToQuery s0) <-> In q L) /\
    _numGeohashesToQueryProcessed s0 = 0.
Proof.
  apply (@construction demo origin 1%float).
  - reflexivity.
  - vm_compute. intros lo hi [E|[]]. injection E as <- <-. split; reflexivity.
Defined.

(** ** Where [key_moved] comes from *)

Section MovedEvents.

Variable X : Collaborators.

Lemma count_fired_of_fired_for t t' key key' loc dist callbacks :
  count_fired t key (fired t' key' loc dist callbacks) =
  if EventType_eqb t' t && String.eqb key' key then 1 else 0.
Proof.
  unfold count_fired, fired. cbn [filter is_Fire].
  assert (Hcalls : filter (is_Fire t key)
            (map (fun cb => Call cb key' (Some loc) (Some dist)) (callbacks_of t' callbacks))
            = []).
  { induction (callbacks_of t' callbacks) as [|cb l IH]; [reflexivity | exact IH]. }
  destruct (EventType_eqb t' t && String.eqb key' key); cbn [List.length];
    now rewrite Hcalls.
Qed.

(** Outside [_updateLocation], nothing fires [key_moved]. *)
Lemma no_key_moved_elsewhere (i : Input X) key :
  (forall snapshot, i <> firebase_child_added snapshot) ->
  (forall snapshot, i <> firebase_child_changed snapshot) ->
  keeps (fun _ h => Forall (fun e => is_Fire key_moved key e = false) h) (handle i).
Proof.
  intros Hadded Hchanged.
  destruct i; cbn [handle];
    try (exfalso; eapply Hadded; reflexivity);
    try (exfalso; eapply Hchanged; reflexivity);
    try (keeps_statements ltac:(first
      [ apply keeps_modify; intros ? ? ?; assumption
      | apply keeps_perform; intros ? ? ?; apply Forall_app; split;
        [assumption | now repeat constructor]
      | progress unfold _fireCallbacksForKey, _fireReadyEventCallbacks ]); fail).
  unfold on. destruct (EventType_of_string eventType) as [t|]; [|apply keeps_throw].
  apply keeps_bind; [apply keeps_modify; intros ? ? ?; assumption | intros _].
  apply keeps_bind; [|intros _]; destruct t;
    keeps_statements ltac:(first
      [ apply keeps_modify; intros ? ? ?; assumption
      | apply keeps_perform; intros ? ? ?; apply Forall_app; split;
        [assumption | now repeat constructor] ]).
Qed.

(** Among the events of [_updateLocation], [key_moved] is the one of a
    key that was inside and still is. *)
Lemma moved_among_events (now was moved : bool) key key' loc dist callbacks :
  0 < count_fired key_moved key
        (if now && negb was then fired key_entered key' loc dist callbacks
         else if now && moved then fired key_moved key' loc dist callbacks
         else if negb now && was then fired key_exited key' loc dist callbacks
         else []) ->
  now = true /\ was = true /\ key' = key.
Proof.
  destruct now, was, moved; cbn [andb negb];
    rewrite ?count_fired_of_fired_for;
    cbn [EventType_eqb andb count_fired filter List.length];
    try (intros H; exfalso; lia).
  destruct (String.eqb_spec key' key) as [->|Hne]; [auto | intros H; exfalso; lia].
Qed.

Lemma moved_by__updateLocation key' loc s key :
  0 < count_fired key_moved key (effects_of (_updateLocation X key' loc s)) ->
  in_query key s = true /\
  in_query key (state_of (_updateLocation X key' loc s)) = true.
Proof.
  destruct (validateLocation X loc) eqn:Hvalid.
  - destruct (JsObject.hasOwnProperty "hasOwnProperty" (_locations s)) eqn:Hg.
    + unfold _updateLocation. rewrite Hvalid.
      erewrite bind_Throw by (apply _locations_hasOwnProperty_throws; exact Hg).
      cbn. intros H. exfalso. lia.
    + rewrite (@_updateLocation_eq X key' loc s Hvalid Hg).
      cbn [state_of effects_of fst snd]. intros Hfired.
      apply moved_among_events in Hfired. destruct Hfired as (Hnow & Hwas & ->).
      split; [exact Hwas|].
      assert (Hown : JsObject.hasOwnProperty key (_locations s) = true).
      { unfold in_query in Hwas. unfold JsObject.hasOwnProperty.
        now destruct (JsObject.get key (_locations s)). }
      rewrite Hown, andb_false_r. unfold in_query. state_simpl.
      rewrite JsObjectFacts.get_set_same. exact Hnow.
  - unfold _updateLocation. rewrite Hvalid. cbn. intros H. exfalso. lia.
Qed.

End MovedEvents.

(** X21. Whatever the state and the input, [key_moved] fires for a key
    only when a child was added or changed, and only for a key that was
    flagged in-query before and is flagged in-query after: it never fires
    for a key that is outside the query, and neither a change of criteria,
    nor a removal, nor a cleanup pass fires it. *)
Theorem key_moved_only_inside (X : Collaborators) (i : Input X) (s : State)
    (key : string) :
  0 < count_fired key_moved key (effects_of (handle i s)) ->
  in_query key s = true /\ in_query key (state_of (handle i s)) = true /\
  exists snapshot, i = firebase_child_added snapshot \/ i = firebase_child_changed snapshot.
Proof.
  intros Hfired.
  assert (Hother : (forall snapshot, i <> firebase_child_added snapshot) ->
                   (forall snapshot, i <> firebase_child_changed snapshot) -> False).
  { intros Hadded Hchanged.
    pose proof (@no_key_moved_elsewhere X i key Hadded Hchanged) as Hk.
    unfold keeps in Hk. specialize (Hk s [] (Forall_nil _)). cbn [app] in Hk.
    unfold count_fired in Hfired.
    rewrite (count_none (is_Fire key_moved key) (is_Fire key_moved key)) in Hfired;
      [lia | auto | exact Hk]. }
  destruct i; try (exfalso; apply Hother; intros; discriminate).
  - cbn [handle] in *. unfold _childAddedCallback in *.
    destruct (decodeGeofireObject X (val snapshot)) as [loc|];
      [|cbn in Hfired; exfalso; lia].
    destruct (@moved_by__updateLocation X _ _ _ _ Hfired) as [Hwas Hnow].
    split; [exact Hwas|]. split; [exact Hnow|]. exists snapshot. now left.
  - cbn [handle] in *. unfold _childChangedCallback in *.
    destruct (decodeGeofireObject X (val snapshot)) as [loc|];
      [|cbn in Hfired; exfalso; lia].
    destruct (@moved_by__updateLocation X _ _ _ _ Hfired) as [Hwas Hnow].
    split; [exact Hwas|]. split; [exact Hnow|]. exists snapshot. now right.
Qed.

Lemma key_moved_only_inside_witness :
  in_query "a" demo_tracking = true /\
  in_query "a"
    (state_of (handle (firebase_child_changed
                         (demo_snapshot "a" (Some (0%float, 0.0078125%float))))
                      demo_tracking)) = true /\
  exists snapshot,
    firebase_child_changed (demo_snapshot "a" (Some (0%float, 0.0078125%float)))
      = firebase_child_added snapshot \/
    firebase_child_changed (demo_snapshot "a" (Some (0%float, 0.0078125%float)))
      = firebase_child_changed snapshot.
Proof.
  apply (@key_moved_only_inside demo
           (firebase_child_changed (demo_snapshot "a" (Some (0%float, 0.0078125%float))))
           demo_tracking "a").
  vm_compute. lia.
Defined.

(** ** The ready event after a change of criteria *)

(** X22. When [updateCriteria], called with criteria that validate on a
    table with no row under ["hasOwnProperty"], makes the engine await at
    least one new range (the bounds of the new coverage holding no colon,
    and no dictionary holding a key twice), it returns with the ready state
    unfired, and the ready event then fires again exactly when the value of
    the last of the new ranges arrives: the values before it invoke
    nothing, and that one invokes every ready callback once, in
    registration order. *)
Theorem ready_after_updateCriteria (X : Collaborators) (newQueryCriteria : Criteria)
    (s : State) :
  validateCriteria X newQueryCriteria false = true ->
  NoDup (JsObject.keys (_locations s)) ->
  NoDup (JsObject.keys (_currentGeohashesQueried s)) ->
  guard_intact s ->
  let r := updateCriteria X newQueryCriteria s in
  let s' := state_of r in
  let n := List.length (_geohashesToQuery s') in
  (forall lo hi,
     In (lo, hi) (geohashQueries X (_center s') (PrimFloat.mul (_radius s') 1000%float)) ->
     no_colon lo = true /\ no_colon hi = true) ->
  0 < n ->
  completion_of r = Normal tt /\ _valueEventFired s' = false /\
  (forall k, 0 < k < n -> snd (run (repeat (@firebase_query_value X) k) s') = []) /\
  snd (run (repeat (@firebase_query_value X) n) s') = ready_signal (_callbacks s).
Proof.
  intros Hvalid Hnd HK Hg r s' n. unfold n, s', r.
  rewrite (@updateCriteria_eq X newQueryCriteria s Hvalid Hnd Hg).
  cbn [state_of completion_of effects_of fst snd].
  set (s1 := set_valueEventFired false _).
  destruct (_listenForNewGeohashes_frame X s1) as (_ & Hc & Hr & Hcb & Hfired).
  cbv zeta in Hc, Hr, Hcb, Hfired. rewrite Hc, Hr. intros Hbounds Hpos.
  assert (HK1 : NoDup (JsObject.keys (_currentGeohashesQueried s1))) by exact HK.
  pose proof (@_listenForNewGeohashes_flags X s1 [] HK1 Hbounds) as Hflags.
  cbv zeta in Hflags. unfold wp in Hflags.
  unfold state_of, completion_of in *.
  destruct (_listenForNewGeohashes X s1) as [[[[]|e] s2] o2];
    cbn [fst snd] in *; [|destruct Hflags].
  destruct Hflags as (_ & _ & _ & _ & Hnum & _).
  split; [reflexivity|]. split; [exact Hfired|]. split.
  - intros k Hk. rewrite values_run by lia. rewrite Hnum. cbn [fst snd plus].
    replace (Nat.eqb k (List.length (_geohashesToQuery s2))) with false
      by (symmetry; apply Nat.eqb_neq; lia).
    now rewrite andb_false_r.
  - rewrite values_run by lia. rewrite Hnum. cbn [fst snd plus].
    rewrite Nat.eqb_refl, andb_true_r, Hcb.
    replace (Nat.ltb 0 (List.length (_geohashesToQuery s2))) with true
      by (symmetry; apply Nat.ltb_lt; lia).
    reflexivity.
Qed.

(** The query of nine ranges moves to another quadrant: nine new ranges
    are awaited, and the two ready callbacks are called with the ninth
    value. *)
Lemma ready_after_updateCriteria_witness :
  let r := updateCriteria demo9 (mkCriteria (Some ((-1)%float, (-1)%float)) None)
             demo9_listening in
  let s' := state_of r in
  let n := List.length (_geohashesToQuery s') in
  n = 9 /\
  ready_signal (_callbacks demo9_listening) = [FireReady; CallReady 3; CallReady 4] /\
  completion_of r = Normal tt /\ _valueEventFired s' = false /\
  (forall k, 0 < k < n -> snd (run (repeat (@firebase_query_value demo9) k) s') = []) /\
  snd (run (repeat (@firebase_query_value demo9) n) s')
    = ready_signal (_callbacks demo9_listening).
Proof.
  cbv zeta. split; [reflexivity|]. split; [reflexivity|].
  apply (@ready_after_updateCriteria demo9
           (mkCriteria (Some ((-1)%float, (-1)%float)) None) demo9_listening).
  - reflexivity.
  - vm_compute.
    repeat (constructor;
            [intros H; repeat (destruct H as [H|H]; [discriminate H|]); exact H|]).
    constructor.
  - vm_compute.
    repeat (constructor;
            [intros H; repeat (destruct H as [H|H]; [discriminate H|]); exact H|]).
    constructor.
  - reflexivity.
  - intros lo hi Hin. vm_compute in Hin.
    repeat (destruct Hin as [Hin|Hin];
            [injection Hin as <- <-; split; reflexivity|]).
    destruct Hin.
  - vm_compute. lia.
Defined.

(** ** The cleanup timeout *)

(** Statements that neither schedule a cleanup nor set or clear a
    timeout. *)
Ltac timeouts_leaf :=
  first
    [ apply keeps_modify; intros ? ? ?; assumption
    | apply keeps_perform;
      let Hiff := fresh "Hiff" in
      let Hcount := fresh "Hcount" in
      intros ? ? [Hiff Hcount]; split;
      [ exact Hiff
      | rewrite !count_app; cbn [filter is_SetTimeout is_ClearTimeout List.length];
        rewrite Hcount; lia ] ].

Section TimeoutsKept.

Variable X : Collaborators.

Ltac timeouts_plain :=
  repeat first
    [ progress cbv zeta
    | progress unfold _geoQueryOff, with_own_row, _locations_hasOwnProperty
    | apply keeps__stringToQuery
    | apply keeps_pure; intros ?; apply _geohashInSomeQuery_pure
    | timeouts_leaf
    | keeps_step ].

Lemma timeouts__listenForNewGeohashes :
  keeps timeout_pending (_listenForNewGeohashes X).
Proof.
  unfold _listenForNewGeohashes.
  apply keeps_bind; [timeouts_leaf | intros _].
  apply keeps_bind; [timeouts_leaf | intros _].
  apply keeps_bind; [apply keeps_gets | intros queryStrs].
  apply keeps_bind; [timeouts_plain | intros _].
  apply wp_keeps. intros s h HJ.
  apply wp_bind, wp_gets, wp_bind, wp_gets, wp_bind.
  apply wp_mono with (Q := fun _ => timeout_pending) (E := timeout_pending).
  - destruct HJ as [Hiff Hcount].
    destruct (_geohashCleanupScheduled s) eqn:Hs; cbn [negb andb];
      [apply wp_ret; split; [now rewrite Hs | now rewrite Hs]|].
    destruct (Nat.ltb 25 _); [|apply wp_ret; split; [now rewrite Hs | now rewrite Hs]].
    unfold setTimeout. repeat (wp_step; cbv beta). split; state_simpl.
    + split; [discriminate | reflexivity].
    + rewrite !count_app. cbn [filter is_SetTimeout is_ClearTimeout List.length].
      cbv iota in Hcount. lia.
  - intros [] s1 h1 HJ1. apply keeps_wp; [|exact HJ1]. timeouts_plain.
  - intros s1 h1 HE. exact HE.
Qed.

Lemma timeouts__cleanUpCurrentGeohashesQueried :
  keeps timeout_pending (_cleanUpCurrentGeohashesQueried X).
Proof.
  unfold _cleanUpCurrentGeohashesQueried.
  apply keeps_bind; [apply keeps_gets | intros queryStrs].
  apply keeps_bind; [timeouts_plain | intros _].
  apply keeps_bind; [apply keeps_gets | intros keys].
  apply keeps_bind; [timeouts_plain | intros _].
  apply wp_keeps. intros s h [Hiff Hcount].
  apply wp_bind, wp_modify, wp_bind, wp_gets. state_simpl.
  destruct (_cleanUpCurrentGeohashesQueriedTimeout s) as [handle|] eqn:Ht.
  - unfold clearTimeout. apply wp_bind, wp_perform, wp_modify. split; state_simpl.
    + split; [discriminate | congruence].
    + rewrite !count_app. cbn [filter is_SetTimeout is_ClearTimeout List.length].
      replace (_geohashCleanupScheduled s) with true in Hcount
        by (symmetry; apply Hiff; discriminate).
      lia.
  - apply wp_ret. split; state_simpl.
    + split; [discriminate | congruence].
    + destruct (_geohashCleanupScheduled s); [|exact Hcount].
      exfalso. now apply Hiff.
Qed.

Ltac timeouts_statements :=
  repeat first
    [ progress cbv zeta
    | apply timeouts__listenForNewGeohashes
    | apply timeouts__cleanUpCurrentGeohashesQueried
    | progress unfold _childAddedCallback, _childChangedCallback, _childRemovedCallback,
        _childRemovedCallback_value, _checkIfShouldFireReadyEvent, interval_callback,
        _updateLocation, updateCriteria, registration_cancel, cancel, constructor,
        _fireCallbacksForKey, _fireReadyEventCallbacks, _geoQueryOff, with_own_row,
        _locations_hasOwnProperty, _locations_assign
    | apply keeps__stringToQuery
    | apply keeps_pure; intros ?; apply _geohashInSomeQuery_pure
    | timeouts_leaf
    | keeps_step ].

Lemma timeouts_handle (i : Input X) : keeps timeout_pending (handle i).
Proof.
  destruct i; cbn [handle]; try (timeouts_statements; fail).
  unfold on. destruct (EventType_of_string eventType) as [t|]; [|apply keeps_throw].
  apply keeps_bind; [timeouts_leaf | intros _].
  apply keeps_bind; [|intros _]; destruct t; timeouts_statements.
Qed.

Lemma timeouts_constructor (c : Criteria) : keeps timeout_pending (constructor X c).
Proof.
  unfold constructor. timeouts_statements;
    destruct (center c); timeouts_statements;
    destruct (radius c); timeouts_statements.
Qed.

End TimeoutsKept.

(** X23. At every moment of the life of an instance, a cleanup is
    scheduled exactly when a timeout handle is stored, and the number of
    timeouts set so far is the number of timeouts cleared so far, plus one
    when a cleanup is scheduled: the engine never sets a second cleanup
    timeout while one is pending. *)
Theorem cleanup_timeout_never_doubled (X : Collaborators) (c : Criteria) (s0 : State)
    (o0 : list Effect) (inputs : list (Input X)) :
  GeoQuery X c = Some (s0, o0) ->
  timeout_pending (fst (run inputs s0)) (o0 ++ snd (run inputs s0)).
Proof.
  intros Hnew.
  assert (H0 : timeout_pending s0 o0).
  { pose proof (@timeouts_constructor X c) as Hk. unfold keeps in Hk.
    specialize (Hk declared []).
    unfold GeoQuery in Hnew. unfold state_of, effects_of in Hk.
    destruct (constructor X c declared) as [[[a|e] s1] o1]; [|discriminate].
    injection Hnew as <- <-. apply Hk. split; [|reflexivity].
    split; [discriminate | intros H; now contradiction H]. }
  apply (keeps_run (J := timeout_pending) (@timeouts_handle X) inputs s0 o0 H0).
Qed.

(** The query of nine ranges moves three times: the third move finds 27
    ranges registered and sets the cleanup timeout, which then elapses, and
    the pass clears it; a fourth move follows. *)
Lemma cleanup_timeout_never_doubled_witness :
  let inputs :=
    [firebase_child_added (mkDataSnapshot demo9 "a" (Some origin));
     call_updateCriteria (mkCriteria (Some ((-1)%float, 1%float)) None);
     call_updateCriteria (mkCriteria (Some (1%float, (-1)%float)) None);
     call_updateCriteria (mkCriteria (Some ((-1)%float, (-1)%float)) None);
     timeout_elapsed;
     call_updateCriteria (mkCriteria (Some origin) None)] in
  let h := effects_of (constructor demo9 (mkCriteria (Some origin) (Some 1%float))
                         declared)
           ++ snd (run inputs (state_of (constructor demo9
                                           (mkCriteria (Some origin) (Some 1%float))
                                           declared))) in
  List.length (filter is_SetTimeout h) = 1 /\
  List.length (filter is_ClearTimeout h) = 1 /\
  timeout_pending
    (fst (run inputs (state_of (constructor demo9
                                  (mkCriteria (Some origin) (Some 1%float)) declared))))
    h.
Proof.
  cbv zeta. split; [vm_compute; reflexivity|]. split; [vm_compute; reflexivity|].
  apply (@cleanup_timeout_never_doubled demo9 (mkCriteria (Some origin) (Some 1%float))).
  vm_compute. reflexivity.
Defined.
